(** * local-first-explorer: the page component of [src/app/page.tsx]

    The component keeps three pieces of React state ([fileTree],
    [selectedFile], [isLoading]) and reads the [files] map of the
    [useFileSystem] hook.  This development embeds

    - [updateFileTree]  (lines 43-74): flat path map to nested tree,
      as a function on trees ([walk], [buildTree]) and on a store of
      mutable objects ([Store.walk], [Store.build]),
    - [handleFileSelect] (lines 76-81): selection of a file by path,
    - [renderFileTree]  (lines 83-116): tree to React elements,
    - [formatFileSize]  (lines 118-123): byte count to display string,

    and states the properties of the specification about them. *)

From Stdlib Require Import List String Ascii Bool Arith NArith ZArith Lia.
From Stdlib Require Import QArith Qround Qabs.
Import ListNotations.

Local Close Scope Q_scope.
Local Open Scope string_scope.
Local Open Scope list_scope.

(** ** Strings: [String.prototype.split] and [Array.prototype.join] *)

Module Str.

(** The separator of [path.split("/")] and [join("/")]. *)
Definition slash : ascii := "/"%char.

(** [s.split(sep)] for a one-character separator: the maximal runs of
    characters between separators, in order.  The result is never empty:
    the empty string splits into one empty part. *)
Fixpoint split (sep : ascii) (s : string) : list string :=
  match s with
  | EmptyString => [EmptyString]
  | String c s' =>
      if Ascii.eqb c sep then EmptyString :: split sep s'
      else match split sep s' with
           | [] => [String c EmptyString]
           | p :: ps => String c p :: ps
           end
  end.

(** [parts.join(sep)]. *)
Fixpoint join (sep : ascii) (parts : list string) : string :=
  match parts with
  | [] => EmptyString
  | [p] => p
  | p :: ps => (p ++ String sep (join sep ps))%string
  end.

(** [parts.slice(0, n)]. *)
Definition slice0 {A} (n : nat) (parts : list A) : list A := firstn n parts.

End Str.

(** ** The data model *)

(** [type: "file" | "directory"] *)
Inductive NodeType := file | directory.

(** [interface FileNode]: the field [children] is optional, [None] is the
    absent ([undefined]) field. *)
#[warnings="-register-all"]
Inductive FileNode := mkFileNode {
  name : string;
  type : NodeType;
  children : option (list FileNode);
  path : string
}.

(** What the hook's map holds under a path.  The page declares the
    values as the browser's [File] objects and reads their [name], [size],
    [type] and [lastModified]; the hook of the package [use-file-system]
    hands over the text of each file, a string.  Both kinds of value are
    kept apart here, since line 78 tests the value for truthiness. *)
Inductive File :=
| mkFile (file_name : string) (file_size : Z) (file_type : string)
         (file_lastModified : Z)
| text (content : string).

(** [ToBoolean] of a value of the map, the test [if (file)] of line 78: an
    object is truthy, a string is truthy unless it is empty. *)
Definition truthy (f : File) : bool :=
  match f with
  | mkFile _ _ _ _ => true
  | text content => negb (String.eqb content "")
  end.

(** [Map<string, File>]: keys in insertion order, which is the order
    [Map.prototype.forEach] visits them. *)
Definition FileMap := list (string * File).

Definition keys (files : FileMap) : list string := map fst files.

(** [files.get(path)] *)
Fixpoint get (files : FileMap) (p : string) : option File :=
  match files with
  | [] => None
  | (k, f) :: rest => if String.eqb k p then Some f else get rest p
  end.

(** ** The tree builder, [updateFileTree] *)

Definition NodeType_eqb (a b : NodeType) : bool :=
  match a, b with
  | file, file | directory, directory => true
  | _, _ => false
  end.

(** [{ name: part, type: "file", path }] *)
Definition newFile (part p : string) : FileNode :=
  mkFileNode part file None p.

(** [{ name: part, type: "directory", children: [],
       path: parts.slice(0, index + 1).join("/") }] *)
Definition newDirectory (parts : list string) (part : string) (index : nat)
  : FileNode :=
  mkFileNode part directory (Some [])
             (Str.join Str.slash (Str.slice0 (index + 1) parts)).

(** [current.children?.push(n)]: nothing happens when [current] has no
    [children] field. *)
Definition push (current n : FileNode) : FileNode :=
  match children current with
  | None => current
  | Some cs => mkFileNode (name current) (type current) (Some (cs ++ [n]))
                          (path current)
  end.

(** [cs.find((c) => c.name === part)]: the first child of that name,
    whatever its type. *)
Definition findChild (part : string) (cs : list FileNode) : option FileNode :=
  find (fun c => String.eqb (name c) part) cs.

(** The effect, on the array [cs], of running [f] in place on the object
    that [findChild part cs] returns. *)
Fixpoint updateFound (part : string) (f : FileNode -> FileNode)
         (cs : list FileNode) : list FileNode :=
  match cs with
  | [] => []
  | c :: cs' =>
      if String.eqb (name c) part then f c :: cs'
      else c :: updateFound part f cs'
  end.

(** The body of [parts.forEach((part, index) => ...)] run on the parts
    [rest] that remain from position [index] on, as a function of the
    object [current] points to; the result is that object after the loop.

    The source mutates the tree in place and moves the cursor [current]
    down; here the object under the cursor is rebuilt with the result of
    the remaining iterations stored at the place of the child the cursor
    moves to.  When [current.children] is absent, [find] through [?.]
    yields [undefined], a directory object is created, the push through
    [?.] does nothing, and the cursor moves to that unattached object:
    every later write of this walk lands outside the tree, and [current]
    stays as it is.  The module [Store] below runs the same loop on a
    store of mutable objects, and [walk_simulation] shows that the tree
    the store holds afterwards is the one computed here. *)
Fixpoint walk (p : string) (parts : list string) (index : nat)
         (rest : list string) (current : FileNode) : FileNode :=
  match rest with
  | [] => current
  | part :: rest' =>
      if Nat.eqb index (List.length parts - 1) then
        walk p parts (S index) rest' (push current (newFile part p))
      else
        match children current with
        | None => current
        | Some cs =>
            match findChild part cs with
            | Some _ =>
                mkFileNode (name current) (type current)
                  (Some (updateFound part (walk p parts (S index) rest') cs))
                  (path current)
            | None =>
                mkFileNode (name current) (type current)
                  (Some (cs ++ [walk p parts (S index) rest'
                                   (newDirectory parts part index)]))
                  (path current)
            end
        end
  end.

(** One iteration of [files.forEach((file, path) => ...)]. *)
Definition addPath (root : FileNode) (p : string) : FileNode :=
  let parts := Str.split Str.slash p in
  walk p parts 0 parts root.

(** The synthetic root of line 45. *)
Definition emptyRoot : FileNode := mkFileNode "Root" directory (Some []) "".

(** The root object after the whole [files.forEach]. *)
Definition buildRoot (files : FileMap) : FileNode :=
  fold_left addPath (keys files) emptyRoot.

(** [root.children?.[0] || null] *)
Definition firstChild (root : FileNode) : option FileNode :=
  match children root with
  | Some (c :: _) => Some c
  | _ => None
  end.

(** The value handed to [setFileTree] on line 72. *)
Definition buildTree (files : FileMap) : option FileNode :=
  firstChild (buildRoot files).

(** ** The page state and its handlers *)

(** The three [useState] cells of the component. *)
Record PageState := mkPageState {
  fileTree : option FileNode;
  selectedFile : option File;
  isLoading : bool
}.

(** The initial values given to [useState] on lines 19-21. *)
Definition initialState : PageState := mkPageState None None false.

Definition setFileTree (t : option FileNode) (s : PageState) : PageState :=
  mkPageState t (selectedFile s) (isLoading s).

Definition setSelectedFile (f : option File) (s : PageState) : PageState :=
  mkPageState (fileTree s) f (isLoading s).

Definition setIsLoading (b : bool) (s : PageState) : PageState :=
  mkPageState (fileTree s) (selectedFile s) b.

(** [updateFileTree(files)], lines 43-74, on the component state. *)
Definition updateFileTree (files : FileMap) (s : PageState) : PageState :=
  let s1 := setIsLoading true s in
  let s2 := setFileTree (buildTree files) s1 in
  setIsLoading false s2.

(** [handleFileSelect(path)], lines 76-81.  The test [if (file)] fails
    when [get] finds no entry ([undefined]) and when the value found is
    falsy. *)
Definition handleFileSelect (files : FileMap) (p : string) (s : PageState)
  : PageState :=
  match get files p with
  | Some f => if truthy f then setSelectedFile (Some f) s else s
  | None => s
  end.

(** What can happen to a mounted page: the hook replaces its [files] map
    (the effect of line 39 then rebuilds the tree from the new map); the
    hook calls one of the three callbacks of lines 25-36, which rebuilds
    the tree from the map [seen] that the closure of the callback holds,
    the current one or an earlier one; or the user clicks a row of the
    tree, which calls [handleFileSelect] with the path of that row. *)
Inductive Event :=
| FilesReplaced (files' : FileMap)
| FilesAdded (seen : FileMap)
| FilesChanged (seen : FileMap)
| FilesDeleted (seen : FileMap)
| Clicked (p : string).

(** The hook's map together with the component state. *)
Record World := mkWorld {
  files : FileMap;
  page : PageState
}.

(** The page after its first render and the effect of line 39. *)
Definition initialWorld : World := mkWorld [] (updateFileTree [] initialState).

Definition step (w : World) (e : Event) : World :=
  match e with
  | FilesReplaced files' => mkWorld files' (updateFileTree files' (page w))
  | FilesAdded seen | FilesChanged seen | FilesDeleted seen =>
      mkWorld (files w) (updateFileTree seen (page w))
  | Clicked p => mkWorld (files w) (handleFileSelect (files w) p (page w))
  end.

Definition run (w : World) (es : list Event) : World := fold_left step es w.

(** ** The byte-size formatter, [formatFileSize] *)

(** Numbers.  A byte count is an integer-valued Number, taken as a [Z];
    the quotient of such a count by a power of two is computed exactly by
    the floating-point division as long as the count is a safe integer
    (below [2^53]), and is taken as the rational [Q] it denotes. *)
Module Num.

Definition MAX_SAFE_INTEGER : Z := 2 ^ 53 - 1.

Definition digit (n : N) : ascii := ascii_of_N (48 + n).

(** The decimal numeral of [n], most significant digit first. *)
Fixpoint digitsFuel (fuel : nat) (n : N) : string :=
  match fuel with
  | O => ""
  | S fuel' =>
      if (n <? 10)%N then String (digit n) ""
      else (digitsFuel fuel' (n / 10) ++ String (digit (n mod 10)) "")%string
  end.

Definition digits (n : N) : string := digitsFuel (S (N.to_nat (N.size n))) n.

(** The number that a decimal numeral denotes, after the digits read so
    far have given [acc]. *)
Fixpoint valueOf (s : string) (acc : N) : N :=
  match s with
  | EmptyString => acc
  | String c s' => valueOf s' (10 * acc + (N_of_ascii c - 48))%N
  end.

(** [Number::toString] on an integer of magnitude below [10^21]: the
    decimal numeral, with a minus sign for a negative number.  This is the
    conversion that [bytes + " bytes"] applies to [bytes]. *)
Definition toString (z : Z) : string :=
  if (z <? 0)%Z then ("-" ++ digits (Z.to_N (- z)))%string
  else digits (Z.to_N z).

Fixpoint zeros (n : nat) : string :=
  match n with
  | O => ""
  | S n' => String "0"%char (zeros n')
  end.

(** [Number.prototype.toFixed(f)] on a number of magnitude below [10^21],
    step by step as ECMA-262 gives it: [n] is the integer for which
    [n / 10^f - x] is as close to zero as possible, the larger one when
    there are two; its numeral is padded with zeros on the left to [f + 1]
    digits, and the point is put before the last [f] digits. *)
Definition toFixed (x : Q) (f : nat) : string :=
  let s := if Qle_bool 0 x then "" else "-" in
  let x := Qabs x in
  let n := Qfloor (x * inject_Z (10 ^ Z.of_nat f) + (1 # 2))%Q in
  let m := if (n =? 0)%Z then "0" else digits (Z.to_N n) in
  let m :=
    if Nat.eqb f 0 then m
    else
      let k := String.length m in
      let m := if Nat.leb k f then (zeros (f + 1 - k) ++ m)%string else m in
      let k := String.length m in
      let a := substring 0 (k - f) m in
      let b := substring (k - f) f m in
      (a ++ "." ++ b)%string
  in
  (s ++ m)%string.

(** [a / b] on Numbers, exact on the domain described above. *)
Definition div (a b : Z) : Q := (inject_Z a / inject_Z b)%Q.

End Num.

(** [formatFileSize(bytes)], lines 118-123. *)
Definition formatFileSize (bytes : Z) : string :=
  if (bytes <? 1024)%Z then (Num.toString bytes ++ " bytes")%string
  else if (bytes <? 1048576)%Z then
    (Num.toFixed (Num.div bytes 1024) 2 ++ " KB")%string
  else if (bytes <? 1073741824)%Z then
    (Num.toFixed (Num.div bytes 1048576) 2 ++ " MB")%string
  else (Num.toFixed (Num.div bytes 1073741824) 2 ++ " GB")%string.

(** The reading of the specification: "<n/d to 2 decimals>" is the
    numeral, with exactly two digits after the point, of a number of
    hundredths [m] that is as close to [n/d] as a number of hundredths
    can be. *)
Definition twoDecimals (m : N) : string :=
  (Num.digits (m / 100) ++ "."
   ++ String (Num.digit ((m / 10) mod 10)) (String (Num.digit (m mod 10)) ""))%string.

Definition nearestHundredth (n d : Z) (m : N) : Prop :=
  (2 * Z.abs (100 * n - Z.of_N m * d) <= d)%Z.

(** ** Vocabulary for the properties of the builder *)

(** [q] continues [p] below a separator: [q = p + "/" + more]. *)
Definition slashPrefix (p q : string) : Prop :=
  exists more : string, q = (p ++ String Str.slash more)%string.

(** No key of the map is a proper slash-prefix of another one. *)
Definition prefixFree (ks : list string) : Prop :=
  forall p q, In p ks -> In q ks -> ~ slashPrefix p q.

(** The top-level segment of a path, [path.split("/")[0]]. *)
Definition topSegment (p : string) : string :=
  hd EmptyString (Str.split Str.slash p).

Definition isFile (n : FileNode) : bool := NodeType_eqb (type n) file.
Definition isDirectory (n : FileNode) : bool := NodeType_eqb (type n) directory.

Definition under {A} (x : string) (e : list string * A) : list string * A :=
  (x :: fst e, snd e).

(** Every node of the tree [n], each with the names met from [n] down to
    it, both included; [n] itself comes first. *)
Fixpoint located (n : FileNode) : list (list string * FileNode) :=
  ([name n], n) ::
  map (under (name n))
      (match children n with
       | None => []
       | Some cs => flat_map located cs
       end).

(** The number of File nodes of a tree. *)
Definition countFiles (n : FileNode) : nat :=
  List.length (filter (fun e => isFile (snd e)) (located n)).

(** The name chains of the Directory nodes of a tree. *)
Definition directoryChains (n : FileNode) : list (list string) :=
  map fst (filter (fun e => isDirectory (snd e)) (located n)).

(** A property of all nodes of a tree that sits below the names [pre]. *)
Definition EveryAt (P : list string -> FileNode -> Prop) (pre : list string)
           (n : FileNode) : Prop :=
  forall ch m, In (ch, m) (located n) -> P (pre ++ ch) m.

Definition Every (P : FileNode -> Prop) (n : FileNode) : Prop :=
  EveryAt (fun _ => P) [] n.

(** [walk] with the position in [parts] given by the parts already
    passed, [pre], instead of an index: the form the proofs work on. *)
Fixpoint insertAt (p : string) (pre rest : list string) (current : FileNode)
  : FileNode :=
  match rest with
  | [] => current
  | part :: rest' =>
      match rest' with
      | [] => push current (newFile part p)
      | _ :: _ =>
          match children current with
          | None => current
          | Some cs =>
              match findChild part cs with
              | Some _ =>
                  mkFileNode (name current) (type current)
                    (Some (updateFound part (insertAt p (pre ++ [part]) rest') cs))
                    (path current)
              | None =>
                  mkFileNode (name current) (type current)
                    (Some (cs ++ [insertAt p (pre ++ [part]) rest'
                                     (mkFileNode part directory (Some [])
                                        (Str.join Str.slash (pre ++ [part])))]))
                    (path current)
              end
          end
      end
  end.

(** The walk along [rest] from [current] changes nothing: it runs into a
    node without [children] before it could push. *)
Fixpoint stuck (current : FileNode) (rest : list string) : Prop :=
  match rest with
  | [] => True
  | part :: rest' =>
      match children current with
      | None => True
      | Some cs =>
          match rest' with
          | [] => False
          | _ :: _ =>
              match findChild part cs with
              | Some c => stuck c rest'
              | None => False
              end
          end
      end
  end.

(** Local shape of a node. *)
Definition wellTyped (n : FileNode) : Prop :=
  match type n, children n with
  | file, None => True
  | directory, Some _ => True
  | _, _ => False
  end.

Definition namesDistinct (n : FileNode) : Prop :=
  forall cs, children n = Some cs -> NoDup (map name cs).

Definition directoriesDistinct (n : FileNode) : Prop :=
  forall cs, children n = Some cs -> NoDup (map name (filter isDirectory cs)).

(** What a node owes to the keys [ks] inserted so far. *)
Definition fromKeys (ks : list string) (ch : list string) (n : FileNode) : Prop :=
  match type n with
  | directory =>
      path n = Str.join Str.slash ch /\
      exists k more, In k ks /\ more <> [] /\ Str.split Str.slash k = ch ++ more
  | file =>
      In (path n) ks /\ Str.split Str.slash (path n) = ch
  end.

(** [P] keeps holding of a node whose children array is changed. *)
Definition stable (P : list string -> FileNode -> Prop) : Prop :=
  forall ch n m, name n = name m -> type n = type m -> path n = path m ->
                 (children n = None <-> children m = None) ->
                 P ch n -> P ch m.

(** [P] holds of all nodes strictly below [n], which sits at [pre]. *)
Definition Below (P : list string -> FileNode -> Prop) (pre : list string)
           (n : FileNode) : Prop :=
  forall cs c, children n = Some cs -> In c cs -> EveryAt P pre c.

(** The invariant of the build on the nodes below the synthetic root. *)
Definition sound (ks : list string) (ch : list string) (n : FileNode) : Prop :=
  wellTyped n /\ fromKeys ks ch n.

(** The root object after the walks of the paths [ks], from [root] on. *)
Definition buildFrom (root : FileNode) (ks : list string) : FileNode :=
  fold_left addPath ks root.

(** What one walk does to the first child [c] of the synthetic root. *)
Definition stepFirst (c : FileNode) (p : string) : FileNode :=
  match Str.split Str.slash p with
  | x :: y :: r =>
      if String.eqb x (name c) then insertAt p [x] (y :: r) c else c
  | _ => c
  end.

(** ** The builder on the object store

    [updateFileTree] builds its tree out of mutable objects: [root] and
    every node are objects of the heap, a [children] array holds
    references, and [current] is a reference that moves down while the
    objects it passes are mutated in place.  This section gives the
    builder on an explicit store of objects; [walk] above is shown below
    to compute the tree that this store holds. *)
Module Store.

(** A reference to an object: its index in the store. *)
Definition Ref := nat.

(** A [FileNode] object; its [children] are references. *)
Record Obj := mkObj {
  objName : string;
  objType : NodeType;
  objChildren : option (list Ref);
  objPath : string
}.

Definition Store := list Obj.

Definition deref (st : Store) (r : Ref) : option Obj := nth_error st r.

(** A new object, after all the existing ones. *)
Definition alloc (st : Store) (o : Obj) : Store * Ref :=
  (st ++ [o], List.length st).

(** The store with the object at [r] replaced by [o]. *)
Fixpoint set (st : Store) (r : Ref) (o : Obj) : Store :=
  match st, r with
  | [], _ => []
  | _ :: st', O => o :: st'
  | x :: st', S r' => x :: set st' r' o
  end.

(** [current.children] *)
Definition childrenOf (st : Store) (current : Ref) : option (list Ref) :=
  match deref st current with
  | Some o => objChildren o
  | None => None
  end.

(** [current.children?.push(r)] *)
Definition pushRef (st : Store) (current r : Ref) : Store :=
  match deref st current with
  | Some o =>
      match objChildren o with
      | Some cs =>
          set st current
              (mkObj (objName o) (objType o) (Some (cs ++ [r])) (objPath o))
      | None => st
      end
  | None => st
  end.

(** [(c) => c.name === part] *)
Definition nameIs (st : Store) (part : string) (c : Ref) : bool :=
  match deref st c with
  | Some o => String.eqb (objName o) part
  | None => false
  end.

(** [current.children?.find((c) => c.name === part)] *)
Definition findRef (st : Store) (part : string) (current : Ref) : option Ref :=
  match childrenOf st current with
  | Some cs => find (nameIs st part) cs
  | None => None
  end.

Definition fileObj (part p : string) : Obj := mkObj part file None p.

Definition directoryObj (parts : list string) (part : string) (index : nat)
  : Obj :=
  mkObj part directory (Some [])
        (Str.join Str.slash (Str.slice0 (index + 1) parts)).

(** [parts.forEach((part, index) => ...)] from position [index] on: the
    store and the variable [current] after the remaining iterations. *)
Fixpoint walk (p : string) (parts : list string) (index : nat)
         (rest : list string) (st : Store) (current : Ref) : Store * Ref :=
  match rest with
  | [] => (st, current)
  | part :: rest' =>
      if Nat.eqb index (List.length parts - 1) then
        match childrenOf st current with
        | Some _ =>
            let (st1, r) := alloc st (fileObj part p) in
            walk p parts (S index) rest' (pushRef st1 current r) current
        | None => walk p parts (S index) rest' st current
        end
      else
        match findRef st part current with
        | Some child => walk p parts (S index) rest' st child
        | None =>
            let (st1, child) := alloc st (directoryObj parts part index) in
            walk p parts (S index) rest' (pushRef st1 current child) child
        end
  end.

(** One iteration of [files.forEach]: the walk of [p] from [root]. *)
Definition addPath (root : Ref) (st : Store) (p : string) : Store :=
  let parts := Str.split Str.slash p in
  fst (walk p parts 0 parts st root).

Definition rootObj : Obj := mkObj "Root" directory (Some []) "".

(** [root.children?.[0] || null] *)
Definition firstChild (st : Store) (root : Ref) : option Ref :=
  match childrenOf st root with
  | Some (c :: _) => Some c
  | _ => None
  end.

(** Lines 45-72 run in the store [st]: the store afterwards, and the
    reference handed to [setFileTree]. *)
Definition build (st : Store) (files : FileMap) : Store * option Ref :=
  let (st1, root) := alloc st rootObj in
  let st' := fold_left (addPath root) (keys files) st1 in
  (st', firstChild st' root).

(** A tree laid out in the store: every node with the reference of the
    object that holds it. *)
#[warnings="-register-all"]
Inductive Placed := place {
  at_ : Ref;
  placedName : string;
  placedType : NodeType;
  kids : option (list Placed);
  placedPath : string
}.

(** The tree, without the references. *)
Fixpoint erase (a : Placed) : FileNode :=
  mkFileNode (placedName a) (placedType a)
             (option_map (map erase) (kids a)) (placedPath a).

(** All nodes of a placed tree, the tree itself first. *)
Fixpoint subtrees (a : Placed) : list Placed :=
  a :: match kids a with
       | None => []
       | Some ks => flat_map subtrees ks
       end.

Definition refs (a : Placed) : list Ref := map at_ (subtrees a).

(** The object that holds the top node of [a]. *)
Definition cell (a : Placed) : Obj :=
  mkObj (placedName a) (placedType a) (option_map (map at_) (kids a))
        (placedPath a).

(** The store holds the placed tree [a]. *)
Definition holds (st : Store) (a : Placed) : Prop :=
  forall b, In b (subtrees a) -> deref st (at_ b) = Some (cell b).

(** The object graph at [r] is the tree [t], with no object at two
    places. *)
Definition represents (st : Store) (r : Ref) (t : FileNode) : Prop :=
  exists a, at_ a = r /\ erase a = t /\ holds st a /\ NoDup (refs a).

(** The same for a reference that may be [null]. *)
Definition representsOption (st : Store) (r : option Ref)
           (t : option FileNode) : Prop :=
  match r, t with
  | Some r, Some t => represents st r t
  | None, None => True
  | _, _ => False
  end.

(** [a] with another array of children. *)
Definition withKids (a : Placed) (ks : list Placed) : Placed :=
  place (at_ a) (placedName a) (placedType a) (Some ks) (placedPath a).

(** The placed tree [a] lies in the store [st], no object at two places. *)
Definition placedIn (st : Store) (a : Placed) : Prop :=
  holds st a /\ NoDup (refs a) /\
  forall r, In r (refs a) -> (r < List.length st)%nat.

(** From [st] holding [a] to [st'] holding [a'] at the same reference:
    the tree has grown by new objects only, and no object of [st] outside
    the tree has changed. *)
Definition evolves (st : Store) (a : Placed) (st' : Store) (a' : Placed)
  : Prop :=
  at_ a' = at_ a /\
  placedIn st' a' /\
  (forall r, In r (refs a') -> In r (refs a) \/ (List.length st <= r)%nat) /\
  (List.length st <= List.length st')%nat /\
  (forall r, (r < List.length st)%nat -> ~ In r (refs a) ->
             deref st' r = deref st r).

End Store.

(** ** Where a chain of segments leads *)

(** The first child named [part], with its index in the array: what
    [find] returns, and where it is. *)
Fixpoint findIndexed (part : string) (cs : list FileNode)
  : option (nat * FileNode) :=
  match cs with
  | [] => None
  | c :: cs' =>
      if String.eqb (name c) part then Some (O, c)
      else option_map (fun e => (S (fst e), snd e)) (findIndexed part cs')
  end.

(** The node that the descent of a walk along the segments [ds] reaches
    from [current], as the indices of the children it goes through.  A
    node keeps its indices for the whole build, since a [children] array
    only grows by [push]. *)
Fixpoint resolve (current : FileNode) (ds : list string) : option (list nat) :=
  match ds with
  | [] => Some []
  | d :: ds' =>
      match children current with
      | None => None
      | Some cs =>
          match findIndexed d cs with
          | Some (i, c) => option_map (cons i) (resolve c ds')
          | None => None
          end
      end
  end.

(** The node at the end of the indices [pos], from [current] down. *)
Fixpoint nodeAt (current : FileNode) (pos : list nat) : option FileNode :=
  match pos with
  | [] => Some current
  | i :: pos' =>
      match children current with
      | None => None
      | Some cs =>
          match nth_error cs i with
          | Some c => nodeAt c pos'
          | None => None
          end
      end
  end.

(** ** The statements of the specification *)

(** All keys start with the segment [s], and there is at least one. *)
Definition commonTop (s : string) (files : FileMap) : Prop :=
  files <> [] /\ forall p, In p (keys files) -> topSegment p = s.

(** The synthetic root has exactly one child, which is the displayed
    tree, and that tree has one File node per entry of the map. *)
Definition oneRootAllLeaves (files : FileMap) : Prop :=
  exists t, children (buildRoot files) = Some [t] /\
            buildTree files = Some t /\
            countFiles t = List.length files.

(** No node of the displayed tree has two children of one name. *)
Definition childNamesUnique (files : FileMap) : Prop :=
  forall t ch n cs,
    buildTree files = Some t -> In (ch, n) (located t) ->
    children n = Some cs -> NoDup (map name cs).

(** A [File] object to populate example maps with. *)
Definition someFile : File := mkFile "f" 0 "" 0.

(** The map whose keys are [ps], in that order. *)
Definition mapOf (ps : list string) : FileMap := map (fun p => (p, someFile)) ps.

(** ** The rendered tree, [renderFileTree] *)

(** The icons of lines 93-98 and 110. *)
Inductive Icon := ChevronDown | ChevronRight | FolderOpen | FileIcon.

(** The React elements that [renderFileTree] returns: a [<div>] with its
    [key] and [className], a [<Button>] with the path that its [onClick]
    passes to [handleFileSelect], its icons and its text, an array of
    elements given as a child, and the child that renders nothing
    ([undefined]). *)
#[warnings="-register-all"]
Inductive Element :=
| Div (key : option string) (className : string) (content : list Element)
| Button (onClick : string) (icons : list Icon) (label : string)
| Items (array : list Element)
| Nothing.

(** [node.children && node.children.length > 0 ? <ChevronDown/> :
     <ChevronRight/>] *)
Definition chevron (node : FileNode) : Icon :=
  match children node with
  | Some (_ :: _) => ChevronDown
  | _ => ChevronRight
  end.

(** [renderFileTree(node)], lines 83-116. *)
Fixpoint renderFileTree (node : FileNode) : Element :=
  Div (Some (path node)) "pl-4"
    [match type node with
     | directory =>
         Div None ""
           [Button (path node) [chevron node; FolderOpen] (name node);
            match children node with
            | Some cs => Items (map renderFileTree cs)
            | None => Nothing
            end]
     | file => Button (path node) [FileIcon] (name node)
     end].

(** A row of the rendered tree: a button, with the number of [pl-4]
    boxes around it. *)
Record Row := mkRow {
  rowDepth : nat;
  rowClick : string;
  rowIcons : list Icon;
  rowLabel : string
}.

(** The buttons of an element, from top to bottom. *)
Fixpoint rows (depth : nat) (e : Element) : list Row :=
  match e with
  | Div _ className content =>
      flat_map (rows (if String.eqb className "pl-4" then S depth else depth))
               content
  | Button onClick icons label => [mkRow depth onClick icons label]
  | Items array => flat_map (rows depth) array
  | Nothing => []
  end.

(** The arrays of elements inside an element, outermost first: the
    places where React asks for distinct keys. *)
Fixpoint arrays (e : Element) : list (list Element) :=
  match e with
  | Div _ _ content => flat_map arrays content
  | Button _ _ _ => []
  | Items array => array :: flat_map arrays array
  | Nothing => []
  end.

Definition keyOf (e : Element) : option string :=
  match e with
  | Div key _ _ => key
  | _ => None
  end.

(** The row that [renderFileTree] gives the node [n] met after the chain
    of names [ch]. *)
Definition rowOf (e : list string * FileNode) : Row :=
  mkRow (List.length (fst e)) (path (snd e))
        (match type (snd e) with
         | directory => [chevron (snd e); FolderOpen]
         | file => [FileIcon]
         end)
        (name (snd e)).

(** The row of [e], pushed [d] boxes to the right. *)
Definition shifted (d : nat) (e : list string * FileNode) : Row :=
  mkRow (d + rowDepth (rowOf e)) (rowClick (rowOf e)) (rowIcons (rowOf e))
        (rowLabel (rowOf e)).

(** ** The order of the children *)

(** The elements of a list, each once, in the order of first occurrence. *)
Definition firstSeen (l : list string) : list string :=
  fold_left (fun seen x => if existsb (String.eqb x) seen then seen
                           else seen ++ [x]) l [].

(** The segment of [parts] that follows the segments [ch], when [parts]
    starts with [ch] and goes on. *)
Fixpoint after (ch parts : list string) : option string :=
  match ch, parts with
  | [], x :: _ => Some x
  | c :: ch', x :: parts' => if String.eqb c x then after ch' parts' else None
  | _, [] => None
  end.

(** The segments that follow [ch] in the keys [ks], in the order of the
    keys. *)
Definition nextSegments (ch : list string) (ks : list string) : list string :=
  flat_map (fun k => match after ch (Str.split Str.slash k) with
                     | Some x => [x]
                     | None => []
                     end) ks.

(** The children of a node that sits at [ch] are named by the segments
    that follow [ch] in the keys, in first-seen order. *)
Definition ordered (ks : list string) (ch : list string) (n : FileNode) : Prop :=
  forall cs, children n = Some cs ->
             map name cs = firstSeen (nextSegments ch ks).

(** The hundredths that [toFixed(2)] prints for the quotient [n / d]. *)
Definition hundredths (n d : Z) : N :=
  Z.to_N ((200 * n + d) / (2 * d)).

(** * Properties *)

(** ** [split] and [join] *)

Module StrFacts.
Import Str.

Lemma append_assoc (a b c : string) :
  ((a ++ b) ++ c)%string = (a ++ (b ++ c))%string.
Proof. induction a as [|x a IH]; simpl; [reflexivity | now rewrite IH]. Qed.

Lemma append_empty_r (a : string) : (a ++ "")%string = a.
Proof. induction a as [|x a IH]; simpl; [reflexivity | now rewrite IH]. Qed.

Lemma length_append (a b : string) :
  String.length (a ++ b) = String.length a + String.length b.
Proof. induction a as [|x a IH]; simpl; [reflexivity | now rewrite IH]. Qed.

Lemma split_nonempty (sep : ascii) (s : string) : split sep s <> [].
Proof.
  destruct s as [|c s]; simpl; [discriminate|].
  destruct (Ascii.eqb c sep); [discriminate|].
  destruct (split sep s); discriminate.
Qed.

Lemma join_cons (sep : ascii) (x : string) (l : list string) :
  l <> [] -> join sep (x :: l) = (x ++ String sep (join sep l))%string.
Proof. destruct l; [congruence | reflexivity]. Qed.

Lemma join_split (sep : ascii) (s : string) : join sep (split sep s) = s.
Proof.
  induction s as [|c s IH]; [reflexivity|].
  simpl. destruct (Ascii.eqb c sep) eqn:E.
  - apply Ascii.eqb_eq in E; subst c.
    rewrite join_cons by apply split_nonempty.
    simpl. now rewrite IH.
  - pose proof (split_nonempty sep s) as Hne.
    destruct (split sep s) as [|x l]; [congruence|].
    destruct l as [|y l]; simpl in *; [now rewrite IH|].
    now rewrite <- IH.
Qed.

Lemma split_inj (sep : ascii) (s t : string) :
  split sep s = split sep t -> s = t.
Proof.
  intros H. rewrite <- (join_split sep s), <- (join_split sep t). now rewrite H.
Qed.

Lemma split_app (sep : ascii) (s t : string) :
  split sep (s ++ String sep t) = split sep s ++ split sep t.
Proof.
  induction s as [|c s IH]; simpl.
  - now rewrite Ascii.eqb_refl.
  - destruct (Ascii.eqb c sep); [now rewrite IH|].
    rewrite IH.
    pose proof (split_nonempty sep s) as Hne.
    destruct (split sep s); [congruence | reflexivity].
Qed.

Lemma join_app (sep : ascii) (a b : list string) :
  a <> [] -> b <> [] ->
  join sep (a ++ b) = (join sep a ++ String sep (join sep b))%string.
Proof.
  intros Ha Hb. induction a as [|x a IH]; [congruence|].
  destruct a as [|y a].
  - simpl app. now rewrite join_cons.
  - change ((x :: y :: a) ++ b) with (x :: ((y :: a) ++ b)).
    rewrite join_cons by discriminate.
    rewrite IH by discriminate.
    rewrite (join_cons sep x (y :: a)) by discriminate.
    now rewrite append_assoc.
Qed.

End StrFacts.

(** ** The builder: elementary facts *)

Section FindChild.

Lemma findChild_some (x : string) (cs : list FileNode) (c : FileNode) :
  findChild x cs = Some c ->
  name c = x /\
  exists l1 l2, cs = l1 ++ c :: l2 /\ ~ In x (map name l1) /\
    forall f, updateFound x f cs = l1 ++ f c :: l2.
Proof.
  unfold findChild. induction cs as [|d cs IH]; simpl; [discriminate|].
  destruct (String.eqb (name d) x) eqn:E.
  - intros [= ->]. apply String.eqb_eq in E. split; [exact E|].
    exists [], cs. simpl. auto.
  - intros H. destruct (IH H) as (Hn & l1 & l2 & -> & Hl1 & Hf).
    split; [exact Hn|]. exists (d :: l1), l2. simpl. repeat split.
    + apply String.eqb_neq in E. intros [G|G]; [congruence | auto].
    + intros f. now rewrite Hf.
Qed.

Lemma findChild_none (x : string) (cs : list FileNode) :
  findChild x cs = None -> ~ In x (map name cs).
Proof.
  unfold findChild. induction cs as [|d cs IH]; simpl; [tauto|].
  destruct (String.eqb (name d) x) eqn:E; [discriminate|].
  apply String.eqb_neq in E. intros H [G|G]; [congruence | now apply IH].
Qed.

Lemma findChild_first (x : string) (l1 l2 : list FileNode) (c : FileNode) :
  ~ In x (map name l1) -> name c = x -> findChild x (l1 ++ c :: l2) = Some c.
Proof.
  unfold findChild. induction l1 as [|d l1 IH]; simpl; intros Hn Hc.
  - rewrite <- Hc, String.eqb_refl. reflexivity.
  - destruct (String.eqb (name d) x) eqn:E.
    + apply String.eqb_eq in E. tauto.
    + apply IH; tauto.
Qed.

Lemma findChild_skip (x : string) (l1 l2 : list FileNode) (c d : FileNode) :
  name c = name d -> name d <> x ->
  findChild x (l1 ++ c :: l2) = findChild x (l1 ++ d :: l2).
Proof.
  unfold findChild. intros Hc Hd. induction l1 as [|e l1 IH]; simpl.
  - rewrite Hc. apply String.eqb_neq in Hd. now rewrite Hd.
  - now rewrite IH.
Qed.

Lemma findChild_app_some (x : string) (cs l : list FileNode) (c : FileNode) :
  findChild x cs = Some c -> findChild x (cs ++ l) = Some c.
Proof.
  unfold findChild. induction cs as [|d cs IH]; simpl; [discriminate|].
  destruct (String.eqb (name d) x); auto.
Qed.

Lemma findChild_app_none (x : string) (cs l : list FileNode) :
  findChild x cs = None -> findChild x (cs ++ l) = findChild x l.
Proof.
  unfold findChild. induction cs as [|d cs IH]; simpl; [reflexivity|].
  destruct (String.eqb (name d) x); [discriminate | auto].
Qed.

Lemma updateFound_ext (x : string) (f g : FileNode -> FileNode) cs :
  (forall c, f c = g c) -> updateFound x f cs = updateFound x g cs.
Proof.
  intros H. induction cs as [|c cs IH]; simpl; [reflexivity|].
  now rewrite H, IH.
Qed.

End FindChild.

Section InsertAt.

Variable p : string.

Lemma push_name current n : name (push current n) = name current.
Proof. unfold push. destruct (children current); reflexivity. Qed.

Lemma push_type current n : type (push current n) = type current.
Proof. unfold push. destruct (children current); reflexivity. Qed.

Lemma push_path current n : path (push current n) = path current.
Proof. unfold push. destruct (children current); reflexivity. Qed.

Lemma push_children current n :
  children (push current n) = option_map (fun cs => cs ++ [n]) (children current).
Proof.
  unfold push. destruct (children current) eqn:E; simpl; [reflexivity | exact E].
Qed.

Lemma insertAt_name rest : forall pre current,
  name (insertAt p pre rest current) = name current.
Proof.
  destruct rest as [|x [|y r]]; intros; simpl; auto using push_name.
  destruct (children current); [|reflexivity].
  destruct (findChild x l); reflexivity.
Qed.

Lemma insertAt_type rest : forall pre current,
  type (insertAt p pre rest current) = type current.
Proof.
  destruct rest as [|x [|y r]]; intros; simpl; auto using push_type.
  destruct (children current); [|reflexivity].
  destruct (findChild x l); reflexivity.
Qed.

Lemma insertAt_path rest : forall pre current,
  path (insertAt p pre rest current) = path current.
Proof.
  destruct rest as [|x [|y r]]; intros; simpl; auto using push_path.
  destruct (children current); [|reflexivity].
  destruct (findChild x l); reflexivity.
Qed.

Lemma insertAt_leaf rest : forall pre current,
  children current = None -> insertAt p pre rest current = current.
Proof.
  destruct rest as [|x [|y r]]; intros pre current H; simpl; auto.
  - unfold push. now rewrite H.
  - now rewrite H.
Qed.

(** The children of [current] after the walk, case by case. *)
Lemma insertAt_children rest pre current cs :
  children current = Some cs ->
  children (insertAt p pre rest current) =
  Some match rest with
       | [] => cs
       | [x] => cs ++ [newFile x p]
       | x :: rest' =>
           match findChild x cs with
           | Some _ => updateFound x (insertAt p (pre ++ [x]) rest') cs
           | None => cs ++ [insertAt p (pre ++ [x]) rest'
                              (mkFileNode x directory (Some [])
                                 (Str.join Str.slash (pre ++ [x])))]
           end
       end.
Proof.
  intros H. destruct rest as [|x [|y r]]; simpl; auto.
  - now rewrite push_children, H.
  - rewrite H. destruct (findChild x cs); reflexivity.
Qed.

Lemma walk_insertAt rest : forall pre current,
  walk p (pre ++ rest) (List.length pre) rest current = insertAt p pre rest current.
Proof.
  induction rest as [|x rest IH]; intros pre current; [reflexivity|].
  assert (Hparts : pre ++ x :: rest = (pre ++ [x]) ++ rest)
    by now rewrite <- app_assoc.
  assert (Hlen : S (List.length pre) = List.length (pre ++ [x]))
    by (rewrite length_app; simpl; lia).
  cbn [walk insertAt].
  destruct rest as [|y r].
  - replace (List.length pre =? List.length (pre ++ [x]) - 1)%nat with true
      by (symmetry; apply Nat.eqb_eq; rewrite length_app; simpl; lia).
    reflexivity.
  - replace (List.length pre =? List.length (pre ++ x :: y :: r) - 1)%nat with false
      by (symmetry; apply Nat.eqb_neq; rewrite length_app; simpl; lia).
    destruct (children current) as [cs|]; [|reflexivity].
    assert (Hf : forall c, walk p (pre ++ x :: y :: r) (S (List.length pre)) (y :: r) c
                           = insertAt p (pre ++ [x]) (y :: r) c).
    { intros c. rewrite Hparts, Hlen. apply IH. }
    destruct (findChild x cs).
    + f_equal. f_equal. apply updateFound_ext, Hf.
    + rewrite Hf. unfold newDirectory, Str.slice0.
      replace (List.length pre + 1) with (List.length (pre ++ [x]))
        by (rewrite length_app; simpl; lia).
      rewrite Hparts, firstn_app, Nat.sub_diag, firstn_all. simpl.
      now rewrite app_nil_r.
Qed.

End InsertAt.

Lemma addPath_insertAt (root : FileNode) (p : string) :
  addPath root p = insertAt p [] (Str.split Str.slash p) root.
Proof. unfold addPath. apply (walk_insertAt p _ [] root). Qed.

(** ** Nodes and their name chains *)

Section Located.

Lemma located_eq (n : FileNode) :
  located n =
  ([name n], n) ::
  map (under (name n))
      (match children n with
       | None => []
       | Some cs => flat_map located cs
       end).
Proof. destruct n; reflexivity. Qed.

Lemma in_located (n m : FileNode) (ch : list string) :
  In (ch, m) (located n) <->
  (ch = [name n] /\ m = n) \/
  (exists cs c ch', children n = Some cs /\ In c cs /\
                    In (ch', m) (located c) /\ ch = name n :: ch').
Proof.
  rewrite located_eq. simpl. split.
  - intros [H|H]; [left; inversion H; auto|right].
    apply in_map_iff in H. destruct H as ([ch' m'] & He & Hin).
    unfold under in He. simpl in He. inversion He; subst.
    destruct (children n) as [cs|]; [|destruct Hin].
    apply in_flat_map in Hin. destruct Hin as (c & Hc & Hin).
    exists cs, c, ch'. auto.
  - intros [[-> ->]|(cs & c & ch' & Hcs & Hc & Hin & ->)]; [now left|right].
    apply in_map_iff. exists (ch', m). split; [reflexivity|].
    rewrite Hcs. apply in_flat_map. eauto.
Qed.

Lemma located_self (n : FileNode) : In ([name n], n) (located n).
Proof. apply in_located. now left. Qed.

Lemma located_child (n c m : FileNode) cs ch :
  children n = Some cs -> In c cs -> In (ch, m) (located c) ->
  In (name n :: ch, m) (located n).
Proof. intros. apply in_located. right. exists cs, c, ch. auto. Qed.

Lemma located_head (n m : FileNode) ch :
  In (ch, m) (located n) -> exists t, ch = name n :: t.
Proof.
  intros H. apply in_located in H.
  destruct H as [[-> _]|(cs & c & ch' & _ & _ & _ & ->)]; eauto.
Qed.

Lemma located_leaf (n : FileNode) :
  children n = None -> located n = [([name n], n)].
Proof. intros H. rewrite located_eq, H. reflexivity. Qed.

Variable P : list string -> FileNode -> Prop.

Lemma EveryAt_node (pre : list string) (n : FileNode) :
  EveryAt P pre n <->
  P (pre ++ [name n]) n /\
  forall cs c, children n = Some cs -> In c cs -> EveryAt P (pre ++ [name n]) c.
Proof.
  unfold EveryAt. split.
  - intros H. split; [apply H, located_self|].
    intros cs c Hcs Hc ch m Hin. rewrite <- app_assoc. simpl.
    eapply H, located_child; eauto.
  - intros [H0 H] ch m Hin. apply in_located in Hin.
    destruct Hin as [[-> ->]|(cs & c & ch' & Hcs & Hc & Hin & ->)]; [exact H0|].
    specialize (H cs c Hcs Hc ch' m Hin). now rewrite <- app_assoc in H.
Qed.

End Located.

(** Induction on a tree, with the hypothesis for all its children. *)
Lemma FileNode_children_ind (P : FileNode -> Prop) :
  (forall n, (forall cs c, children n = Some cs -> In c cs -> P c) -> P n) ->
  forall n, P n.
Proof.
  intros H.
  fix F 1. intros [nm ty ch pa]. apply H. simpl.
  destruct ch as [cs|]; [|discriminate].
  assert (Hall : forall c, In c cs -> P c).
  { clear H. induction cs as [|d cs IH]; intros c Hc; [destruct Hc|].
    destruct Hc as [Hc|Hc]; [rewrite <- Hc; apply F | now apply IH]. }
  intros cs' c Hcs. injection Hcs as <-. apply Hall.
Qed.

(** ** Invariants that do not look at the names of the children *)

Section Stable.

Variable P : list string -> FileNode -> Prop.
Variable p : string.
Hypothesis P_stable : stable P.
Hypothesis P_file : forall x, P (Str.split Str.slash p) (newFile x p).
Hypothesis P_directory : forall pre x y rest,
  Str.split Str.slash p = pre ++ x :: y :: rest ->
  P (pre ++ [x]) (mkFileNode x directory (Some [])
                             (Str.join Str.slash (pre ++ [x]))).

Lemma insertAt_stable_same rest pre c ch :
  P ch c -> P ch (insertAt p pre rest c).
Proof.
  apply P_stable.
  - now rewrite insertAt_name.
  - now rewrite insertAt_type.
  - now rewrite insertAt_path.
  - destruct (children c) as [cs|] eqn:E.
    + rewrite (insertAt_children p rest pre c cs E). split; discriminate.
    + rewrite insertAt_leaf by exact E. now rewrite E.
Qed.

Lemma insertAt_Below rest : forall pre current,
  Str.split Str.slash p = pre ++ rest ->
  Below P pre current -> Below P pre (insertAt p pre rest current).
Proof.
  induction rest as [|x rest IH]; intros pre current Hp HB; [exact HB|].
  destruct (children current) as [cs|] eqn:Hcs;
    [|now rewrite insertAt_leaf by exact Hcs].
  intros cs' c Hcs' Hc.
  rewrite (insertAt_children p _ pre current cs Hcs) in Hcs'.
  injection Hcs' as <-.
  assert (Hnew : forall n, name n = x -> P (pre ++ [x]) n ->
                           Below P (pre ++ [x]) n ->
                           EveryAt P pre (insertAt p (pre ++ [x]) rest n)).
  { intros n Hn HPn HBn. apply EveryAt_node.
    rewrite insertAt_name, Hn. split.
    - now apply insertAt_stable_same.
    - apply IH; [now rewrite <- app_assoc | exact HBn]. }
  destruct rest as [|y r].
  - apply in_app_iff in Hc. destruct Hc as [Hc|[<-|[]]]; [now apply (HB cs)|].
    intros ch m Hin. rewrite located_leaf in Hin by reflexivity.
    destruct Hin as [[= <- <-]|[]]. simpl. rewrite <- Hp. apply P_file.
  - destruct (findChild x cs) as [d|] eqn:Hf.
    + destruct (findChild_some _ _ _ Hf) as (Hd & l1 & l2 & -> & _ & Hu).
      rewrite Hu in Hc. apply in_app_iff in Hc.
      assert (HBd : EveryAt P pre d) by (apply (HB _ d Hcs), in_elt).
      destruct Hc as [Hc|[<-|Hc]].
      * apply (HB _ c Hcs), in_app_iff. now left.
      * apply EveryAt_node in HBd. rewrite Hd in HBd. now apply Hnew.
      * apply (HB _ c Hcs), in_app_iff. right. now right.
    + apply in_app_iff in Hc. destruct Hc as [Hc|[<-|[]]]; [now apply (HB cs)|].
      apply Hnew; [reflexivity | eapply P_directory; eauto |].
      intros ? ? [= <-] [].
Qed.

End Stable.

(** ** What the nodes of a built tree owe to the keys *)

Section Sound.

Lemma sound_stable ks : stable (sound ks).
Proof.
  intros ch n m Hn Ht Hp Hc [Hw Hk]. split.
  - unfold wellTyped in *. rewrite <- Ht.
    destruct (type n), (children n), (children m); auto;
      destruct Hc as [H1 H2]; try discriminate (H1 eq_refl);
      try discriminate (H2 eq_refl).
  - unfold fromKeys in *. now rewrite <- Ht, <- Hp.
Qed.

Lemma sound_mono ks ks' ch n : incl ks ks' -> sound ks ch n -> sound ks' ch n.
Proof.
  intros Hi [Hw Hk]. split; [exact Hw|].
  unfold fromKeys in *. destruct (type n).
  - destruct Hk. auto.
  - destruct Hk as (Hp & k & more & Hk & Hm & Hs). split; [exact Hp|].
    exists k, more. auto.
Qed.

Lemma Below_sound_mono ks ks' pre n :
  incl ks ks' -> Below (sound ks) pre n -> Below (sound ks') pre n.
Proof.
  intros Hi HB cs c Hcs Hc ch m Hin.
  eapply sound_mono; [exact Hi|]. eapply HB; eauto.
Qed.

Lemma insertAt_sound ks p rest pre current :
  In p ks -> Str.split Str.slash p = pre ++ rest ->
  Below (sound ks) pre current ->
  Below (sound ks) pre (insertAt p pre rest current).
Proof.
  intros Hin Hp. apply insertAt_Below; auto using sound_stable.
  - intros x. split; [exact I|]. split; [exact Hin | reflexivity].
  - intros pre' x y r Hs. split; [exact I|].
    split; [reflexivity|]. exists p, (y :: r). repeat split; auto.
    + discriminate.
    + now rewrite <- app_assoc.
Qed.

Lemma buildFrom_app root ks p :
  buildFrom root (ks ++ [p]) =
  insertAt p [] (Str.split Str.slash p) (buildFrom root ks).
Proof.
  unfold buildFrom. rewrite fold_left_app. simpl. apply addPath_insertAt.
Qed.

Lemma buildFrom_sound ks : Below (sound ks) [] (buildFrom emptyRoot ks).
Proof.
  induction ks as [|p ks IH] using rev_ind.
  - intros cs c [= <-] [].
  - rewrite buildFrom_app. apply insertAt_sound.
    + apply in_app_iff. right. now left.
    + reflexivity.
    + eapply Below_sound_mono; [|exact IH]. now apply incl_appl.
Qed.

Lemma buildFrom_children ks root cs :
  children root = Some cs ->
  exists cs', children (buildFrom root ks) = Some cs' /\
              (List.length cs <= List.length cs')%nat /\ (ks <> [] -> cs' <> []).
Proof.
  intros Hcs. induction ks as [|p ks IH] using rev_ind.
  - exists cs. auto.
  - destruct IH as (cs1 & H1 & Hl & _).
    rewrite buildFrom_app, (insertAt_children _ _ _ _ _ H1).
    eexists. split; [reflexivity|].
    pose proof (StrFacts.split_nonempty Str.slash p) as Hne.
    destruct (Str.split Str.slash p) as [|x [|y r]]; [congruence| |].
    + rewrite length_app. simpl. split; [lia|]. intros _. now destruct cs1.
    + destruct (findChild x cs1) as [d|] eqn:Hf.
      * destruct (findChild_some _ _ _ Hf) as (_ & l1 & l2 & -> & _ & Hu).
        rewrite Hu. rewrite !length_app in *. simpl in *.
        split; [lia|]. intros _. now destruct l1.
      * rewrite length_app. simpl. split; [lia|]. intros _. now destruct cs1.
Qed.

Lemma buildRoot_buildFrom files : buildRoot files = buildFrom emptyRoot (keys files).
Proof. reflexivity. Qed.

Lemma buildTree_in_root files t :
  buildTree files = Some t ->
  exists cs, children (buildRoot files) = Some (t :: cs).
Proof.
  unfold buildTree, firstChild.
  destruct (children (buildRoot files)) as [[|c cs]|]; try discriminate.
  intros [= ->]. eauto.
Qed.

Lemma buildTree_sound files t :
  buildTree files = Some t -> EveryAt (sound (keys files)) [] t.
Proof.
  intros H. destruct (buildTree_in_root _ _ H) as (cs & Hcs).
  eapply (buildFrom_sound (keys files)); [exact Hcs | now left].
Qed.

End Sound.

(** ** Counting File nodes, listing Directory chains *)

Section Projections.

Variable q : FileNode -> bool.

Lemma filter_under (x : string) (l : list (list string * FileNode)) :
  filter (fun e => q (snd e)) (map (under x) l) =
  map (under x) (filter (fun e => q (snd e)) l).
Proof.
  induction l as [|e l IH]; simpl; [reflexivity|].
  destruct (q (snd e)); simpl; now rewrite IH.
Qed.

Lemma filter_flat_located (cs : list FileNode) :
  filter (fun e => q (snd e)) (flat_map located cs) =
  flat_map (fun c => filter (fun e => q (snd e)) (located c)) cs.
Proof.
  induction cs as [|c cs IH]; simpl; [reflexivity|].
  now rewrite filter_app, IH.
Qed.

End Projections.

Lemma countFiles_node (n : FileNode) :
  countFiles n =
  ((if isFile n then 1 else 0) +
   match children n with
   | None => 0
   | Some cs => list_sum (map countFiles cs)
   end)%nat.
Proof.
  assert (H : List.length
                (filter (fun e => isFile (snd e))
                   (map (under (name n))
                   match children n with
                   | Some cs => flat_map located cs
                   | None => []
                   end)) =
              match children n with
              | None => 0
              | Some cs => list_sum (map countFiles cs)
              end).
  { rewrite (filter_under isFile), length_map.
    destruct (children n) as [cs|]; [|reflexivity].
    rewrite (filter_flat_located isFile).
    induction cs as [|c cs IH]; simpl; [reflexivity|].
    rewrite length_app, IH. reflexivity. }
  unfold countFiles at 1. rewrite located_eq. cbn [filter snd].
  destruct (isFile n); simpl; now rewrite H.
Qed.

Lemma directoryChains_node (n : FileNode) :
  directoryChains n =
  (if isDirectory n then [[name n]] else []) ++
  map (cons (name n))
      match children n with
      | None => []
      | Some cs => flat_map directoryChains cs
      end.
Proof.
  assert (H : map fst
                (filter (fun e => isDirectory (snd e))
                   (map (under (name n))
                      match children n with
                      | Some cs => flat_map located cs
                      | None => []
                      end)) =
              map (cons (name n))
                match children n with
                | None => []
                | Some cs => flat_map directoryChains cs
                end).
  { rewrite (filter_under isDirectory), map_map.
    change (fun x : list string * FileNode => fst (under (name n) x))
      with (fun x : list string * FileNode => name n :: fst x).
    rewrite <- (map_map fst (cons (name n))). f_equal.
    destruct (children n) as [cs|]; [|reflexivity].
    rewrite (filter_flat_located isDirectory).
    induction cs as [|c cs IH]; simpl; [reflexivity|].
    now rewrite map_app, IH. }
  unfold directoryChains at 1. rewrite located_eq. cbn [filter snd].
  destruct (isDirectory n); simpl; now rewrite H.
Qed.

Lemma Every_node (P : FileNode -> Prop) (n : FileNode) :
  Every P n <->
  P n /\ forall cs c, children n = Some cs -> In c cs -> Every P c.
Proof. apply (EveryAt_node (fun _ => P) [] n). Qed.

Lemma Every_leaf (P : FileNode -> Prop) (n : FileNode) :
  children n = None -> P n -> Every P n.
Proof.
  intros Hc Hn. apply Every_node. split; [exact Hn|]. congruence.
Qed.

(** ** Directories are matched by name: no second one of a name *)

Section Directories.

#[local] Opaque insertAt.

Lemma filter_isDirectory_update (f : FileNode -> FileNode) l1 c l2 :
  type (f c) = type c -> name (f c) = name c ->
  map name (filter isDirectory (l1 ++ f c :: l2)) =
  map name (filter isDirectory (l1 ++ c :: l2)).
Proof.
  intros Ht Hn. rewrite !filter_app, !map_app. f_equal. simpl.
  assert (Hd : isDirectory (f c) = isDirectory c)
    by (unfold isDirectory; now rewrite Ht).
  rewrite Hd. destruct (isDirectory c); simpl; now rewrite ?Hn.
Qed.

Lemma insertAt_directoriesDistinct p rest : forall pre current,
  Every directoriesDistinct current ->
  Every directoriesDistinct (insertAt p pre rest current).
Proof.
  induction rest as [|x rest IH]; intros pre current HE; [exact HE|].
  destruct (children current) as [cs|] eqn:Hcs;
    [|now rewrite insertAt_leaf by exact Hcs].
  apply Every_node in HE. destruct HE as [Hd HE].
  specialize (Hd cs Hcs). pose proof (fun c => HE cs c Hcs) as HC. clear HE.
  apply Every_node.
  rewrite (insertAt_children p _ pre current cs Hcs).
  unfold directoriesDistinct at 1.
  rewrite (insertAt_children p _ pre current cs Hcs).
  destruct rest as [|y r].
  - split.
    + intros ? [= <-]. rewrite filter_app. simpl. now rewrite app_nil_r.
    + intros ? c [= <-] Hc. apply in_app_iff in Hc.
      destruct Hc as [Hc|[<-|[]]]; [now apply HC|].
      apply Every_leaf; [reflexivity | intros ?; discriminate].
  - destruct (findChild x cs) as [d|] eqn:Hf.
    + destruct (findChild_some _ _ _ Hf) as (Hdn & l1 & l2 & -> & _ & Hu).
      rewrite Hu. split.
      * intros ? [= <-].
        rewrite filter_isDirectory_update;
          auto using insertAt_type, insertAt_name.
      * intros ? c [= <-] Hc. apply in_app_iff in Hc.
        destruct Hc as [Hc|[<-|Hc]].
        -- apply HC. apply in_app_iff. now left.
        -- apply IH, HC, in_elt.
        -- apply HC. apply in_app_iff. right. now right.
    + split.
      * intros ? [= <-]. rewrite filter_app, map_app. simpl.
        unfold isDirectory at 2. rewrite insertAt_type. simpl.
        rewrite insertAt_name. simpl.
        apply NoDup_app; [exact Hd | repeat constructor; intros [] |].
        intros a Ha [<-|[]]. apply (findChild_none _ _ Hf).
        apply in_map_iff in Ha. destruct Ha as (c & <- & Hc).
        apply filter_In in Hc. apply in_map. tauto.
      * intros ? c [= <-] Hc. apply in_app_iff in Hc.
        destruct Hc as [Hc|[<-|[]]]; [now apply HC|].
        apply IH, Every_node. split.
        -- intros ? [= <-]. constructor.
        -- intros ? ? [= <-] [].
Qed.

Lemma buildFrom_directoriesDistinct ks :
  Every directoriesDistinct (buildFrom emptyRoot ks).
Proof.
  induction ks as [|p ks IH] using rev_ind.
  - apply Every_node. split.
    + intros ? [= <-]. constructor.
    + intros ? ? [= <-] [].
  - rewrite buildFrom_app. now apply insertAt_directoriesDistinct.
Qed.

End Directories.

(** ** One Directory node per chain of names *)

Section Chains.

Lemma directoryChains_head (c : FileNode) (ch : list string) :
  In ch (directoryChains c) -> exists t, ch = name c :: t.
Proof.
  unfold directoryChains. intros H. apply in_map_iff in H.
  destruct H as ([ch' m] & <- & H). apply filter_In in H.
  destruct H as [H _]. now apply located_head in H.
Qed.

Lemma directoryChains_directory (c : FileNode) (ch : list string) :
  wellTyped c -> In ch (directoryChains c) -> isDirectory c = true.
Proof.
  unfold wellTyped, isDirectory. intros Hw H.
  destruct (type c) eqn:Ht; [|reflexivity].
  destruct (children c) eqn:Hc; [destruct Hw|].
  unfold directoryChains in H. rewrite located_leaf in H by exact Hc.
  simpl in H. unfold isDirectory in H. rewrite Ht in H. destruct H.
Qed.

Lemma NoDup_map_cons (x : string) (l : list (list string)) :
  NoDup l -> NoDup (map (cons x) l).
Proof.
  induction 1 as [|a l Ha Hl IH]; simpl; constructor; [|exact IH].
  intros H. apply in_map_iff in H. destruct H as (b & [= ->] & Hb). auto.
Qed.

Lemma directoryChains_forest (cs : list FileNode) :
  (forall c, In c cs -> NoDup (directoryChains c)) ->
  (forall c, In c cs -> wellTyped c) ->
  NoDup (map name (filter isDirectory cs)) ->
  NoDup (flat_map directoryChains cs).
Proof.
  induction cs as [|c cs IH]; intros Hn Hw Hd; simpl; [constructor|].
  assert (Hd' : NoDup (map name (filter isDirectory cs))).
  { simpl in Hd. destruct (isDirectory c); [now inversion Hd | exact Hd]. }
  apply NoDup_app.
  - apply Hn. now left.
  - apply IH; [intros; apply Hn; now right | intros; apply Hw; now right | exact Hd'].
  - intros ch Hc Hin. apply in_flat_map in Hin. destruct Hin as (d & Hd1 & Hd2).
    destruct (directoryChains_head _ _ Hc) as (t & ->).
    destruct (directoryChains_head _ _ Hd2) as (t' & [= Hname _]).
    assert (Hcd : isDirectory c = true)
      by (eapply directoryChains_directory; eauto; apply Hw; now left).
    assert (Hdd : isDirectory d = true)
      by (eapply directoryChains_directory; eauto; apply Hw; now right).
    simpl in Hd. rewrite Hcd in Hd. simpl in Hd. inversion Hd as [|? ? Hnot _].
    apply Hnot. rewrite Hname. apply in_map, filter_In. auto.
Qed.

Lemma directoryChains_NoDup (n : FileNode) :
  Every wellTyped n -> Every directoriesDistinct n ->
  NoDup (directoryChains n).
Proof.
  induction n as [n IH] using FileNode_children_ind. intros Hw Hd.
  apply Every_node in Hw. destruct Hw as [_ Hw].
  apply Every_node in Hd. destruct Hd as [Hd0 Hd].
  rewrite directoryChains_node.
  destruct (children n) as [cs|] eqn:Hcs.
  - apply NoDup_app.
    + destruct (isDirectory n); repeat constructor. intros [].
    + apply NoDup_map_cons, directoryChains_forest.
      * intros c Hc. apply (IH cs c eq_refl Hc); eauto.
      * intros c Hc. specialize (Hw cs c eq_refl Hc).
        apply Every_node in Hw. tauto.
      * now apply Hd0.
    + intros ch Hch Hin. destruct (isDirectory n); [|destruct Hch].
      destruct Hch as [<-|[]]. apply in_map_iff in Hin.
      destruct Hin as (t & [= ->] & Hin). apply in_flat_map in Hin.
      destruct Hin as (c & _ & Hin).
      apply directoryChains_head in Hin. destruct Hin as (? & [=]).
  - simpl. rewrite app_nil_r. destruct (isDirectory n); repeat constructor.
    intros [].
Qed.

Lemma buildFrom_wellTyped ks : Every wellTyped (buildFrom emptyRoot ks).
Proof.
  apply Every_node. split.
  - destruct (buildFrom_children ks emptyRoot [] eq_refl) as (cs & Hcs & _).
    unfold wellTyped, buildFrom.
    assert (Ht : forall ks root, type (fold_left addPath ks root) = type root).
    { clear. induction ks as [|p ks IH]; intros root; [reflexivity|].
      simpl. rewrite IH, addPath_insertAt. apply insertAt_type. }
    unfold buildFrom in Hcs. now rewrite Ht, Hcs.
  - intros cs c Hcs Hc ch m Hin.
    apply (buildFrom_sound ks cs c Hcs Hc ch m Hin).
Qed.

End Chains.

(** ** Walks of a path that no earlier path shadows or duplicates *)

Lemma slashPrefix_split (p q : string) :
  slashPrefix p q <->
  exists more, more <> [] /\
               Str.split Str.slash q = Str.split Str.slash p ++ more.
Proof.
  split.
  - intros (m & ->). exists (Str.split Str.slash m).
    split; [apply StrFacts.split_nonempty | apply StrFacts.split_app].
  - intros (more & Hne & Hs). exists (Str.join Str.slash more).
    rewrite <- (StrFacts.join_split Str.slash q), Hs.
    rewrite StrFacts.join_app; auto using StrFacts.split_nonempty.
    now rewrite StrFacts.join_split.
Qed.

Section Fresh.

#[local] Opaque insertAt.

Variable ks : list string.
Variable p : string.
Hypothesis p_new : ~ In p ks.
Hypothesis p_not_above : forall k, In k ks -> ~ slashPrefix p k.
Hypothesis p_not_below : forall k, In k ks -> ~ slashPrefix k p.

(** The child the walk descends into has a [children] array. *)
Lemma fresh_descend pre x y r current cs c :
  Str.split Str.slash p = pre ++ x :: y :: r ->
  Below (sound ks) pre current ->
  children current = Some cs -> findChild x cs = Some c ->
  exists cs', children c = Some cs'.
Proof.
  intros Hp HB Hcs Hf.
  destruct (findChild_some _ _ _ Hf) as (Hx & l1 & l2 & -> & _).
  destruct (children c) as [cs'|] eqn:Hc; [eauto|exfalso].
  assert (Hs : sound ks (pre ++ [x]) c).
  { rewrite <- Hx. apply (HB _ c Hcs (in_elt _ _ _) [name c] c), located_self. }
  destruct Hs as [Hw Hk]. unfold wellTyped, fromKeys in *. rewrite Hc in Hw.
  destruct (type c); [|destruct Hw]. destruct Hk as [Hin Hsp].
  apply (p_not_below _ Hin), slashPrefix_split.
  exists (y :: r). split; [discriminate|].
  now rewrite Hsp, <- app_assoc.
Qed.

(** The name of the file pushed at the end is not taken yet. *)
Lemma fresh_push pre x current cs :
  Str.split Str.slash p = pre ++ [x] ->
  Below (sound ks) pre current ->
  children current = Some cs ->
  ~ In x (map name cs).
Proof.
  intros Hp HB Hcs Hin. apply in_map_iff in Hin. destruct Hin as (c & Hx & Hc).
  assert (Hs : sound ks (pre ++ [x]) c).
  { rewrite <- Hx. apply (HB _ c Hcs Hc [name c] c), located_self. }
  destruct Hs as [_ Hk]. unfold fromKeys in Hk. destruct (type c).
  - destruct Hk as [Hin Hsp]. apply p_new.
    rewrite <- Hp in Hsp. apply StrFacts.split_inj in Hsp. now subst.
  - destruct Hk as (_ & k & more & Hin & Hne & Hsp).
    apply (p_not_above _ Hin), slashPrefix_split.
    exists more. split; [exact Hne|]. now rewrite Hp.
Qed.

Lemma Below_child pre x current cs c :
  Below (sound ks) pre current -> children current = Some cs -> In c cs ->
  name c = x -> Below (sound ks) (pre ++ [x]) c.
Proof.
  intros HB Hcs Hc <-. specialize (HB cs c Hcs Hc).
  apply EveryAt_node in HB. exact (proj2 HB).
Qed.

Lemma insertAt_namesDistinct rest : forall pre current,
  Str.split Str.slash p = pre ++ rest ->
  Below (sound ks) pre current ->
  Every namesDistinct current ->
  Every namesDistinct (insertAt p pre rest current).
Proof.
  induction rest as [|x rest IH]; intros pre current Hp HB HE; [exact HE|].
  destruct (children current) as [cs|] eqn:Hcs;
    [|now rewrite insertAt_leaf by exact Hcs].
  apply Every_node in HE. destruct HE as [Hd HE].
  specialize (Hd cs Hcs). pose proof (fun c => HE cs c Hcs) as HC. clear HE.
  apply Every_node.
  unfold namesDistinct at 1.
  rewrite (insertAt_children p _ pre current cs Hcs).
  assert (Hleaf : forall n, children n = None -> Every namesDistinct n).
  { intros n Hn. apply Every_leaf; [exact Hn|]. intros ?. congruence. }
  destruct rest as [|y r].
  - split.
    + intros ? [= <-]. rewrite map_app. simpl.
      apply NoDup_app; [exact Hd | repeat constructor; intros [] |].
      intros a Ha [<-|[]]. eapply fresh_push; eauto.
    + intros ? c [= <-] Hc. apply in_app_iff in Hc.
      destruct Hc as [Hc|[<-|[]]]; [now apply HC | now apply Hleaf].
  - assert (Hp' : Str.split Str.slash p = (pre ++ [x]) ++ y :: r)
      by now rewrite <- app_assoc.
    destruct (findChild x cs) as [d|] eqn:Hf.
    + destruct (findChild_some _ _ _ Hf) as (Hdn & l1 & l2 & -> & _ & Hu).
      rewrite Hu. split.
      * intros ? [= <-]. rewrite map_app in *. simpl.
        now rewrite insertAt_name.
      * intros ? c [= <-] Hc. apply in_app_iff in Hc.
        destruct Hc as [Hc|[<-|Hc]].
        -- apply HC, in_app_iff. now left.
        -- apply IH; [exact Hp' | | apply HC, in_elt].
           eapply Below_child; eauto using in_elt.
        -- apply HC, in_app_iff. right. now right.
    + split.
      * intros ? [= <-]. rewrite map_app. simpl. rewrite insertAt_name. simpl.
        apply NoDup_app; [exact Hd | repeat constructor; intros [] |].
        intros a Ha [<-|[]]. now apply (findChild_none _ _ Hf).
      * intros ? c [= <-] Hc. apply in_app_iff in Hc.
        destruct Hc as [Hc|[<-|[]]]; [now apply HC|].
        apply IH; [exact Hp' | intros ? ? [= <-] [] |].
        apply Every_node. split.
        -- intros ? [= <-]. constructor.
        -- intros ? ? [= <-] [].
Qed.

Lemma list_sum_update (f : FileNode -> FileNode) l1 d l2 :
  countFiles (f d) = S (countFiles d) ->
  list_sum (map countFiles (l1 ++ f d :: l2)) =
  S (list_sum (map countFiles (l1 ++ d :: l2))).
Proof.
  intros H. rewrite !map_app, !list_sum_app. simpl. rewrite H. lia.
Qed.

Lemma insertAt_countFiles rest : forall pre current cs,
  rest <> [] ->
  Str.split Str.slash p = pre ++ rest ->
  Below (sound ks) pre current ->
  children current = Some cs ->
  countFiles (insertAt p pre rest current) = S (countFiles current).
Proof.
  induction rest as [|x rest IH]; intros pre current cs Hne Hp HB Hcs;
    [congruence|].
  rewrite (countFiles_node (insertAt _ _ _ _)), (countFiles_node current).
  unfold isFile. rewrite insertAt_type.
  rewrite (insertAt_children p _ pre current cs Hcs), Hcs.
  rewrite plus_n_Sm. f_equal.
  destruct rest as [|y r].
  - rewrite map_app, list_sum_app.
    change (map countFiles [newFile x p]) with [1]. simpl. lia.
  - assert (Hp' : Str.split Str.slash p = (pre ++ [x]) ++ y :: r)
      by now rewrite <- app_assoc.
    destruct (findChild x cs) as [d|] eqn:Hf.
    + destruct (fresh_descend _ _ _ _ _ _ _ Hp HB Hcs Hf) as (cs' & Hd).
      destruct (findChild_some _ _ _ Hf) as (Hdn & l1 & l2 & -> & _ & Hu).
      rewrite Hu. apply list_sum_update.
      apply (IH _ _ cs'); [discriminate | exact Hp' | | exact Hd].
      eapply Below_child; eauto using in_elt.
    + rewrite map_app, list_sum_app. cbn [map list_sum].
      erewrite IH; [|discriminate | exact Hp' | intros ? ? [= <-] [] | reflexivity].
      rewrite countFiles_node. simpl. lia.
Qed.

End Fresh.

(** ** The whole build, for keys that are unique and prefix-free *)

Section PrefixFreeBuild.

Lemma prefixFree_snoc ks p :
  prefixFree (ks ++ [p]) ->
  prefixFree ks /\
  (forall k, In k ks -> ~ slashPrefix p k) /\
  (forall k, In k ks -> ~ slashPrefix k p).
Proof.
  intros H. repeat split.
  - intros a b Ha Hb. apply H; apply in_app_iff; now left.
  - intros k Hk. apply H; apply in_app_iff; [right|left]; simpl; auto.
  - intros k Hk. apply H; apply in_app_iff; [left|right]; simpl; auto.
Qed.

Lemma NoDup_snoc (ks : list string) (p : string) :
  NoDup (ks ++ [p]) -> NoDup ks /\ ~ In p ks.
Proof.
  intros H. apply NoDup_remove in H. now rewrite app_nil_r in H.
Qed.

Lemma emptyRoot_namesDistinct : Every namesDistinct emptyRoot.
Proof.
  apply Every_node. split.
  - intros ? [= <-]. constructor.
  - intros ? ? [= <-] [].
Qed.

Lemma buildFrom_namesDistinct ks :
  NoDup ks -> prefixFree ks -> Every namesDistinct (buildFrom emptyRoot ks).
Proof.
  induction ks as [|p ks IH] using rev_ind; intros Hn Hp;
    [apply emptyRoot_namesDistinct|].
  apply NoDup_snoc in Hn. destruct Hn as [Hn Hnew].
  apply prefixFree_snoc in Hp. destruct Hp as (Hp & Ha & Hb).
  rewrite buildFrom_app.
  apply (insertAt_namesDistinct ks); auto using buildFrom_sound.
Qed.

Lemma buildFrom_countFiles ks :
  NoDup ks -> prefixFree ks ->
  countFiles (buildFrom emptyRoot ks) = List.length ks.
Proof.
  induction ks as [|p ks IH] using rev_ind; intros Hn Hp; [reflexivity|].
  apply NoDup_snoc in Hn. destruct Hn as [Hn Hnew].
  apply prefixFree_snoc in Hp. destruct Hp as (Hp & Ha & Hb).
  destruct (buildFrom_children ks emptyRoot [] eq_refl) as (cs & Hcs & _).
  rewrite buildFrom_app, length_app. simpl.
  rewrite (insertAt_countFiles ks p Hb _ [] _ cs);
    auto using buildFrom_sound, StrFacts.split_nonempty.
  rewrite IH by assumption. lia.
Qed.

(** Every child of the synthetic root is named by the top-level segment
    of some key. *)
Lemma root_child_top ks cs c :
  children (buildFrom emptyRoot ks) = Some cs -> In c cs ->
  exists k, In k ks /\ topSegment k = name c.
Proof.
  intros Hcs Hc.
  destruct (buildFrom_sound ks cs c Hcs Hc [name c] c (located_self c))
    as [_ Hk].
  unfold fromKeys in Hk. simpl in Hk. unfold topSegment.
  destruct (type c).
  - destruct Hk as [Hin Hs]. exists (path c). now rewrite Hs.
  - destruct Hk as (_ & k & more & Hin & _ & Hs). exists k. now rewrite Hs.
Qed.

Lemma single_root ks s :
  ks <> [] -> NoDup ks -> prefixFree ks ->
  (forall k, In k ks -> topSegment k = s) ->
  exists t, children (buildFrom emptyRoot ks) = Some [t].
Proof.
  intros Hne Hn Hp Htop.
  destruct (buildFrom_children ks emptyRoot [] eq_refl) as (cs & Hcs & _ & Hcs').
  specialize (Hcs' Hne).
  pose proof (buildFrom_namesDistinct ks Hn Hp) as HE.
  apply Every_node in HE. destruct HE as [Hd _]. specialize (Hd cs Hcs).
  assert (Hname : forall c, In c cs -> name c = s).
  { intros c Hc. destruct (root_child_top ks cs c Hcs Hc) as (k & Hk & <-).
    now apply Htop. }
  destruct cs as [|t [|u cs]]; [congruence | eauto | exfalso].
  simpl in Hd. inversion Hd as [|? ? Hnot _]. apply Hnot. left.
  rewrite (Hname t), (Hname u); simpl; auto.
Qed.

End PrefixFreeBuild.

(** ** Walks that run into a File node *)

Section Stuck.

#[local] Opaque insertAt.

Lemma stuck_leaf current rest : children current = None -> stuck current rest.
Proof. intros H. destruct rest; simpl; [exact I | now rewrite H]. Qed.

Lemma stuck_cons current x y r :
  stuck current (x :: y :: r) <->
  children current = None \/
  exists cs c, children current = Some cs /\ findChild x cs = Some c /\
               stuck c (y :: r).
Proof.
  cbn [stuck]. destruct (children current) as [cs|]; [|tauto]. split.
  - intros H. right. destruct (findChild x cs) as [c|] eqn:E; [|destruct H].
    exists cs, c. auto.
  - intros [H|(cs' & c & [= <-] & -> & H)]; [discriminate | exact H].
Qed.

Lemma stuck_last current x : stuck current [x] <-> children current = None.
Proof.
  simpl. destruct (children current); split; auto; [intros [] | discriminate].
Qed.

Lemma node_eta (n : FileNode) :
  mkFileNode (name n) (type n) (children n) (path n) = n.
Proof. destruct n; reflexivity. Qed.

Lemma stuck_insertAt p rest : forall pre current,
  stuck current rest -> insertAt p pre rest current = current.
Proof.
  induction rest as [|x rest IH]; intros pre current H; [reflexivity|].
  destruct rest as [|y r].
  - apply stuck_last in H. now apply insertAt_leaf.
  - apply stuck_cons in H.
    destruct H as [H|(cs & c & Hcs & Hf & H)]; [now apply insertAt_leaf|].
    rewrite <- (node_eta (insertAt _ _ _ _)).
    rewrite insertAt_name, insertAt_type, insertAt_path.
    rewrite (insertAt_children p _ pre current cs Hcs), Hf.
    destruct (findChild_some _ _ _ Hf) as (_ & l1 & l2 & -> & _ & Hu).
    rewrite Hu, IH by exact H. rewrite <- Hcs. apply node_eta.
Qed.

Lemma stuck_mono q rest2 rest : forall pre current,
  stuck current rest -> stuck (insertAt q pre rest2 current) rest.
Proof.
  revert rest2.
  induction rest as [|x rest IH]; intros rest2 pre current H; [exact I|].
  destruct (children current) as [cs|] eqn:Hcs;
    [|now rewrite insertAt_leaf by exact Hcs].
  destruct rest as [|y r]; [apply stuck_last in H; congruence|].
  apply stuck_cons in H.
  destruct H as [H|(cs' & c & Hcs' & Hf & H)]; [congruence|].
  rewrite Hcs in Hcs'. injection Hcs' as <-.
  apply stuck_cons. right.
  rewrite (insertAt_children q _ pre current cs Hcs).
  destruct rest2 as [|z [|w r2]].
  - eauto.
  - eexists _, c. split; [reflexivity|]. split; [|exact H].
    now apply findChild_app_some.
  - destruct (findChild z cs) as [d|] eqn:Hz.
    + destruct (findChild_some _ _ _ Hz) as (Hdn & l1 & l2 & -> & Hl1 & Hu).
      rewrite Hu. destruct (String.eqb_spec z x) as [->|Hzx].
      * rewrite Hf in Hz. injection Hz as <-.
        eexists _, _. split; [reflexivity|]. split.
        -- apply findChild_first; [exact Hl1 | now rewrite insertAt_name].
        -- now apply IH.
      * eexists _, c. split; [reflexivity|]. split; [|exact H].
        rewrite <- Hf. apply findChild_skip; [apply insertAt_name | congruence].
    + eexists _, c. split; [reflexivity|]. split; [|exact H].
      now apply findChild_app_some.
Qed.

Lemma stuck_buildFrom ks rest : forall root,
  stuck root rest -> stuck (buildFrom root ks) rest.
Proof.
  unfold buildFrom. induction ks as [|k ks IH]; intros root H; [exact H|].
  simpl. apply IH. rewrite addPath_insertAt. now apply stuck_mono.
Qed.

(** After the walk of [p] from a tree in which no directory stands where
    [p] leads, every walk of a path that continues [p] is stuck. *)
Lemma shadow ks p parts : forall pre current more,
  (forall k, In k ks -> ~ slashPrefix p k) ->
  Str.split Str.slash p = pre ++ parts ->
  parts <> [] -> more <> [] ->
  Below (sound ks) pre current ->
  stuck (insertAt p pre parts current) (parts ++ more).
Proof.
  induction parts as [|x parts IH]; intros pre current more Hk Hp Hne Hm HB;
    [congruence|].
  destruct (children current) as [cs|] eqn:Hcs;
    [|rewrite insertAt_leaf by exact Hcs; now apply stuck_leaf].
  destruct more as [|m ms]; [congruence|].
  assert (Hgo : stuck (insertAt p pre (x :: parts) current)
                      (x :: parts ++ m :: ms) <->
                exists c, findChild x
                  match x :: parts with
                  | [] => cs
                  | [x] => cs ++ [newFile x p]
                  | x :: rest' =>
                      match findChild x cs with
                      | Some _ => updateFound x (insertAt p (pre ++ [x]) rest') cs
                      | None => cs ++ [insertAt p (pre ++ [x]) rest'
                                         (mkFileNode x directory (Some [])
                                            (Str.join Str.slash (pre ++ [x])))]
                      end
                  end = Some c /\ stuck c (parts ++ m :: ms)).
  { pose proof (insertAt_children p (x :: parts) pre current cs Hcs) as Hc.
    destruct parts as [|y r]; simpl app; rewrite stuck_cons, Hc; split.
    - intros [H|(? & c & [= <-] & Hf & H)]; [discriminate | eauto].
    - intros (c & Hf & H). right. eauto.
    - intros [H|(? & c & [= <-] & Hf & H)]; [discriminate | eauto].
    - intros (c & Hf & H). right. eauto. }
  simpl app. apply Hgo. clear Hgo.
  destruct parts as [|y r].
  - destruct (findChild x cs) as [c|] eqn:Hf.
    + exists c. split; [now apply findChild_app_some|].
      apply stuck_leaf.
      destruct (findChild_some _ _ _ Hf) as (Hx & l1 & l2 & -> & _).
      assert (Hs : sound ks (pre ++ [x]) c).
      { rewrite <- Hx.
        apply (HB _ c Hcs (in_elt _ _ _) [name c] c), located_self. }
      destruct Hs as [Hw Hfk]. unfold wellTyped, fromKeys in *.
      destruct (type c); [now destruct (children c)|exfalso].
      destruct Hfk as (_ & k & more & Hin & Hmore & Hsp).
      apply (Hk _ Hin), slashPrefix_split. exists more.
      split; [exact Hmore | now rewrite Hp].
    + exists (newFile x p). split; [|now apply stuck_leaf].
      rewrite findChild_app_none by exact Hf.
      unfold findChild. simpl. now rewrite String.eqb_refl.
  - assert (Hp' : Str.split Str.slash p = (pre ++ [x]) ++ y :: r)
      by now rewrite <- app_assoc.
    destruct (findChild x cs) as [d|] eqn:Hf.
    + destruct (findChild_some _ _ _ Hf) as (Hx & l1 & l2 & -> & Hl1 & Hu).
      rewrite Hu. eexists. split.
      * apply findChild_first; [exact Hl1 | now rewrite insertAt_name].
      * apply IH; [exact Hk | exact Hp' | discriminate | discriminate |].
        specialize (HB _ d Hcs (in_elt _ _ _)).
        apply EveryAt_node in HB. rewrite Hx in HB. exact (proj2 HB).
    + eexists. split.
      * rewrite findChild_app_none by exact Hf.
        unfold findChild. simpl. rewrite insertAt_name. simpl.
        now rewrite String.eqb_refl.
      * apply IH; [exact Hk | exact Hp' | discriminate | discriminate |].
        intros ? ? [= <-] [].
Qed.

End Stuck.

(** ** The first child of the synthetic root *)

Section FirstChild.

#[local] Opaque insertAt.

Lemma stepFirst_name c p : name (stepFirst c p) = name c.
Proof.
  unfold stepFirst. destruct (Str.split Str.slash p) as [|x [|y r]]; auto.
  destruct (String.eqb x (name c)); auto using insertAt_name.
Qed.

Lemma addPath_first root c cs p :
  children root = Some (c :: cs) ->
  exists cs', children (addPath root p) = Some (stepFirst c p :: cs').
Proof.
  intros Hcs. rewrite addPath_insertAt.
  rewrite (insertAt_children p _ [] root _ Hcs). unfold stepFirst.
  destruct (Str.split Str.slash p) as [|x [|y r]]; simpl; eauto.
  unfold findChild. simpl. rewrite (String.eqb_sym x (name c)).
  destruct (String.eqb (name c) x) eqn:E; [eauto|].
  destruct (find _ cs); eauto.
Qed.

Lemma buildFrom_first ks : forall root c cs,
  children root = Some (c :: cs) ->
  exists cs', children (buildFrom root ks) = Some (fold_left stepFirst ks c :: cs').
Proof.
  unfold buildFrom.
  induction ks as [|k ks IH]; intros root c cs Hcs; simpl; [eauto|].
  destruct (addPath_first root c cs k Hcs) as (cs' & H). eapply IH, H.
Qed.

Lemma stepFirst_other c p :
  String.eqb (topSegment p) (name c) = false -> stepFirst c p = c.
Proof.
  unfold stepFirst, topSegment.
  destruct (Str.split Str.slash p) as [|x [|y r]]; simpl; auto.
  now intros ->.
Qed.

Lemma fold_stepFirst_name ks : forall c, name (fold_left stepFirst ks c) = name c.
Proof.
  induction ks as [|k ks IH]; intros c; simpl; [reflexivity|].
  now rewrite IH, stepFirst_name.
Qed.

Lemma fold_stepFirst_filter ks : forall c,
  fold_left stepFirst ks c =
  fold_left stepFirst
    (filter (fun k => String.eqb (topSegment k) (name c)) ks) c.
Proof.
  induction ks as [|k ks IH]; intros c; simpl; [reflexivity|].
  destruct (String.eqb (topSegment k) (name c)) eqn:E; simpl.
  - rewrite IH, stepFirst_name. reflexivity.
  - rewrite stepFirst_other by exact E. apply IH.
Qed.

(** The first walk creates the first child, named by the top-level
    segment of the first path. *)
Lemma addPath_emptyRoot p :
  exists c, children (addPath emptyRoot p) = Some [c] /\ name c = topSegment p.
Proof.
  rewrite addPath_insertAt.
  rewrite (insertAt_children p _ [] emptyRoot [] eq_refl). unfold topSegment.
  pose proof (StrFacts.split_nonempty Str.slash p) as Hne.
  destruct (Str.split Str.slash p) as [|x [|y r]]; [congruence| |]; simpl.
  - eexists. split; reflexivity.
  - eexists. split; [reflexivity|]. now rewrite insertAt_name.
Qed.

Lemma buildTree_cons p0 f0 :
  exists c, name c = topSegment p0 /\
    forall rest,
      buildTree ((p0, f0) :: rest) = Some (fold_left stepFirst (keys rest) c).
Proof.
  destruct (addPath_emptyRoot p0) as (c & Hc & Hn).
  exists c. split; [exact Hn|]. intros rest.
  destruct (buildFrom_first (keys rest) _ c [] Hc) as (cs' & H).
  unfold buildTree, firstChild, buildRoot. simpl.
  unfold buildFrom in H. now rewrite H.
Qed.

Lemma keys_filter (f : string -> bool) (l : FileMap) :
  keys (filter (fun e => f (fst e)) l) = filter f (keys l).
Proof.
  unfold keys. induction l as [|[k v] l IH]; simpl; [reflexivity|].
  destruct (f k); simpl; now rewrite IH.
Qed.

End FirstChild.

(** ** Decimal numerals *)

Module NumFacts.
Import Num.

Lemma digitsFuel_enough (f : nat) : forall (f' : nat) (n : N),
  (n < 2 ^ N.of_nat f)%N -> (f <= f')%nat ->
  digitsFuel (S f') n = digitsFuel (S f) n.
Proof.
  induction f as [|f IH]; intros f' n Hn Hf; cbn [digitsFuel].
  - change (2 ^ N.of_nat 0)%N with 1%N in Hn.
    destruct (N.ltb_spec n 10); [reflexivity | lia].
  - destruct (N.ltb_spec n 10) as [|Hge]; [reflexivity|].
    destruct f' as [|f']; [lia|]. f_equal.
    apply IH; [|lia].
    rewrite Nat2N.inj_succ, N.pow_succ_r' in Hn.
    apply N.Div0.div_lt_upper_bound. lia.
Qed.

Lemma digits_small (n : N) : (n < 10)%N -> digits n = String (digit n) "".
Proof.
  intros H. unfold digits. cbn [digitsFuel].
  destruct (N.ltb_spec n 10); [reflexivity | lia].
Qed.

Lemma digits_step (n : N) :
  (10 <= n)%N ->
  digits n = (digits (n / 10) ++ String (digit (n mod 10)) "")%string.
Proof.
  intros H. unfold digits at 1. cbn [digitsFuel].
  destruct (N.ltb_spec n 10); [lia|]. f_equal.
  pose proof (N.size_gt n) as Hs.
  destruct (N.to_nat (N.size n)) as [|f] eqn:Ef.
  { assert (N.size n = 0%N) by lia. rewrite H1 in Hs. simpl in Hs. lia. }
  unfold digits. apply digitsFuel_enough.
  - rewrite N2Nat.id. apply N.size_gt.
  - destruct (N.eq_dec (n / 10) 0) as [E|E].
    + apply N.div_small_iff in E; lia.
    + assert (N.size (n / 10) <= N.of_nat f)%N; [|lia].
      rewrite N.size_log2 by exact E. apply N.le_succ_l.
      assert (Hpos : (0 < n / 10)%N) by now apply N.neq_0_lt_0.
      apply (proj1 (N.log2_lt_pow2 _ _ Hpos)).
      apply N.Div0.div_lt_upper_bound.
      replace (N.size n) with (N.succ (N.of_nat f)) in Hs by lia.
      rewrite N.pow_succ_r' in Hs. lia.
Qed.

Lemma valueOf_append (a b : string) : forall acc,
  valueOf (a ++ b) acc = valueOf b (valueOf a acc).
Proof. induction a as [|c a IH]; intros acc; simpl; auto. Qed.

Lemma value_digit (d : N) : (d < 10)%N -> (N_of_ascii (digit d) - 48 = d)%N.
Proof.
  intros H. unfold digit. rewrite N_ascii_embedding by lia. lia.
Qed.

(** [digits n] is a numeral of [n]. *)
Lemma valueOf_digits (n : N) : valueOf (digits n) 0 = n.
Proof.
  induction n as [n IH] using (well_founded_induction N.lt_wf_0).
  destruct (N.lt_ge_cases n 10) as [H|H].
  - rewrite digits_small by exact H. cbn [valueOf].
    rewrite value_digit by exact H. lia.
  - rewrite digits_step by exact H. rewrite valueOf_append, IH.
    + cbn [valueOf]. rewrite value_digit by (apply N.mod_lt; discriminate).
      symmetry. apply N.div_mod. discriminate.
    + apply N.div_lt; lia.
Qed.

(** A number of at least three digits: its last two digits apart. *)
Lemma digits_hundreds (m : N) :
  (100 <= m)%N ->
  digits m =
  (digits (m / 100)
   ++ String (digit ((m / 10) mod 10)) (String (digit (m mod 10)) ""))%string.
Proof.
  intros H. rewrite digits_step by lia.
  rewrite (digits_step (m / 10)).
  - rewrite N.Div0.div_div. change (10 * 10)%N with 100%N.
    now rewrite StrFacts.append_assoc.
  - apply N.div_le_lower_bound; lia.
Qed.

Lemma substring_prefix (a b : string) :
  substring 0 (String.length a) (a ++ b) = a.
Proof. induction a as [|c a IH]; simpl; [now destruct b | now rewrite IH]. Qed.

Lemma substring_suffix (a b : string) :
  substring (String.length a) (String.length b) (a ++ b) = b.
Proof.
  induction a as [|c a IH]; simpl; [|exact IH].
  induction b as [|c b IHb]; simpl; [reflexivity | now rewrite IHb].
Qed.

End NumFacts.

(** ** [toFixed(2)] on a quotient of a byte count *)

Module FixedFacts.
Import Num.

Lemma toFixed_floor (a : Z) (d : positive) :
  (0 <= a)%Z ->
  Qfloor (Qabs (div a (Zpos d)) * inject_Z (10 ^ Z.of_nat 2) + (1 # 2))%Q
  = ((200 * a + Zpos d) / (2 * Zpos d))%Z.
Proof.
  intros Ha. unfold div, Qdiv, Qinv, inject_Z. cbn [Qnum Qden].
  unfold Qabs, Qmult, Qplus, Qfloor. cbn [Qnum Qden].
  rewrite Z.abs_eq by lia.
  change (10 ^ Z.of_nat 2)%Z with 100%Z.
  rewrite !Pos.mul_1_l, !Pos.mul_1_r, Pos2Z.inj_mul.
  f_equal; lia.
Qed.

Lemma toFixed_sign (a : Z) (d : positive) :
  (0 <= a)%Z -> Qle_bool 0 (div a (Zpos d)) = true.
Proof.
  intros Ha. unfold div, Qdiv, Qinv, inject_Z, Qle_bool, Qmult.
  cbn [Qnum Qden]. apply Z.leb_le. lia.
Qed.

Lemma length_digits_hundreds (m : N) :
  (100 <= m)%N ->
  String.length (digits m) = (String.length (digits (m / 100)) + 2)%nat.
Proof.
  intros H. rewrite NumFacts.digits_hundreds by exact H.
  rewrite StrFacts.length_append. reflexivity.
Qed.

Lemma digits_nonempty (n : N) : (1 <= String.length (digits n))%nat.
Proof.
  destruct (N.lt_ge_cases n 10) as [H|H].
  - rewrite NumFacts.digits_small by exact H. simpl. lia.
  - rewrite NumFacts.digits_step by exact H.
    rewrite StrFacts.length_append. simpl. lia.
Qed.

(** At least one unit before the point: the numeral of the hundredths
    [m], with the point put before its last two digits. *)
Lemma toFixed_two (a : Z) (d : positive) :
  (0 <= a)%Z ->
  (100 <= (200 * a + Zpos d) / (2 * Zpos d))%Z ->
  toFixed (div a (Zpos d)) 2 =
  twoDecimals (Z.to_N ((200 * a + Zpos d) / (2 * Zpos d))).
Proof.
  intros Ha Hm. unfold toFixed.
  rewrite toFixed_sign, toFixed_floor by exact Ha.
  set (m := ((200 * a + Zpos d) / (2 * Zpos d))%Z) in *.
  destruct (Z.eqb_spec m 0) as [E|_]; [lia|].
  cbn [Nat.eqb].
  assert (Hm' : (100 <= Z.to_N m)%N) by lia.
  pose proof (length_digits_hundreds _ Hm') as Hlen.
  pose proof (digits_nonempty (Z.to_N m / 100)) as Hpos.
  destruct (Nat.leb_spec (String.length (digits (Z.to_N m))) 2) as [Hle|_];
    [lia|].
  rewrite Hlen.
  replace (String.length (digits (Z.to_N m / 100)) + 2 - 2)%nat
    with (String.length (digits (Z.to_N m / 100))) by lia.
  rewrite (NumFacts.digits_hundreds (Z.to_N m)) by exact Hm'.
  rewrite NumFacts.substring_prefix.
  set (tail := String (digit ((Z.to_N m / 10) mod 10))
                 (String (digit (Z.to_N m mod 10)) "")).
  change 2%nat with (String.length tail) at 1.
  rewrite NumFacts.substring_suffix. reflexivity.
Qed.

End FixedFacts.

Lemma buildFrom_type ks : forall root, type (buildFrom root ks) = type root.
Proof.
  unfold buildFrom. induction ks as [|p ks IH]; intros root; [reflexivity|].
  simpl. rewrite IH, addPath_insertAt. apply insertAt_type.
Qed.

(** ** A chain of segments keeps leading to the same node *)

Section Resolve.

#[local] Opaque insertAt.

Lemma findIndexed_findChild part cs :
  option_map snd (findIndexed part cs) = findChild part cs.
Proof.
  unfold findChild. induction cs as [|c cs IH]; simpl; [reflexivity|].
  destruct (String.eqb (name c) part); [reflexivity|].
  rewrite <- IH. now destruct (findIndexed part cs).
Qed.

Lemma findIndexed_app part cs l i c :
  findIndexed part cs = Some (i, c) -> findIndexed part (cs ++ l) = Some (i, c).
Proof.
  revert i. induction cs as [|d cs IH]; intros i; simpl; [discriminate|].
  destruct (String.eqb (name d) part); [auto|].
  destruct (findIndexed part cs) as [[j e]|]; [|discriminate].
  simpl. intros [= <- <-]. now rewrite (IH j eq_refl).
Qed.

Lemma findIndexed_app_none part cs x :
  findIndexed part cs = None -> name x = part ->
  findIndexed part (cs ++ [x]) = Some (List.length cs, x).
Proof.
  intros H Hx. induction cs as [|d cs IH]; simpl in *.
  - rewrite Hx, String.eqb_refl. reflexivity.
  - destruct (String.eqb (name d) part); [discriminate|].
    destruct (findIndexed part cs); [discriminate|].
    now rewrite IH.
Qed.

(** The array after the walk has gone through the first child named [z]. *)
Lemma findIndexed_update part z f cs i c :
  (forall x, name (f x) = name x) ->
  findIndexed part cs = Some (i, c) ->
  findIndexed part (updateFound z f cs) =
  Some (i, if String.eqb z part then f c else c).
Proof.
  intros Hf. revert i. induction cs as [|d cs IH]; intros i; simpl;
    [discriminate|].
  destruct (String.eqb (name d) z) eqn:Ez; simpl.
  - rewrite Hf. destruct (String.eqb (name d) part) eqn:Ep.
    + intros [= <- <-]. apply String.eqb_eq in Ez, Ep. subst part.
      now rewrite Ez, String.eqb_refl.
    + apply String.eqb_eq in Ez. subst z. rewrite Ep. auto.
  - destruct (String.eqb (name d) part) eqn:Ep.
    + intros [= <- <-]. apply String.eqb_eq in Ep. subst part.
      now rewrite String.eqb_sym, Ez.
    + destruct (findIndexed part cs) as [[j e]|]; [|discriminate].
      simpl. intros [= <- <-]. now rewrite (IH j eq_refl).
Qed.

Lemma findIndexed_none part cs :
  findChild part cs = None -> findIndexed part cs = None.
Proof.
  intros H. rewrite <- findIndexed_findChild in H.
  now destruct (findIndexed part cs).
Qed.

Lemma findIndexed_some part cs c :
  findChild part cs = Some c -> exists i, findIndexed part cs = Some (i, c).
Proof.
  intros H. rewrite <- findIndexed_findChild in H.
  destruct (findIndexed part cs) as [[i e]|]; [|discriminate].
  injection H as <-. eauto.
Qed.

Lemma resolve_insertAt q ds : forall rest pre current pos,
  resolve current ds = Some pos ->
  resolve (insertAt q pre rest current) ds = Some pos.
Proof.
  induction ds as [|d ds IH]; intros rest pre current pos H; [exact H|].
  cbn [resolve] in *.
  destruct (children current) as [cs|] eqn:Hcs; [|discriminate].
  destruct (findIndexed d cs) as [[i c]|] eqn:Hd; [|discriminate].
  destruct (resolve c ds) as [pos'|] eqn:Hr; [|discriminate].
  rewrite (insertAt_children q rest pre current cs Hcs).
  destruct rest as [|z [|w r]].
  - now rewrite Hd, Hr.
  - now rewrite (findIndexed_app _ _ _ _ _ Hd), Hr.
  - destruct (findChild z cs).
    + rewrite (findIndexed_update d z _ cs i c (insertAt_name q _ _) Hd).
      destruct (String.eqb z d); [|now rewrite Hr].
      now rewrite (IH _ _ _ _ Hr).
    + now rewrite (findIndexed_app _ _ _ _ _ Hd), Hr.
Qed.

Lemma resolve_buildFrom ks ds : forall root pos,
  resolve root ds = Some pos -> resolve (buildFrom root ks) ds = Some pos.
Proof.
  unfold buildFrom. induction ks as [|k ks IH]; intros root pos H; [exact H|].
  simpl. apply IH. rewrite addPath_insertAt. now apply resolve_insertAt.
Qed.

(** The walk of a path that is not stuck descends through a node for
    each prefix of directory segments. *)
Lemma resolve_walked p ds : forall pre more current,
  more <> [] -> ~ stuck current (ds ++ more) ->
  exists pos, resolve (insertAt p pre (ds ++ more) current) ds = Some pos.
Proof.
  induction ds as [|d ds IH]; intros pre more current Hm Hs; [now exists []|].
  cbn [resolve]. simpl app in *.
  destruct (children current) as [cs|] eqn:Hcs;
    [|exfalso; now apply Hs, stuck_leaf].
  rewrite (insertAt_children p _ pre current cs Hcs).
  destruct (ds ++ more) as [|y r] eqn:Hrest.
  { destruct ds; [simpl in Hrest; congruence | discriminate]. }
  assert (Hnew : forall c, ~ stuck c (y :: r) -> name c = d ->
            exists pos,
              option_map (cons (List.length cs))
                (resolve (insertAt p (pre ++ [d]) (y :: r) c) ds) = Some pos).
  { intros c Hc _. rewrite <- Hrest in *.
    destruct (IH (pre ++ [d]) more c Hm Hc) as (pos & ->). simpl. eauto. }
  destruct (findChild d cs) as [c|] eqn:Hf.
  - destruct (findIndexed_some _ _ _ Hf) as (i & Hi).
    rewrite (findIndexed_update d d _ cs i c (insertAt_name p _ _) Hi).
    rewrite String.eqb_refl. rewrite <- Hrest in *.
    destruct (IH (pre ++ [d]) more c Hm) as (pos & ->); [|simpl; eauto].
    intros Hc. apply Hs. rewrite Hrest in *. apply stuck_cons. right. eauto.
  - rewrite (findIndexed_app_none d cs _ (findIndexed_none _ _ Hf))
      by apply insertAt_name.
    apply Hnew; [|reflexivity].
    destruct r as [|w r]; simpl; [tauto|]. now intros [].
Qed.

End Resolve.

(** ** The object store *)

Section StoreBasics.

Lemma deref_app_old (st l : Store.Store) (r : Store.Ref) :
  (r < List.length st)%nat -> Store.deref (st ++ l) r = Store.deref st r.
Proof. intros H. unfold Store.deref. now rewrite nth_error_app1. Qed.

Lemma deref_alloc (st : Store.Store) (o : Store.Obj) :
  Store.deref (st ++ [o]) (List.length st) = Some o.
Proof.
  unfold Store.deref. rewrite nth_error_app2 by lia.
  now rewrite Nat.sub_diag.
Qed.

Lemma length_set (st : Store.Store) : forall r o,
  List.length (Store.set st r o) = List.length st.
Proof.
  induction st as [|x st IH]; intros [|r] o; simpl; auto.
Qed.

Lemma deref_set_same (st : Store.Store) : forall r o,
  (r < List.length st)%nat -> Store.deref (Store.set st r o) r = Some o.
Proof.
  unfold Store.deref.
  induction st as [|x st IH]; intros [|r] o H; simpl in *; try lia; auto.
  apply IH. lia.
Qed.

Lemma deref_set_other (st : Store.Store) : forall r r' o,
  r <> r' -> Store.deref (Store.set st r o) r' = Store.deref st r'.
Proof.
  unfold Store.deref.
  induction st as [|x st IH]; intros [|r] [|r'] o H; simpl; auto; try congruence.
Qed.

Lemma deref_bound (st : Store.Store) (r : Store.Ref) (o : Store.Obj) :
  Store.deref st r = Some o -> (r < List.length st)%nat.
Proof. intros H. apply nth_error_Some. unfold Store.deref in H. congruence. Qed.

Lemma length_pushRef (st : Store.Store) (c r : Store.Ref) :
  List.length (Store.pushRef st c r) = List.length st.
Proof.
  unfold Store.pushRef. destruct (Store.deref st c) as [o|]; [|reflexivity].
  destruct (Store.objChildren o); [apply length_set | reflexivity].
Qed.

Lemma deref_pushRef_other (st : Store.Store) (c r x : Store.Ref) :
  c <> x -> Store.deref (Store.pushRef st c r) x = Store.deref st x.
Proof.
  intros H. unfold Store.pushRef. destruct (Store.deref st c) as [o|]; [|reflexivity].
  destruct (Store.objChildren o); [now apply deref_set_other | reflexivity].
Qed.

Lemma deref_pushRef_same (st : Store.Store) (c r : Store.Ref) o cs :
  Store.deref st c = Some o -> Store.objChildren o = Some cs ->
  Store.deref (Store.pushRef st c r) c =
  Some (Store.mkObj (Store.objName o) (Store.objType o) (Some (cs ++ [r]))
                    (Store.objPath o)).
Proof.
  intros Ho Hc. unfold Store.pushRef. rewrite Ho, Hc.
  apply deref_set_same. eapply deref_bound; eauto.
Qed.

Lemma pushRef_leaf (st : Store.Store) (c r : Store.Ref) :
  Store.childrenOf st c = None -> Store.pushRef st c r = st.
Proof.
  unfold Store.childrenOf, Store.pushRef.
  destruct (Store.deref st c) as [o|]; [|reflexivity].
  now intros ->.
Qed.

End StoreBasics.

(** ** Placed trees *)

Section PlacedTrees.

Lemma subtrees_eq (a : Store.Placed) :
  Store.subtrees a =
  a :: match Store.kids a with
       | None => []
       | Some ks => flat_map Store.subtrees ks
       end.
Proof. destruct a; reflexivity. Qed.

Lemma refs_eq (a : Store.Placed) :
  Store.refs a =
  Store.at_ a :: match Store.kids a with
                 | None => []
                 | Some ks => flat_map Store.refs ks
                 end.
Proof.
  unfold Store.refs. rewrite subtrees_eq. simpl. f_equal.
  destruct (Store.kids a) as [ks|]; [|reflexivity].
  induction ks as [|k ks IH]; simpl; [reflexivity|].
  now rewrite map_app, IH.
Qed.

Lemma erase_eq (a : Store.Placed) :
  Store.erase a =
  mkFileNode (Store.placedName a) (Store.placedType a)
             (option_map (map Store.erase) (Store.kids a))
             (Store.placedPath a).
Proof. destruct a; reflexivity. Qed.

Lemma refs_self (a : Store.Placed) : In (Store.at_ a) (Store.refs a).
Proof. rewrite refs_eq. now left. Qed.

Lemma refs_kid (a k : Store.Placed) ks r :
  Store.kids a = Some ks -> In k ks -> In r (Store.refs k) ->
  In r (Store.refs a).
Proof.
  intros Hk Hin Hr. rewrite refs_eq, Hk. right.
  apply in_flat_map. eauto.
Qed.

Lemma holds_node (st : Store.Store) (a : Store.Placed) :
  Store.holds st a <->
  Store.deref st (Store.at_ a) = Some (Store.cell a) /\
  forall ks k, Store.kids a = Some ks -> In k ks -> Store.holds st k.
Proof.
  unfold Store.holds. split.
  - intros H. split.
    + apply H. rewrite subtrees_eq. now left.
    + intros ks k Hk Hin b Hb. apply H. rewrite subtrees_eq, Hk. right.
      apply in_flat_map. eauto.
  - intros [H0 H] b Hb. rewrite subtrees_eq in Hb.
    destruct Hb as [<-|Hb]; [exact H0|].
    destruct (Store.kids a) as [ks|]; [|destruct Hb].
    apply in_flat_map in Hb. destruct Hb as (k & Hk & Hb).
    eapply H; eauto.
Qed.

Lemma holds_frame (st st' : Store.Store) (a : Store.Placed) :
  Store.holds st a ->
  (forall r, In r (Store.refs a) -> Store.deref st' r = Store.deref st r) ->
  Store.holds st' a.
Proof.
  intros H Hf b Hb. rewrite Hf; [now apply H|].
  unfold Store.refs. now apply in_map.
Qed.

Lemma placedIn_kid (st : Store.Store) (a k : Store.Placed) ks :
  Store.placedIn st a -> Store.kids a = Some ks -> In k ks ->
  Store.placedIn st k.
Proof.
  intros (Hh & Hn & Hb) Hk Hin. repeat split.
  - apply holds_node in Hh. eapply (proj2 Hh); eauto.
  - rewrite refs_eq, Hk in Hn. inversion Hn as [|? ? _ Hn']. subst.
    clear - Hn' Hin. induction ks as [|x ks IH]; [destruct Hin|].
    simpl in Hn'. destruct Hin as [->|Hin].
    + eapply NoDup_app_remove_r; eauto.
    + apply IH; [exact Hin|]. eapply NoDup_app_remove_l; eauto.
  - intros r Hr. apply Hb. eapply refs_kid; eauto.
Qed.

Lemma evolves_trans st a st1 a1 st2 a2 :
  Store.evolves st a st1 a1 -> Store.evolves st1 a1 st2 a2 ->
  Store.evolves st a st2 a2.
Proof.
  intros (He & Hp & Hr & Hl & Hf) (He' & Hp' & Hr' & Hl' & Hf').
  repeat split; try apply Hp'.
  - congruence.
  - intros r H. destruct (Hr' r H) as [H1|H1]; [now apply Hr | right; lia].
  - lia.
  - intros r Hlt Hnot. rewrite Hf'; [now apply Hf | lia |].
    intros H. destruct (Hr r H) as [H1|H1]; [tauto | lia].
Qed.

Lemma evolves_refl st a : Store.placedIn st a -> Store.evolves st a st a.
Proof. intros H. repeat split; try apply H; auto. Qed.

End PlacedTrees.

(** ** Growing a placed tree *)

Section Growth.

Lemma NoDup_app_inv {A} (l1 l2 : list A) :
  NoDup (l1 ++ l2) ->
  NoDup l1 /\ NoDup l2 /\ forall a, In a l1 -> ~ In a l2.
Proof.
  intros H. split; [eapply NoDup_app_remove_r; eauto|].
  split; [eapply NoDup_app_remove_l; eauto|].
  induction l1 as [|x l1 IH]; intros a Ha; [destruct Ha|].
  simpl in H. inversion H as [|? ? Hx Hn]. subst.
  destruct Ha as [->|Ha]; [|now apply IH].
  intros Hin. apply Hx, in_app_iff. now right.
Qed.

Lemma placedIn_root_fresh st a ks :
  Store.placedIn st a -> Store.kids a = Some ks ->
  ~ In (Store.at_ a) (flat_map Store.refs ks).
Proof.
  intros (_ & Hn & _) Hk. rewrite refs_eq, Hk in Hn. now inversion Hn.
Qed.

Lemma placedIn_kids_NoDup st a ks :
  Store.placedIn st a -> Store.kids a = Some ks ->
  NoDup (flat_map Store.refs ks).
Proof.
  intros (_ & Hn & _) Hk. rewrite refs_eq, Hk in Hn. now inversion Hn.
Qed.

Lemma placedIn_kids_bound st a ks r :
  Store.placedIn st a -> Store.kids a = Some ks ->
  In r (flat_map Store.refs ks) -> (r < List.length st)%nat.
Proof.
  intros (_ & _ & Hb) Hk Hr. apply Hb. rewrite refs_eq, Hk. now right.
Qed.

(** A new last child, laid out in new objects. *)
Lemma evolves_append st a ks st' d :
  Store.placedIn st a -> Store.kids a = Some ks ->
  Store.deref st' (Store.at_ a) =
    Some (Store.cell (Store.withKids a (ks ++ [d]))) ->
  Store.holds st' d -> NoDup (Store.refs d) ->
  (forall r, In r (Store.refs d) ->
             (List.length st <= r < List.length st')%nat) ->
  (List.length st <= List.length st')%nat ->
  (forall r, (r < List.length st)%nat -> r <> Store.at_ a ->
             Store.deref st' r = Store.deref st r) ->
  Store.evolves st a st' (Store.withKids a (ks ++ [d])).
Proof.
  intros Hp Hk Hroot Hd Hdn Hdb Hlen Hframe.
  pose proof (placedIn_root_fresh _ _ _ Hp Hk) as Hfresh.
  pose proof (placedIn_kids_NoDup _ _ _ Hp Hk) as Hkn.
  pose proof (placedIn_kids_bound st a ks) as Hkb.
  assert (Ha : (Store.at_ a < List.length st)%nat)
    by (apply Hp, refs_self).
  assert (Hrefs : Store.refs (Store.withKids a (ks ++ [d])) =
                  Store.at_ a :: flat_map Store.refs ks ++ Store.refs d).
  { rewrite refs_eq. simpl. rewrite flat_map_app. simpl.
    now rewrite app_nil_r. }
  split; [reflexivity|]. split; [split; [|split]|split; [|split]].
  - apply holds_node. split; [exact Hroot|].
    intros ks' k [= <-] Hin. apply in_app_iff in Hin.
    destruct Hin as [Hin|[<-|[]]]; [|exact Hd].
    apply (holds_frame st).
    + destruct Hp as (Hh & _). apply holds_node in Hh.
      eapply (proj2 Hh); eauto.
    + intros r Hr.
      assert (Hr' : In r (flat_map Store.refs ks))
        by (apply in_flat_map; eauto).
      apply Hframe; [now apply Hkb | congruence].
  - rewrite Hrefs. constructor.
    + intros H. apply in_app_iff in H. destruct H as [H|H]; [tauto|].
      apply Hdb in H. lia.
    + apply NoDup_app; auto.
      intros r Hr Hr'. apply Hdb in Hr'. apply (Hkb r Hp Hk) in Hr. lia.
  - rewrite Hrefs. intros r [<-|Hr]; [lia|].
    apply in_app_iff in Hr. destruct Hr as [Hr|Hr].
    + apply (Hkb r Hp Hk) in Hr. lia.
    + apply Hdb in Hr. lia.
  - rewrite Hrefs. intros r [<-|Hr]; [left; apply refs_self|].
    apply in_app_iff in Hr. destruct Hr as [Hr|Hr].
    + left. rewrite refs_eq, Hk. now right.
    + right. apply Hdb in Hr. lia.
  - exact Hlen.
  - intros r Hr Hnot. apply Hframe; [exact Hr|].
    intros ->. apply Hnot, refs_self.
Qed.

(** A child that has evolved, put back at its place. *)
Lemma evolves_replace st a l1 k l2 st' k' :
  Store.placedIn st a -> Store.kids a = Some (l1 ++ k :: l2) ->
  Store.evolves st k st' k' ->
  Store.evolves st a st' (Store.withKids a (l1 ++ k' :: l2)).
Proof.
  intros Hp Hk (Hat & (Hh' & Hn' & Hb') & Hsub & Hlen & Hframe).
  pose proof (placedIn_root_fresh _ _ _ Hp Hk) as Hfresh.
  pose proof (placedIn_kids_NoDup _ _ _ Hp Hk) as Hkn.
  pose proof (placedIn_kids_bound st a (l1 ++ k :: l2)) as Hkb.
  assert (Ha : (Store.at_ a < List.length st)%nat)
    by (apply Hp, refs_self).
  rewrite flat_map_app in Hfresh, Hkn. simpl in Hfresh, Hkn.
  destruct (NoDup_app_inv _ _ Hkn) as (Hn1 & Hn23 & Hd1).
  destruct (NoDup_app_inv _ _ Hn23) as (Hnk & Hn2 & Hd2).
  assert (Hb1 : forall r, In r (flat_map Store.refs l1) ->
                          (r < List.length st)%nat).
  { intros r Hr. apply (Hkb r Hp Hk). rewrite flat_map_app.
    apply in_app_iff. now left. }
  assert (Hb2 : forall r, In r (flat_map Store.refs l2) ->
                          (r < List.length st)%nat).
  { intros r Hr. apply (Hkb r Hp Hk). rewrite flat_map_app.
    apply in_app_iff. right. simpl. apply in_app_iff. now right. }
  assert (Hrefs : Store.refs (Store.withKids a (l1 ++ k' :: l2)) =
                  Store.at_ a :: flat_map Store.refs l1 ++
                    Store.refs k' ++ flat_map Store.refs l2).
  { rewrite refs_eq. simpl. now rewrite flat_map_app. }
  assert (Hother : forall x, In x l1 \/ In x l2 -> Store.holds st' x).
  { intros x Hx. apply (holds_frame st).
    - destruct Hp as (Hh & _). apply holds_node in Hh.
      apply (proj2 Hh _ x Hk). apply in_app_iff. simpl. tauto.
    - intros r Hr. destruct Hx as [Hx|Hx].
      + assert (Hr1 : In r (flat_map Store.refs l1))
          by (apply in_flat_map; eauto).
        apply Hframe; [now apply Hb1|]. intros Hrk.
        apply (Hd1 r Hr1), in_app_iff. now left.
      + assert (Hr2 : In r (flat_map Store.refs l2))
          by (apply in_flat_map; eauto).
        apply Hframe; [now apply Hb2|]. intros Hrk.
        now apply (Hd2 r Hrk). }
  split; [reflexivity|]. split; [split; [|split]|split; [|split]].
  - apply holds_node. split.
    + cbn [Store.at_ Store.withKids]. rewrite Hframe; [| exact Ha |].
      * destruct Hp as (Hh & _). apply holds_node in Hh.
        rewrite (proj1 Hh). unfold Store.cell. simpl. rewrite Hk. simpl.
        rewrite !map_app. simpl. now rewrite Hat.
      * intros H. apply Hfresh, in_app_iff. right. apply in_app_iff. now left.
    + intros ks' x [= <-] Hin. apply in_app_iff in Hin.
      destruct Hin as [Hin|[<-|Hin]]; auto.
  - rewrite Hrefs. constructor.
    + intros H. apply in_app_iff in H. destruct H as [H|H].
      * apply Hfresh, in_app_iff. now left.
      * apply in_app_iff in H. destruct H as [H|H].
        -- destruct (Hsub _ H) as [H1|H1]; [|lia].
           apply Hfresh, in_app_iff. right. apply in_app_iff. now left.
        -- apply Hfresh, in_app_iff. right. apply in_app_iff. now right.
    + apply NoDup_app; [exact Hn1 | apply NoDup_app; auto |].
      * intros r Hr Hr2. destruct (Hsub _ Hr) as [H1|H1].
        -- now apply (Hd2 r H1).
        -- apply Hb2 in Hr2. lia.
      * intros r Hr Hr'. apply in_app_iff in Hr'. destruct Hr' as [Hr'|Hr'].
        -- destruct (Hsub _ Hr') as [H1|H1].
           ++ apply (Hd1 r Hr), in_app_iff. now left.
           ++ apply Hb1 in Hr. lia.
        -- apply (Hd1 r Hr), in_app_iff. now right.
  - rewrite Hrefs. intros r [<-|Hr]; [lia|].
    apply in_app_iff in Hr. destruct Hr as [Hr|Hr]; [apply Hb1 in Hr; lia|].
    apply in_app_iff in Hr. destruct Hr as [Hr|Hr]; [now apply Hb'|].
    apply Hb2 in Hr. lia.
  - rewrite Hrefs. intros r [<-|Hr]; [left; apply refs_self|].
    rewrite (refs_eq a), Hk, flat_map_app. simpl.
    apply in_app_iff in Hr. destruct Hr as [Hr|Hr].
    + left. right. apply in_app_iff. now left.
    + apply in_app_iff in Hr. destruct Hr as [Hr|Hr].
      * destruct (Hsub _ Hr) as [H1|H1]; [left|now right].
        right. apply in_app_iff. right. apply in_app_iff. now left.
      * left. right. apply in_app_iff. right. apply in_app_iff. now right.
  - exact Hlen.
  - intros r Hr Hnot. apply Hframe; [exact Hr|].
    intros Hrk. apply Hnot. rewrite refs_eq, Hk, flat_map_app. simpl.
    right. apply in_app_iff. right. apply in_app_iff. now left.
Qed.

(** Objects added and changed outside of a placed tree leave it there. *)
Lemma evolves_aside st a st' :
  Store.placedIn st a ->
  (List.length st <= List.length st')%nat ->
  (forall r, (r < List.length st)%nat -> Store.deref st' r = Store.deref st r) ->
  Store.evolves st a st' a.
Proof.
  intros (Hh & Hn & Hb) Hlen Hframe.
  split; [reflexivity|]. split; [split; [|split]|split; [|split]]; auto.
  - apply (holds_frame st); auto.
  - intros r Hr. apply Hb in Hr. lia.
Qed.

End Growth.

(** ** The walk on the store computes the walk on the tree *)

Section Simulation.

Lemma find_split {A} (f : A -> bool) (l : list A) (x : A) :
  find f l = Some x ->
  exists l1 l2, l = l1 ++ x :: l2 /\ (forall y, In y l1 -> f y = false) /\
                f x = true.
Proof.
  induction l as [|y l IH]; simpl; [discriminate|].
  destruct (f y) eqn:E.
  - intros [= ->]. exists [], l. repeat split; auto. intros ? [].
  - intros H. destruct (IH H) as (l1 & l2 & -> & Hl1 & Hx).
    exists (y :: l1), l2. repeat split; auto.
    intros z [<-|Hz]; auto.
Qed.

Lemma updateFound_split part g l1 c l2 :
  (forall y, In y l1 -> String.eqb (name y) part = false) ->
  String.eqb (name c) part = true ->
  updateFound part g (l1 ++ c :: l2) = l1 ++ g c :: l2.
Proof.
  intros Hl1 Hc. induction l1 as [|y l1 IH]; simpl.
  - now rewrite Hc.
  - rewrite (Hl1 y) by now left. f_equal. apply IH.
    intros z Hz. apply Hl1. now right.
Qed.

Lemma childrenOf_placed st a :
  Store.holds st a ->
  Store.childrenOf st (Store.at_ a) =
  option_map (map Store.at_) (Store.kids a).
Proof.
  intros H. apply holds_node in H. unfold Store.childrenOf.
  now rewrite (proj1 H).
Qed.

Lemma findRef_placed st a ks part :
  Store.holds st a -> Store.kids a = Some ks ->
  Store.findRef st part (Store.at_ a) =
  option_map Store.at_
    (find (fun k => String.eqb (Store.placedName k) part) ks).
Proof.
  intros H Hk. unfold Store.findRef. rewrite childrenOf_placed, Hk by exact H.
  simpl. apply holds_node in H. destruct H as [_ H]. specialize (H ks).
  assert (Hc : forall k, In k ks ->
                 Store.nameIs st part (Store.at_ k) =
                 String.eqb (Store.placedName k) part).
  { intros k Hin. specialize (H k Hk Hin). apply holds_node in H.
    unfold Store.nameIs. now rewrite (proj1 H). }
  clear H Hk. induction ks as [|k ks IH]; simpl; [reflexivity|].
  rewrite Hc by now left.
  destruct (String.eqb (Store.placedName k) part); [reflexivity|].
  apply IH. intros x Hx. apply Hc. now right.
Qed.

Lemma erase_name a : name (Store.erase a) = Store.placedName a.
Proof. destruct a; reflexivity. Qed.

Lemma erase_type a : type (Store.erase a) = Store.placedType a.
Proof. destruct a; reflexivity. Qed.

Lemma erase_path a : path (Store.erase a) = Store.placedPath a.
Proof. destruct a; reflexivity. Qed.

Lemma erase_children a :
  children (Store.erase a) = option_map (map Store.erase) (Store.kids a).
Proof. destruct a; reflexivity. Qed.

Lemma findChild_erase ks part :
  findChild part (map Store.erase ks) =
  option_map Store.erase
    (find (fun k => String.eqb (Store.placedName k) part) ks).
Proof.
  unfold findChild. induction ks as [|k ks IH]; [reflexivity|].
  cbn [map find]. rewrite erase_name.
  destruct (String.eqb (Store.placedName k) part); [reflexivity|exact IH].
Qed.

Lemma erase_withKids a ks :
  Store.erase (Store.withKids a ks) =
  mkFileNode (Store.placedName a) (Store.placedType a)
             (Some (map Store.erase ks)) (Store.placedPath a).
Proof. reflexivity. Qed.

Lemma pushRef_placed st a ks r d :
  Store.deref st (Store.at_ a) = Some (Store.cell a) ->
  Store.kids a = Some ks -> Store.at_ d = r ->
  Store.deref (Store.pushRef st (Store.at_ a) r) (Store.at_ a) =
  Some (Store.cell (Store.withKids a (ks ++ [d]))).
Proof.
  intros Hd Hk Hr.
  rewrite (deref_pushRef_same _ _ _ (Store.cell a) (map Store.at_ ks) Hd).
  - unfold Store.cell. simpl. rewrite map_app. simpl. now rewrite Hr.
  - unfold Store.cell. simpl. now rewrite Hk.
Qed.

(** A single new object, as a placed tree. *)
Lemma placedIn_alloc (st : Store.Store) o (d : Store.Placed) (st' : Store.Store) :
  Store.at_ d = List.length st -> Store.kids d = None \/ Store.kids d = Some [] ->
  Store.cell d = o ->
  Store.deref st' (List.length st) = Some o ->
  (List.length st < List.length st')%nat ->
  Store.placedIn st' d.
Proof.
  intros Hat Hk Hcell Hd Hlen.
  assert (Hr : Store.refs d = [List.length st]).
  { rewrite refs_eq, Hat. destruct Hk as [-> | ->]; reflexivity. }
  split; [|split].
  - apply holds_node. split; [now rewrite Hat, Hcell|].
    intros ks k Hks Hin. destruct Hk as [Hk|Hk]; rewrite Hk in Hks;
      [discriminate | injection Hks as <-; destruct Hin].
  - rewrite Hr. repeat constructor. intros [].
  - rewrite Hr. intros r [<-|[]]. exact Hlen.
Qed.

Lemma walk_simulation p parts rest : forall index st a,
  Store.placedIn st a ->
  exists a',
    Store.evolves st a
      (fst (Store.walk p parts index rest st (Store.at_ a))) a' /\
    Store.erase a' = walk p parts index rest (Store.erase a).
Proof.
  induction rest as [|part rest IH]; intros index st a Hp.
  { exists a. split; [now apply evolves_refl | reflexivity]. }
  pose proof Hp as (Hh & Hn & Hb).
  assert (Ha : (Store.at_ a < List.length st)%nat) by apply Hb, refs_self.
  assert (Hroot : Store.deref st (Store.at_ a) = Some (Store.cell a))
    by (apply holds_node in Hh; tauto).
  cbn [Store.walk walk]. unfold Store.alloc. cbv beta iota.
  destruct (Nat.eqb index (List.length parts - 1)).
  - (* the last part: push a File *)
    rewrite childrenOf_placed by exact Hh.
    unfold push. rewrite erase_children, erase_name, erase_type, erase_path.
    destruct (Store.kids a) as [ks|] eqn:Hk; cbn [option_map].
    + set (n := List.length st).
      set (st2 := Store.pushRef (st ++ [Store.fileObj part p]) (Store.at_ a) n).
      set (d := Store.place n part file None p).
      assert (Hlen2 : List.length st2 = S n).
      { unfold st2. rewrite length_pushRef, length_app. simpl. lia. }
      assert (He : Store.evolves st a st2 (Store.withKids a (ks ++ [d]))).
      { apply evolves_append; auto.
        - unfold st2. apply pushRef_placed; auto.
          rewrite deref_app_old by exact Ha. exact Hroot.
        - apply (placedIn_alloc st (Store.fileObj part p) d st2); auto.
          + unfold st2. rewrite deref_pushRef_other by (unfold n; lia).
            apply deref_alloc.
          + unfold n in *. lia.
        - repeat constructor. intros [].
        - intros r [<-|[]]. unfold d, n in *. simpl. lia.
        - unfold n in *. lia.
        - intros r Hr Hne. unfold st2.
          rewrite deref_pushRef_other by congruence.
          now apply deref_app_old. }
      destruct (IH (S index) st2 (Store.withKids a (ks ++ [d])))
        as (a' & He' & Ha'); [apply He|].
      exists a'. split; [eapply evolves_trans; eauto|].
      rewrite Ha', erase_withKids, map_app. reflexivity.
    + destruct (IH (S index) st a Hp) as (a' & He' & Ha').
      exists a'. split; [exact He' | exact Ha'].
  - (* a directory part: find or create, and descend *)
    rewrite erase_children, erase_name, erase_type, erase_path.
    destruct (Store.kids a) as [ks|] eqn:Hk; cbn [option_map].
    + rewrite (findRef_placed st a ks part Hh Hk), findChild_erase.
      destruct (find (fun k => String.eqb (Store.placedName k) part) ks)
        as [k|] eqn:Hf; cbn [option_map].
      * destruct (find_split _ _ _ Hf) as (l1 & l2 & -> & Hl1 & Hkn).
        assert (Hpk : Store.placedIn st k)
          by (eapply placedIn_kid; eauto using in_elt).
        destruct (IH (S index) st k Hpk) as (k' & He' & Hk').
        exists (Store.withKids a (l1 ++ k' :: l2)). split.
        -- eapply evolves_replace; eauto.
        -- rewrite erase_withKids. f_equal. f_equal.
           rewrite !map_app. simpl. rewrite Hk'.
           symmetry. apply updateFound_split.
           ++ intros y Hy. apply in_map_iff in Hy.
              destruct Hy as (z & <- & Hz). rewrite erase_name.
              now apply Hl1.
           ++ rewrite erase_name. exact Hkn.
      * set (n := List.length st).
        set (o := Store.directoryObj parts part index).
        set (st2 := Store.pushRef (st ++ [o]) (Store.at_ a) n).
        set (d := Store.place n part directory (Some [])
                    (Str.join Str.slash (Str.slice0 (index + 1) parts))).
        assert (Hlen2 : List.length st2 = S n).
        { unfold st2. rewrite length_pushRef, length_app. simpl. lia. }
        assert (Hpd : Store.placedIn st2 d).
        { apply (placedIn_alloc st o d st2); auto.
          - unfold st2. rewrite deref_pushRef_other by (unfold n; lia).
            apply deref_alloc.
          - unfold n in *. lia. }
        destruct (IH (S index) st2 d Hpd) as (d' & He' & Hd').
        change (Store.at_ d) with n in He'.
        destruct He' as (Hat' & (Hh' & Hn' & Hb') & Hsub' & Hlen' & Hframe').
        exists (Store.withKids a (ks ++ [d'])). split.
        -- apply evolves_append; auto.
           ++ rewrite Hframe'; [| rewrite Hlen2; lia |].
              ** unfold st2. apply pushRef_placed; auto.
                 rewrite deref_app_old by exact Ha. exact Hroot.
              ** intros [H|[]]. unfold d, n in *. simpl in H. lia.
           ++ intros r Hr. split; [|now apply Hb'].
              destruct (Hsub' r Hr) as [[<-|[]]|H]; unfold d, n in *;
                simpl; lia.
           ++ unfold n in *. lia.
           ++ intros r Hr Hne. rewrite Hframe'.
              ** unfold st2. rewrite deref_pushRef_other by congruence.
                 now apply deref_app_old.
              ** unfold n in *. lia.
              ** intros [H|[]]. unfold d, n in *. simpl in H. lia.
        -- rewrite erase_withKids, map_app. simpl. rewrite Hd'. reflexivity.
    + (* [current] has no [children]: the new directory stays unattached *)
      unfold Store.findRef. rewrite childrenOf_placed, Hk by exact Hh.
      cbn [option_map].
      set (n := List.length st).
      set (o := Store.directoryObj parts part index).
      set (d := Store.place n part directory (Some [])
                  (Str.join Str.slash (Str.slice0 (index + 1) parts))).
      rewrite pushRef_leaf
        by (unfold Store.childrenOf; rewrite deref_app_old by exact Ha;
            rewrite Hroot; unfold Store.cell; simpl; now rewrite Hk).
      assert (Hpd : Store.placedIn (st ++ [o]) d).
      { apply (placedIn_alloc st o d); auto.
        - apply deref_alloc.
        - rewrite length_app. simpl. lia. }
      destruct (IH (S index) (st ++ [o]) d Hpd) as (d' & He' & _).
      change (Store.at_ d) with n in He'.
      destruct He' as (_ & _ & _ & Hlen' & Hframe').
      rewrite length_app in Hlen', Hframe'. simpl in Hlen', Hframe'.
      exists a. split; [|reflexivity].
      apply evolves_aside; [exact Hp | lia |].
      intros r Hr. rewrite Hframe'; [now apply deref_app_old | lia |].
      intros [H|[]]. unfold d, n in *. simpl in H. lia.
Qed.

End Simulation.

(** ** The whole build on the store *)

Section StoreBuild.

Lemma addPath_simulation p st a :
  Store.placedIn st a ->
  exists a',
    Store.evolves st a (Store.addPath (Store.at_ a) st p) a' /\
    Store.erase a' = addPath (Store.erase a) p.
Proof. intros Hp. apply walk_simulation, Hp. Qed.

Lemma fold_simulation ks : forall st a,
  Store.placedIn st a ->
  exists a',
    Store.evolves st a (fold_left (Store.addPath (Store.at_ a)) ks st) a' /\
    Store.erase a' = buildFrom (Store.erase a) ks.
Proof.
  induction ks as [|p ks IH]; intros st a Hp.
  - exists a. split; [now apply evolves_refl | reflexivity].
  - destruct (addPath_simulation p st a Hp) as (a1 & He1 & Ha1).
    destruct (IH (Store.addPath (Store.at_ a) st p) a1) as (a' & He' & Ha');
      [apply He1|].
    exists a'. split.
    + simpl. replace (Store.at_ a) with (Store.at_ a1) at 1 by apply He1.
      eapply evolves_trans; eauto.
    + rewrite Ha', Ha1. reflexivity.
Qed.

Lemma firstChild_placed st a :
  Store.placedIn st a ->
  Store.representsOption st (Store.firstChild st (Store.at_ a))
                         (firstChild (Store.erase a)).
Proof.
  intros Hp. unfold Store.firstChild, firstChild.
  rewrite childrenOf_placed by apply Hp. rewrite erase_children.
  destruct (Store.kids a) as [[|k ks]|] eqn:Hk; simpl; auto.
  assert (Hpk : Store.placedIn st k)
    by (eapply placedIn_kid; eauto; now left).
  exists k. repeat split; apply Hpk.
Qed.

(** The build leaves every object of the store it starts in as it is, and
    the reference it returns holds the tree that [buildTree] computes. *)
Lemma build_simulation (st : Store.Store) (files : FileMap) :
  (forall r, (r < List.length st)%nat ->
             Store.deref (fst (Store.build st files)) r = Store.deref st r) /\
  (List.length st <= List.length (fst (Store.build st files)))%nat /\
  Store.representsOption (fst (Store.build st files))
                         (snd (Store.build st files)) (buildTree files).
Proof.
  unfold Store.build, Store.alloc. cbv beta iota. cbn [fst snd].
  set (root := Store.place (List.length st) "Root" directory (Some []) "").
  assert (Hp : Store.placedIn (st ++ [Store.rootObj]) root).
  { apply (placedIn_alloc st Store.rootObj root); auto.
    - apply deref_alloc.
    - rewrite length_app. simpl. lia. }
  destruct (fold_simulation (keys files) _ root Hp) as (a' & He & Ha).
  change (Store.at_ root) with (List.length st) in He.
  set (st' := fold_left (Store.addPath (List.length st)) (keys files)
                        (st ++ [Store.rootObj])) in *.
  destruct He as (Hat & Hp' & _ & Hlen & Hframe). split; [|split].
  - intros r Hr. rewrite Hframe.
    + now apply deref_app_old.
    + rewrite length_app. simpl. lia.
    + intros [H|[]]. simpl in H. lia.
  - rewrite length_app in Hlen. simpl in Hlen. lia.
  - change (List.length st) with (Store.at_ root). rewrite <- Hat.
    unfold buildTree. rewrite buildRoot_buildFrom.
    change emptyRoot with (Store.erase root). rewrite <- Ha.
    now apply firstChild_placed.
Qed.

(** The store after the build is the store before it, followed by the
    objects the build has created. *)
Lemma build_extends (st : Store.Store) (files : FileMap) :
  exists created, fst (Store.build st files) = st ++ created.
Proof.
  destruct (build_simulation st files) as (Hframe & Hlen & _).
  set (st' := fst (Store.build st files)) in *.
  exists (skipn (List.length st) st').
  rewrite <- (firstn_skipn (List.length st) st') at 1. f_equal.
  apply nth_error_ext. intros r.
  destruct (Nat.lt_ge_cases r (List.length st)) as [Hr|Hr].
  - rewrite nth_error_firstn.
    destruct (Nat.ltb_spec r (List.length st)); [|lia]. now apply Hframe.
  - rewrite (proj2 (nth_error_None st r)) by exact Hr.
    apply nth_error_None. rewrite length_firstn. lia.
Qed.

End StoreBuild.

(** ** Walks that do not get stuck *)

Section Unstuck.

Variable ks : list string.
Variable p : string.
Hypothesis p_not_below : forall k, In k ks -> ~ slashPrefix k p.

(** No earlier path is a proper slash-prefix of [p]: the walk of [p]
    does not get stuck. *)
Lemma fresh_not_stuck rest : forall pre current cs,
  rest <> [] -> Str.split Str.slash p = pre ++ rest ->
  children current = Some cs -> Below (sound ks) pre current ->
  ~ stuck current rest.
Proof.
  induction rest as [|x rest IH]; intros pre current cs Hne Hp Hcs HB;
    [congruence|].
  destruct rest as [|y r].
  - rewrite stuck_last. congruence.
  - rewrite stuck_cons. intros [H|(cs' & c & Hcs' & Hf & H)]; [congruence|].
    rewrite Hcs in Hcs'. injection Hcs' as <-.
    destruct (fresh_descend ks p p_not_below _ _ _ _ _ _ _ Hp HB Hcs Hf)
      as (cs' & Hc).
    destruct (findChild_some _ _ _ Hf) as (Hx & l1 & l2 & -> & _).
    apply (IH (pre ++ [x]) c cs'); auto.
    + discriminate.
    + now rewrite <- app_assoc.
    + specialize (HB _ c Hcs (in_elt _ _ _)).
      apply EveryAt_node in HB. rewrite Hx in HB. exact (proj2 HB).
Qed.

End Unstuck.

(** ** The node that a chain of segments leads to *)

Section Reached.

#[local] Opaque insertAt.

Lemma findIndexed_nth part cs : forall i c,
  findIndexed part cs = Some (i, c) ->
  nth_error cs i = Some c /\ name c = part /\ In c cs.
Proof.
  induction cs as [|d cs IH]; intros i c; simpl; [discriminate|].
  destruct (String.eqb (name d) part) eqn:E.
  - intros [= <- <-]. apply String.eqb_eq in E. auto.
  - destruct (findIndexed part cs) as [[j e]|]; [|discriminate].
    simpl. intros [= <- <-]. destruct (IH j e eq_refl) as (H1 & H2 & H3). auto.
Qed.

Lemma nth_error_updateFound part f cs : forall i c,
  nth_error cs i = Some c ->
  nth_error (updateFound part f cs) i = Some c \/
  nth_error (updateFound part f cs) i = Some (f c).
Proof.
  induction cs as [|d cs IH]; intros i c H; [now destruct i|].
  simpl. destruct (String.eqb (name d) part).
  - destruct i; simpl in *; [injection H as ->; now right | now left].
  - destruct i; simpl in *; [now left | now apply IH].
Qed.

(** The node at a position keeps its fields [name], [type] and [path]
    through every later walk: only [children] arrays change. *)
Lemma nodeAt_insertAt q pos : forall rest pre current d,
  nodeAt current pos = Some d ->
  exists d', nodeAt (insertAt q pre rest current) pos = Some d' /\
             name d' = name d /\ type d' = type d /\ path d' = path d.
Proof.
  induction pos as [|i pos IH]; intros rest pre current d H.
  - injection H as <-. eexists. split; [reflexivity|].
    auto using insertAt_name, insertAt_type, insertAt_path.
  - cbn [nodeAt] in *.
    destruct (children current) as [cs|] eqn:Hcs; [|discriminate].
    destruct (nth_error cs i) as [c|] eqn:Hi; [|discriminate].
    rewrite (insertAt_children q rest pre current cs Hcs).
    assert (Hsame : forall l, nth_error l i = Some c ->
              exists d', match nth_error l i with
                         | Some c' => nodeAt c' pos
                         | None => None
                         end = Some d' /\
                         name d' = name d /\ type d' = type d /\
                         path d' = path d).
    { intros l ->. eauto. }
    assert (Happ : forall l, nth_error (cs ++ l) i = Some c).
    { intros l. rewrite nth_error_app1; [exact Hi|].
      apply nth_error_Some. congruence. }
    destruct rest as [|z [|w r]]; auto.
    destruct (findChild z cs); auto.
    destruct (nth_error_updateFound z (insertAt q (pre ++ [z]) (w :: r)) cs i c Hi)
      as [E|E]; [auto|].
    rewrite E. now apply IH.
Qed.

Lemma nodeAt_buildFrom ks pos : forall root d,
  nodeAt root pos = Some d ->
  exists d', nodeAt (buildFrom root ks) pos = Some d' /\
             name d' = name d /\ type d' = type d /\ path d' = path d.
Proof.
  unfold buildFrom. induction ks as [|k ks IH]; intros root d H; [eauto|].
  simpl. rewrite addPath_insertAt.
  destruct (nodeAt_insertAt k pos (Str.split Str.slash k) [] root d H)
    as (d1 & H1 & Hn & Ht & Hp).
  destruct (IH _ _ H1) as (d2 & H2 & Hn2 & Ht2 & Hp2).
  exists d2. split; [exact H2|]. repeat split; congruence.
Qed.

(** The node that a chain of segments leads to is a node of the tree, at
    that chain. *)
Lemma resolve_reaches (P : list string -> FileNode -> Prop) ds :
  forall pre current pos,
    ds <> [] -> Below P pre current -> resolve current ds = Some pos ->
    exists d, nodeAt current pos = Some d /\ name d = last ds "" /\
              P (pre ++ ds) d.
Proof.
  induction ds as [|x ds IH]; intros pre current pos Hne HB H; [congruence|].
  cbn [resolve] in H.
  destruct (children current) as [cs|] eqn:Hcs; [|discriminate].
  destruct (findIndexed x cs) as [[i c]|] eqn:Hx; [|discriminate].
  destruct (resolve c ds) as [pos'|] eqn:Hr; [|discriminate].
  injection H as <-.
  destruct (findIndexed_nth _ _ _ _ Hx) as (Hi & Hname & Hc).
  specialize (HB cs c Hcs Hc). apply EveryAt_node in HB.
  rewrite Hname in HB. destruct HB as [HP HB].
  cbn [nodeAt]. rewrite Hcs, Hi.
  destruct ds as [|y ds].
  - injection Hr as <-. exists c. auto.
  - destruct (IH (pre ++ [x]) c pos' ltac:(discriminate) HB Hr)
      as (d & Hd & Hn & HPd).
    exists d. split; [exact Hd|]. split; [exact Hn|].
    now rewrite <- app_assoc in HPd.
Qed.

End Reached.

(** * The claims of the specification *)

(** ** C1: one root, one File node per path *)

(** C1 as stated fails.  The two paths [a/b] and [a/b/c] are unique and
    share the top-level segment [a], but the walk of [a/b/c] runs into
    the File node [b] and pushes nothing: the tree has one File node for
    two paths. *)
Lemma shadowed_path_adds_no_leaf :
  NoDup (keys (mapOf ["a/b"; "a/b/c"])) /\
  commonTop "a" (mapOf ["a/b"; "a/b/c"]) /\
  ~ oneRootAllLeaves (mapOf ["a/b"; "a/b/c"]).
Proof.
  split; [|split].
  - repeat constructor; simpl; intuition discriminate.
  - split; [discriminate|]. intros p [<-|[<-|[]]]; reflexivity.
  - intros (t & _ & Ht & Hn). vm_compute in Ht. injection Ht as <-.
    vm_compute in Hn. discriminate.
Qed.

(** C1, amended: for every non-empty flat mapping with N unique paths
    that share a common top-level segment and of which none is a proper
    slash-prefix of another, the builder produces exactly one root node,
    and the number of File nodes of the resulting tree equals N. *)
Theorem one_root_and_a_leaf_per_path (files : FileMap) (s : string) :
  NoDup (keys files) -> prefixFree (keys files) -> commonTop s files ->
  oneRootAllLeaves files.
Proof.
  intros Hn Hp [Hne Htop].
  assert (Hk : keys files <> []) by (destruct files; [congruence | discriminate]).
  destruct (single_root (keys files) s Hk Hn Hp Htop) as (t & Ht).
  exists t. rewrite buildRoot_buildFrom. split; [exact Ht|]. split.
  - unfold buildTree, firstChild. now rewrite buildRoot_buildFrom, Ht.
  - pose proof (buildFrom_countFiles (keys files) Hn Hp) as Hc.
    rewrite countFiles_node, Ht in Hc. unfold isFile in Hc.
    rewrite buildFrom_type in Hc. simpl in Hc.
    unfold keys in Hc. rewrite length_map in Hc. lia.
Qed.

Lemma one_root_and_a_leaf_per_path_witness :
  oneRootAllLeaves (mapOf ["a/b.txt"; "a/c.txt"; "a/d/e"]).
Proof.
  apply (one_root_and_a_leaf_per_path _ "a").
  - repeat constructor; simpl; intuition discriminate.
  - intros p q Hp Hq (more & E). simpl in Hp, Hq.
    decompose [or] Hp; decompose [or] Hq; subst; try tauto; discriminate.
  - split; [discriminate|]. simpl. intros p Hp.
    decompose [or] Hp; subst; try tauto; reflexivity.
Defined.

(** ** C2: directories are shared, never duplicated *)

Lemma Every_child (P : FileNode -> Prop) (n c : FileNode) cs :
  Every P n -> children n = Some cs -> In c cs -> Every P c.
Proof. intros H Hcs Hc. apply Every_node in H. eapply (proj2 H); eauto. Qed.

(** C2 as stated fails.  In the mapping [a], [a/b/c], [a/b/d] the paths
    [a/b/c] and [a/b/d] share the directory segments [a] and [b], but the
    segment [a] leads both walks to the File node [a], which has no
    [children]: each walk makes a Directory [b] of its own, which is
    pushed nowhere, and ends with [current] on it.  The store holds two
    Directory objects [b] with the path [a/b], one with the file [c] and
    one with the file [d], and the tree holds no Directory [b] at all. *)
Lemma directory_below_a_file_is_made_twice :
  snd (Store.walk "a/b/c" ["a"; "b"; "c"] 0 ["a"; "b"; "c"]
         (Store.addPath 0 [Store.rootObj] "a") 0) = 2%nat /\
  snd (Store.walk "a/b/d" ["a"; "b"; "d"] 0 ["a"; "b"; "d"]
         (Store.addPath 0 (Store.addPath 0 [Store.rootObj] "a") "a/b/c") 0)
  = 4%nat /\
  fst (Store.walk "a/b/d" ["a"; "b"; "d"] 0 ["a"; "b"; "d"]
         (Store.addPath 0 (Store.addPath 0 [Store.rootObj] "a") "a/b/c") 0)
  = fst (Store.build [] (mapOf ["a"; "a/b/c"; "a/b/d"])) /\
  Store.deref (fst (Store.build [] (mapOf ["a"; "a/b/c"; "a/b/d"]))) 2 =
  Some (Store.mkObj "b" directory (Some [3%nat]) "a/b") /\
  Store.deref (fst (Store.build [] (mapOf ["a"; "a/b/c"; "a/b/d"]))) 4 =
  Some (Store.mkObj "b" directory (Some [5%nat]) "a/b") /\
  resolve (buildRoot (mapOf ["a"; "a/b/c"; "a/b/d"])) ["a"; "b"] = None /\
  directoryChains (buildRoot (mapOf ["a"; "a/b/c"; "a/b/d"])) = [["Root"]].
Proof. repeat split. Qed.

(** C2, amended: for every flat mapping, any two paths that share a
    prefix of directory segments, such that no path iterated before the
    earlier of the two is a proper slash-prefix of it, resolve at every
    shared level to one and the same Directory node: the node that the
    shared segments lead to after the walk of the earlier path is the node
    that they lead to when the walk of the later path starts, when it
    ends, and in the finished tree, and it is a Directory with the last
    shared segment as its name and the joined shared segments as its
    path.  With no condition on the mapping, the tree never holds two
    Directory nodes reached by the same chain of names, and the node that
    a chain of segments leads to stays the same for the rest of the build.
    The paths [a/b.txt] and [a/c.txt] give a single Directory [a] with the
    two files. *)
Theorem directories_never_duplicated (files : FileMap) :
  NoDup (directoryChains (buildRoot files)) /\
  (forall t, buildTree files = Some t -> NoDup (directoryChains t)) /\
  (forall ks1 ks2 ds pos,
     keys files = ks1 ++ ks2 ->
     resolve (buildFrom emptyRoot ks1) ds = Some pos ->
     resolve (buildRoot files) ds = Some pos) /\
  (forall ks1 p ks2 q ks3 ds more more',
     keys files = ks1 ++ p :: ks2 ++ q :: ks3 ->
     Str.split Str.slash p = ds ++ more -> more <> [] ->
     Str.split Str.slash q = ds ++ more' -> more' <> [] ->
     ds <> [] ->
     (forall k, In k ks1 -> ~ slashPrefix k p) ->
     exists pos d,
       resolve (buildFrom emptyRoot (ks1 ++ [p])) ds = Some pos /\
       resolve (buildFrom emptyRoot (ks1 ++ p :: ks2)) ds = Some pos /\
       resolve (buildFrom emptyRoot (ks1 ++ p :: ks2 ++ [q])) ds = Some pos /\
       resolve (buildRoot files) ds = Some pos /\
       nodeAt (buildRoot files) pos = Some d /\
       type d = directory /\ name d = last ds "" /\
       path d = Str.join Str.slash ds) /\
  (forall f g : File,
     buildTree [("a/b.txt", f); ("a/c.txt", g)] =
     Some (mkFileNode "a" directory
             (Some [newFile "b.txt" "a/b.txt"; newFile "c.txt" "a/c.txt"])
             "a")).
Proof.
  pose proof (buildFrom_wellTyped (keys files)) as Hw.
  pose proof (buildFrom_directoriesDistinct (keys files)) as Hd.
  split; [|split; [|split; [|split]]].
  - now apply directoryChains_NoDup.
  - intros t Ht. destruct (buildTree_in_root _ _ Ht) as (cs & Hcs).
    apply directoryChains_NoDup.
    + eapply Every_child; [exact Hw | exact Hcs | now left].
    + eapply Every_child; [exact Hd | exact Hcs | now left].
  - intros ks1 ks2 ds pos Hk Hr.
    rewrite buildRoot_buildFrom, Hk. unfold buildFrom. rewrite fold_left_app.
    now apply resolve_buildFrom.
  - intros ks1 p ks2 q ks3 ds more more' Hk Hp Hm Hq Hm' Hds Hfresh.
    set (T := buildFrom emptyRoot (ks1 ++ [p])).
    assert (Hs : ~ stuck (buildFrom emptyRoot ks1) (ds ++ more)).
    { destruct (buildFrom_children ks1 emptyRoot [] eq_refl) as (cs & Hcs & _).
      rewrite <- Hp.
      apply (fresh_not_stuck ks1 p Hfresh _ [] _ cs);
        auto using StrFacts.split_nonempty, buildFrom_sound. }
    destruct (resolve_walked p ds [] more _ Hm Hs) as (pos & Hpos).
    rewrite <- Hp, <- buildFrom_app in Hpos. fold T in Hpos.
    assert (Hlater : forall ks, resolve (buildFrom T ks) ds = Some pos)
      by (intros ks; now apply resolve_buildFrom).
    assert (Hstage : forall ks, buildFrom emptyRoot (ks1 ++ p :: ks) =
                                buildFrom T ks).
    { intros ks. unfold T, buildFrom.
      change (ks1 ++ p :: ks) with (ks1 ++ [p] ++ ks).
      now rewrite app_assoc, fold_left_app. }
    destruct (resolve_reaches (sound (ks1 ++ [p])) ds [] T pos Hds
                (buildFrom_sound _) Hpos) as (d & Hd1 & Hn & Hsound & Hkeys).
    assert (Hty : type d = directory).
    { destruct (type d) eqn:E; [exfalso|reflexivity].
      unfold fromKeys in Hkeys. rewrite E in Hkeys. simpl in Hkeys.
      destruct Hkeys as [Hin Hsplit].
      apply in_app_iff in Hin. destruct Hin as [Hin|[Hin|[]]].
      - apply (Hfresh _ Hin). apply slashPrefix_split.
        exists more. split; [exact Hm|]. now rewrite Hsplit.
      - rewrite <- Hin, Hp in Hsplit.
        rewrite <- (app_nil_r ds) in Hsplit at 2.
        apply app_inv_head in Hsplit. congruence. }
    assert (Hpath : path d = Str.join Str.slash ds).
    { unfold fromKeys in Hkeys. rewrite Hty in Hkeys. exact (proj1 Hkeys). }
    destruct (nodeAt_buildFrom (ks2 ++ q :: ks3) pos T d Hd1)
      as (d' & Hd' & Hn' & Ht' & Hp').
    assert (Hfinal : buildRoot files = buildFrom T (ks2 ++ q :: ks3))
      by now rewrite buildRoot_buildFrom, Hk, Hstage.
    exists pos, d'. rewrite !Hstage, Hfinal.
    repeat split; auto; congruence.
  - intros f g. reflexivity.
Qed.

Lemma directories_never_duplicated_witness :
  exists pos d,
    resolve (buildFrom emptyRoot ([] ++ ["a/b/x.txt"])) ["a"; "b"] = Some pos /\
    resolve (buildFrom emptyRoot ([] ++ "a/b/x.txt" :: ["a/c"])) ["a"; "b"]
    = Some pos /\
    resolve (buildFrom emptyRoot ([] ++ "a/b/x.txt" :: ["a/c"] ++ ["a/b/y.txt"]))
            ["a"; "b"] = Some pos /\
    resolve (buildRoot (mapOf ["a/b/x.txt"; "a/c"; "a/b/y.txt"; "a/b"]))
            ["a"; "b"] = Some pos /\
    nodeAt (buildRoot (mapOf ["a/b/x.txt"; "a/c"; "a/b/y.txt"; "a/b"])) pos
    = Some d /\
    type d = directory /\ name d = last ["a"; "b"] "" /\
    path d = Str.join Str.slash ["a"; "b"].
Proof.
  apply (proj1 (proj2 (proj2 (proj2 (directories_never_duplicated
                   (mapOf ["a/b/x.txt"; "a/c"; "a/b/y.txt"; "a/b"])))))
           [] "a/b/x.txt" ["a/c"] "a/b/y.txt" ["a/b"] ["a"; "b"]
           ["x.txt"] ["y.txt"]).
  - reflexivity.
  - reflexivity.
  - discriminate.
  - reflexivity.
  - discriminate.
  - discriminate.
  - intros k [].
Defined.

(** ** C3: the displayed tree is the first child of the synthetic root *)

(** C3: the builder returns the first child of the synthetic root.  For
    the empty mapping that is no tree.  For a mapping that starts with the
    path [p0], it is the node named by the top-level segment of [p0], and
    it is the tree that the entries with that top-level segment give on
    their own: the entries with another top-level segment are dropped. *)
Theorem first_top_level_entry_only :
  buildTree [] = None /\
  buildTree (mapOf ["a/x"; "b/y"; "a/z"]) =
    Some (mkFileNode "a" directory
            (Some [newFile "x" "a/x"; newFile "z" "a/z"]) "a") /\
  forall (p0 : string) (f0 : File) (rest : FileMap),
    let files := (p0, f0) :: rest in
    buildTree files = firstChild (buildRoot files) /\
    (exists t, buildTree files = Some t /\ name t = topSegment p0) /\
    buildTree files =
    buildTree (filter (fun e => String.eqb (topSegment (fst e)) (topSegment p0))
                      files).
Proof.
  split; [reflexivity|]. split; [reflexivity|]. intros p0 f0 rest files.
  destruct (buildTree_cons p0 f0) as (c & Hn & Hb).
  split; [reflexivity|]. split.
  - eexists. split; [apply Hb|]. now rewrite fold_stepFirst_name.
  - unfold files. simpl. rewrite String.eqb_refl, !Hb. f_equal.
    rewrite (keys_filter (fun k => String.eqb (topSegment k) (topSegment p0))).
    rewrite <- Hn. apply fold_stepFirst_filter.
Qed.

(** ** C4: names of the children of a node *)

(** C4 as stated fails.  The unique paths [a/b/c] and [a/b] give the
    Directory [a] two children named [b]: the Directory created for the
    first path, and the File pushed for the second one, which is not
    matched against the existing children. *)
Lemma file_pushed_beside_directory_of_same_name :
  NoDup (keys (mapOf ["a/b/c"; "a/b"])) /\
  ~ childNamesUnique (mapOf ["a/b/c"; "a/b"]).
Proof.
  split; [repeat constructor; simpl; intuition discriminate|].
  intros H.
  specialize (H _ ["a"] _ _ eq_refl (or_introl eq_refl) eq_refl).
  simpl in H. inversion H as [|? ? Hnot _]. apply Hnot. now left.
Qed.

(** C4, amended: in every tree produced by the builder from a flat
    mapping with unique paths of which none is a proper slash-prefix of
    another, no Directory node's children sequence contains two entries
    with the same name. *)
Theorem children_names_unique (files : FileMap) :
  NoDup (keys files) -> prefixFree (keys files) -> childNamesUnique files.
Proof.
  intros Hn Hp t ch n cs Ht Hin Hcs.
  destruct (buildTree_in_root _ _ Ht) as (cs0 & Hcs0).
  pose proof (buildFrom_namesDistinct (keys files) Hn Hp) as HE.
  assert (Ht' : Every namesDistinct t)
    by (eapply Every_child; [exact HE | exact Hcs0 | now left]).
  exact (Ht' ch n Hin cs Hcs).
Qed.

Lemma children_names_unique_witness :
  childNamesUnique (mapOf ["a/b.txt"; "a/c.txt"; "a/d/e"]).
Proof.
  apply children_names_unique.
  - repeat constructor; simpl; intuition discriminate.
  - intros p q Hp Hq (more & E). simpl in Hp, Hq.
    decompose [or] Hp; decompose [or] Hq; subst; try tauto; discriminate.
Defined.

(** ** C6: the [path] fields *)

(** C6: in every tree produced by the builder, a Directory node's [path]
    is the slash-joined chain of names from the top of the tree down to
    and including that node, and a File node's [path] is a key of the
    mapping, the one whose segments are the chain of names down to that
    node. *)
Theorem path_fields (files : FileMap) (t : FileNode)
        (ch : list string) (n : FileNode) :
  buildTree files = Some t -> In (ch, n) (located t) ->
  match type n with
  | directory => path n = Str.join Str.slash ch
  | file => In (path n) (keys files) /\ Str.split Str.slash (path n) = ch
  end.
Proof.
  intros Ht Hin. destruct (buildTree_sound files t Ht ch n Hin) as [_ Hk].
  unfold fromKeys in Hk. destruct (type n); tauto.
Qed.

Lemma path_fields_witness :
  path (mkFileNode "d" directory (Some [newFile "e" "a/d/e"]) "a/d") =
  Str.join Str.slash ["a"; "d"].
Proof.
  apply (path_fields (mapOf ["a/b.txt"; "a/d/e"])
           (mkFileNode "a" directory
              (Some [newFile "b.txt" "a/b.txt";
                     mkFileNode "d" directory (Some [newFile "e" "a/d/e"]) "a/d"])
              "a")
           ["a"; "d"]
           (mkFileNode "d" directory (Some [newFile "e" "a/d/e"]) "a/d")).
  - reflexivity.
  - simpl. right. right. now left.
Defined.

(** ** C9: a path below an earlier File path *)

(** C9 as stated fails.  In the mapping [a/b/c], [a/b], [a/b/d] the path
    [a/b] comes before [a/b/d] and is a proper slash-prefix of it, but the
    walk of [a/b/d] finds the Directory [b] made for [a/b/c], which stands
    before the File [b], and pushes [d] there: removing [a/b/d] changes
    the tree. *)
Lemma directory_before_file_is_found_first :
  slashPrefix "a/b" "a/b/d" /\
  buildTree (mapOf (["a/b/c"] ++ "a/b" :: [] ++ "a/b/d" :: [])) <>
  buildTree (mapOf (["a/b/c"] ++ "a/b" :: [] ++ [])).
Proof.
  split; [now exists "d"|]. vm_compute. discriminate.
Qed.

Lemma keys_app (a b : FileMap) : keys (a ++ b) = keys a ++ keys b.
Proof. apply map_app. Qed.

Lemma buildFrom_app2 root a b :
  buildFrom root (a ++ b) = buildFrom (buildFrom root a) b.
Proof. apply fold_left_app. Qed.

Lemma buildFrom_cons root a b :
  buildFrom root (a :: b) = buildFrom (addPath root a) b.
Proof. reflexivity. Qed.

(** C9, amended: for every flat mapping in which a path [p] is iterated
    before a path [q] of which it is a proper slash-prefix, and no path
    iterated before [p] has [p] as a proper slash-prefix, the walk of [q]
    contributes no node: it leaves the synthetic root as it finds it, and
    the tree under the synthetic root, and so the displayed tree, built
    from the mapping equals the one built from the same mapping with [q]
    removed. *)
Theorem shadowed_path_contributes_nothing
        (l1 l2 l3 : FileMap) (p q : string) (f g : File) :
  slashPrefix p q ->
  (forall k, In k (keys l1) -> ~ slashPrefix p k) ->
  addPath (buildRoot (l1 ++ (p, f) :: l2)) q = buildRoot (l1 ++ (p, f) :: l2) /\
  buildRoot (l1 ++ (p, f) :: l2 ++ (q, g) :: l3) =
  buildRoot (l1 ++ (p, f) :: l2 ++ l3) /\
  buildTree (l1 ++ (p, f) :: l2 ++ (q, g) :: l3) =
  buildTree (l1 ++ (p, f) :: l2 ++ l3).
Proof.
  intros Hpq Hk.
  set (T := buildFrom (addPath (buildFrom emptyRoot (keys l1)) p) (keys l2)).
  assert (HT : buildRoot (l1 ++ (p, f) :: l2) = T).
  { rewrite buildRoot_buildFrom, keys_app. simpl.
    now rewrite buildFrom_app2, buildFrom_cons. }
  assert (Hq : addPath T q = T).
  { rewrite addPath_insertAt.
    apply stuck_insertAt, stuck_buildFrom.
    apply slashPrefix_split in Hpq. destruct Hpq as (more & Hne & ->).
    rewrite addPath_insertAt.
    apply (shadow (keys l1)); auto using StrFacts.split_nonempty, buildFrom_sound. }
  assert (Hroot : buildRoot (l1 ++ (p, f) :: l2 ++ (q, g) :: l3) =
                  buildRoot (l1 ++ (p, f) :: l2 ++ l3)).
  { rewrite !buildRoot_buildFrom, !keys_app. simpl. rewrite !keys_app. simpl.
    rewrite !buildFrom_app2, !buildFrom_cons, !buildFrom_app2, !buildFrom_cons.
    fold T. now rewrite Hq. }
  split; [now rewrite HT|]. split; [exact Hroot|].
  unfold buildTree. now rewrite Hroot.
Qed.

Lemma shadowed_path_contributes_nothing_witness :
  addPath (buildRoot (mapOf ["a/z"] ++ ("a/b", someFile) :: mapOf ["a/c"]))
          "a/b/d" =
  buildRoot (mapOf ["a/z"] ++ ("a/b", someFile) :: mapOf ["a/c"]) /\
  buildRoot (mapOf ["a/z"] ++ ("a/b", someFile) ::
             mapOf ["a/c"] ++ ("a/b/d", someFile) :: mapOf ["a/e"]) =
  buildRoot (mapOf ["a/z"] ++ ("a/b", someFile) ::
             mapOf ["a/c"] ++ mapOf ["a/e"]) /\
  buildTree (mapOf ["a/z"] ++ ("a/b", someFile) ::
             mapOf ["a/c"] ++ ("a/b/d", someFile) :: mapOf ["a/e"]) =
  buildTree (mapOf ["a/z"] ++ ("a/b", someFile) ::
             mapOf ["a/c"] ++ mapOf ["a/e"]).
Proof.
  apply (shadowed_path_contributes_nothing
           (mapOf ["a/z"]) (mapOf ["a/c"]) (mapOf ["a/e"])
           "a/b" "a/b/d" someFile someFile).
  - now exists "d".
  - intros k [<-|[]] (more & E). discriminate.
Defined.

(** ** C5: the byte-size formatter *)

Lemma formatted_quotient (n : Z) (d : positive) :
  (Zpos d <= n)%Z ->
  exists m, nearestHundredth n (Zpos d) m /\
            Num.toFixed (Num.div n (Zpos d)) 2 = twoDecimals m.
Proof.
  intros Hn.
  set (m := ((200 * n + Zpos d) / (2 * Zpos d))%Z).
  assert (Hdm : (2 * Zpos d * m <= 200 * n + Zpos d < 2 * Zpos d * (m + 1))%Z).
  { unfold m.
    pose proof (Z.mul_div_le (200 * n + Zpos d) (2 * Zpos d)).
    pose proof (Z.mul_succ_div_gt (200 * n + Zpos d) (2 * Zpos d)).
    lia. }
  assert (Hm : (100 <= m)%Z) by nia.
  exists (Z.to_N m). split.
  - unfold nearestHundredth. rewrite Z2N.id by lia. lia.
  - apply FixedFacts.toFixed_two; [lia | exact Hm].
Qed.

(** C5: for every non-negative integer byte count [n] (a safe integer,
    the integers a Number holds exactly), the formatter returns the
    numeral of [n] and [" bytes"] when [n < 1024], and otherwise the
    quotient of [n] by 1024, 1048576 or 1073741824, whichever tier [n]
    falls in, to two decimals, and [" KB"], [" MB"] or [" GB"]; with the
    six values the specification lists. *)
Theorem formatFileSize_tiers (n : Z) :
  (0 <= n <= Num.MAX_SAFE_INTEGER)%Z ->
  ((n < 1024)%Z ->
     formatFileSize n = (Num.digits (Z.to_N n) ++ " bytes")%string) /\
  ((1024 <= n < 1048576)%Z ->
     exists m, nearestHundredth n 1024 m /\
               formatFileSize n = (twoDecimals m ++ " KB")%string) /\
  ((1048576 <= n < 1073741824)%Z ->
     exists m, nearestHundredth n 1048576 m /\
               formatFileSize n = (twoDecimals m ++ " MB")%string) /\
  ((1073741824 <= n)%Z ->
     exists m, nearestHundredth n 1073741824 m /\
               formatFileSize n = (twoDecimals m ++ " GB")%string) /\
  formatFileSize 0 = "0 bytes" /\
  formatFileSize 1023 = "1023 bytes" /\
  formatFileSize 1024 = "1.00 KB" /\
  formatFileSize 1536 = "1.50 KB" /\
  formatFileSize 1048576 = "1.00 MB" /\
  formatFileSize 1073741824 = "1.00 GB".
Proof.
  intros [H0 _]. unfold formatFileSize.
  split; [|split; [|split; [|split]]].
  - intros H. destruct (Z.ltb_spec n 1024); [|lia].
    unfold Num.toString. destruct (Z.ltb_spec n 0); [lia | reflexivity].
  - intros [H1 H2].
    destruct (Z.ltb_spec n 1024); [lia|].
    destruct (Z.ltb_spec n 1048576); [|lia].
    destruct (formatted_quotient n 1024 H1) as (m & Hm & ->). eauto.
  - intros [H1 H2].
    destruct (Z.ltb_spec n 1024); [lia|].
    destruct (Z.ltb_spec n 1048576); [lia|].
    destruct (Z.ltb_spec n 1073741824); [|lia].
    destruct (formatted_quotient n 1048576 H1) as (m & Hm & ->). eauto.
  - intros H1.
    destruct (Z.ltb_spec n 1024); [lia|].
    destruct (Z.ltb_spec n 1048576); [lia|].
    destruct (Z.ltb_spec n 1073741824); [lia|].
    destruct (formatted_quotient n 1073741824 H1) as (m & Hm & ->). eauto.
  - repeat split; vm_compute; reflexivity.
Qed.

Lemma formatFileSize_tiers_witness :
  formatFileSize 1152 = "1.13 KB" /\
  exists m, nearestHundredth 1152 1024 m /\
            formatFileSize 1152 = (twoDecimals m ++ " KB")%string.
Proof.
  split; [vm_compute; reflexivity|].
  apply (proj1 (proj2 (formatFileSize_tiers 1152 ltac:(vm_compute; split; discriminate)))).
  lia.
Defined.

(** ** C7: the builder as a function of the mapping *)

(** C7: the build changes no object that exists before it runs: the
    store afterwards is the store before, followed by the objects the
    build has created.  The object graph it returns holds the tree
    [buildTree files], whatever store it runs in, so two runs on the same
    mapping give structurally identical trees.  On the page, the tree that
    [updateFileTree] stores does not depend on the state before, a second
    run on the same mapping changes nothing, the selected file is left as
    it was and the loading flag ends off. *)
Theorem updateFileTree_pure_and_deterministic
        (files : FileMap) (st st' : Store.Store) (s s' : PageState) :
  (exists created, fst (Store.build st files) = st ++ created) /\
  Store.representsOption (fst (Store.build st files))
                         (snd (Store.build st files)) (buildTree files) /\
  Store.representsOption (fst (Store.build st' files))
                         (snd (Store.build st' files)) (buildTree files) /\
  fileTree (updateFileTree files s) = buildTree files /\
  fileTree (updateFileTree files s) = fileTree (updateFileTree files s') /\
  updateFileTree files (updateFileTree files s) = updateFileTree files s /\
  selectedFile (updateFileTree files s) = selectedFile s /\
  isLoading (updateFileTree files s) = false.
Proof.
  split; [apply build_extends|].
  split; [apply build_simulation|].
  split; [apply build_simulation|].
  repeat split.
Qed.

(** ** C8: selecting a path that is not a key *)

(** C8: for every selection whose path is not a key of the current flat
    mapping, the selection handler returns the state it was given: the
    selected file, and everything else, stays as it was. *)
Theorem handleFileSelect_miss (files : FileMap) (p : string) (s : PageState) :
  get files p = None -> handleFileSelect files p s = s.
Proof. intros H. unfold handleFileSelect. now rewrite H. Qed.

Lemma handleFileSelect_miss_witness :
  handleFileSelect (mapOf ["a/b.txt"]) "a"
    (mkPageState None (Some someFile) false) =
  mkPageState None (Some someFile) false.
Proof. apply handleFileSelect_miss. reflexivity. Defined.

(** ** C10: the selection is never cleared *)

Lemma step_selected (w : World) (e : Event) (f : File) :
  selectedFile (page w) = Some f ->
  exists f', selectedFile (page (step w e)) = Some f'.
Proof.
  intros H. destruct e; simpl; eauto.
  unfold handleFileSelect. destruct (get (files w) p) as [g|]; simpl; eauto.
  destruct (truthy g); simpl; eauto.
Qed.

(** C10: the selected file starts empty; a step of the page changes it
    only on a click whose path is a key of the mapping, to the file stored
    under that key; and once a file is selected, a file is selected after
    every further sequence of rebuilds, notifications and clicks. *)
Theorem selection_never_cleared :
  selectedFile (page initialWorld) = None /\
  (forall w e,
     selectedFile (page (step w e)) = selectedFile (page w) \/
     exists p f, e = Clicked p /\ get (files w) p = Some f /\
                 selectedFile (page (step w e)) = Some f) /\
  (forall w es,
     selectedFile (page w) <> None ->
     selectedFile (page (run w es)) <> None).
Proof.
  split; [reflexivity|]. split.
  - intros w e. destruct e; simpl; try (left; reflexivity).
    unfold handleFileSelect. destruct (get (files w) p) as [f|] eqn:E.
    + destruct (truthy f); [|now left]. right. exists p, f. auto.
    + now left.
  - intros w es. revert w. unfold run.
    induction es as [|e es IH]; intros w H; [exact H|].
    simpl. apply IH.
    destruct (selectedFile (page w)) as [f|] eqn:E; [|congruence].
    destruct (step_selected w e f E) as (f' & ->). discriminate.
Qed.

Lemma selection_never_cleared_witness :
  selectedFile
    (page (run (mkWorld (mapOf ["a/b.txt"])
                        (mkPageState None (Some someFile) false))
               [FilesDeleted []; FilesReplaced []; Clicked "a/b.txt";
                FilesChanged (mapOf ["a/b.txt"])]))
  <> None.
Proof.
  apply (proj2 (proj2 selection_never_cleared)). discriminate.
Defined.

(** * Further properties of the code *)

(** ** Parts of a path hold no separator *)

Section Parts.

Lemma split_part (sep : ascii) (s x : string) :
  In x (Str.split sep s) -> Str.split sep x = [x].
Proof.
  revert x. induction s as [|c s IH]; intros x; simpl.
  - intros [<-|[]]. reflexivity.
  - destruct (Ascii.eqb c sep) eqn:E.
    + intros [<-|H]; [reflexivity | now apply IH].
    + pose proof (StrFacts.split_nonempty sep s) as Hne.
      destruct (Str.split sep s) as [|q qs]; [congruence|].
      intros [<-|H].
      * simpl. rewrite E, (IH q) by now left. reflexivity.
      * apply IH. now right.
Qed.

Lemma split_join (sep : ascii) (parts : list string) :
  parts <> [] -> (forall x, In x parts -> Str.split sep x = [x]) ->
  Str.split sep (Str.join sep parts) = parts.
Proof.
  intros Hne Hx. induction parts as [|x parts IH]; [congruence|].
  destruct parts as [|y parts].
  - simpl. apply Hx. now left.
  - rewrite StrFacts.join_cons by discriminate.
    rewrite StrFacts.split_app, (Hx x) by now left.
    rewrite IH; [reflexivity | discriminate |].
    intros z Hz. apply Hx. now right.
Qed.

Lemma located_nonempty (n m : FileNode) (ch : list string) :
  In (ch, m) (located n) -> ch <> [].
Proof. intros H. apply located_head in H. destruct H as (t & ->). discriminate. Qed.

(** The two readings of the [path] field of a node of a built tree. *)
Lemma sound_path ks ch n :
  ch <> [] -> sound ks ch n ->
  path n = Str.join Str.slash ch /\ Str.split Str.slash (path n) = ch.
Proof.
  intros Hne [_ Hk]. unfold fromKeys in Hk. destruct (type n).
  - destruct Hk as [_ Hs]. split; [|exact Hs].
    now rewrite <- Hs, StrFacts.join_split.
  - destruct Hk as (Hp & k & more & _ & _ & Hs). split; [exact Hp|].
    rewrite Hp. apply split_join; [exact Hne|].
    intros x Hx. apply (split_part Str.slash k). rewrite Hs.
    apply in_app_iff. now left.
Qed.

End Parts.

(** ** X1: the [path] field and the place of a node *)

(** X1: in every tree produced by the builder, the [path] field of a node,
    split at the separators, gives back the names from the top of the
    tree down to the node, and joining those names gives back the field;
    so the [path] of a node tells its place, and the [path] of a node is
    a proper slash-prefix of the [path] of every node below it. *)
Theorem path_names_the_place (files : FileMap) (t : FileNode) :
  buildTree files = Some t ->
  (forall ch n, In (ch, n) (located t) ->
     Str.split Str.slash (path n) = ch /\ path n = Str.join Str.slash ch) /\
  (forall ch more n m,
     In (ch, n) (located t) -> In (ch ++ more, m) (located t) -> more <> [] ->
     slashPrefix (path n) (path m)).
Proof.
  intros Ht.
  assert (H : forall ch n, In (ch, n) (located t) ->
            Str.split Str.slash (path n) = ch /\
            path n = Str.join Str.slash ch).
  { intros ch n Hin.
    destruct (sound_path (keys files) ch n) as [H1 H2]; auto.
    - eapply located_nonempty; eauto.
    - apply (buildTree_sound files t Ht ch n Hin). }
  split; [exact H|].
  intros ch more n m Hn Hm Hne. apply slashPrefix_split.
  exists more. split; [exact Hne|].
  now rewrite (proj1 (H _ _ Hn)), (proj1 (H _ _ Hm)).
Qed.

Lemma path_names_the_place_witness :
  slashPrefix "a" "a/d/e".
Proof.
  apply (proj2 (path_names_the_place (mapOf ["a/b.txt"; "a/d/e"])
           (mkFileNode "a" directory
              (Some [newFile "b.txt" "a/b.txt";
                     mkFileNode "d" directory (Some [newFile "e" "a/d/e"]) "a/d"])
              "a") eq_refl)
           ["a"] ["d"; "e"]
           (mkFileNode "a" directory
              (Some [newFile "b.txt" "a/b.txt";
                     mkFileNode "d" directory (Some [newFile "e" "a/d/e"]) "a/d"])
              "a")
           (newFile "e" "a/d/e")).
  - simpl. now left.
  - simpl. right. right. right. now left.
  - discriminate.
Defined.

(** ** Every path gets its File node *)

Section Leaves.

#[local] Opaque insertAt.

(** A node without [children] that is in the tree stays where it is. *)
Lemma located_insertAt_leaf q (n : FileNode) :
  children n = None ->
  forall T ch rest pre,
    In (ch, n) (located T) -> In (ch, n) (located (insertAt q pre rest T)).
Proof.
  intros Hn T. induction T as [T IH] using FileNode_children_ind.
  intros ch rest pre Hin. apply in_located in Hin.
  destruct Hin as [[-> ->]|(cs & c & ch' & Hcs & Hc & Hin & ->)].
  - rewrite insertAt_leaf by exact Hn. apply located_self.
  - rewrite <- (insertAt_name q rest pre T).
    pose proof (insertAt_children q rest pre T cs Hcs) as Hcs'.
    assert (Hold : forall l, In c l ->
              children (insertAt q pre rest T) = Some l ->
              In (name (insertAt q pre rest T) :: ch', n)
                 (located (insertAt q pre rest T))).
    { intros l Hl Hk. eapply located_child; eauto. }
    destruct rest as [|x [|y r]].
    + apply (Hold cs); auto.
    + apply (Hold _ (in_or_app _ _ _ (or_introl Hc)) Hcs').
    + destruct (findChild x cs) as [d|] eqn:Hf.
      * destruct (findChild_some _ _ _ Hf) as (_ & l1 & l2 & -> & _ & Hu).
        rewrite Hu in Hcs'. apply in_app_iff in Hc.
        destruct Hc as [Hc|[<-|Hc]].
        -- eapply located_child; [exact Hcs' | | exact Hin].
           apply in_app_iff. now left.
        -- eapply located_child; [exact Hcs' | apply in_elt |].
           apply (IH _ d Hcs (in_elt _ _ _)). exact Hin.
        -- eapply located_child; [exact Hcs' | | exact Hin].
           apply in_app_iff. right. now right.
      * apply (Hold _ (in_or_app _ _ _ (or_introl Hc)) Hcs').
Qed.

Lemma located_buildFrom_leaf ks (n : FileNode) ch :
  children n = None -> forall root,
  In (ch, n) (located root) -> In (ch, n) (located (buildFrom root ks)).
Proof.
  intros Hn. unfold buildFrom. induction ks as [|k ks IH]; intros root H;
    [exact H|].
  simpl. apply IH. rewrite addPath_insertAt. now apply located_insertAt_leaf.
Qed.

(** A walk that is not stuck pushes its File node at the end. *)
Lemma insertAt_pushes p rest : forall pre current,
  rest <> [] -> ~ stuck current rest ->
  In (name current :: rest, newFile (last rest "") p)
     (located (insertAt p pre rest current)).
Proof.
  induction rest as [|x rest IH]; intros pre current Hne Hs; [congruence|].
  destruct (children current) as [cs|] eqn:Hcs;
    [|exfalso; now apply Hs, stuck_leaf].
  rewrite <- (insertAt_name p (x :: rest) pre current).
  pose proof (insertAt_children p (x :: rest) pre current cs Hcs) as Hcs'.
  destruct rest as [|y r].
  - eapply located_child; [exact Hcs' | apply in_elt |].
    simpl. now left.
  - change (last (x :: y :: r) "") with (last (y :: r) "").
    destruct (findChild x cs) as [d|] eqn:Hf.
    + destruct (findChild_some _ _ _ Hf) as (Hd & l1 & l2 & -> & _ & Hu).
      rewrite Hu in Hcs'.
      eapply located_child; [exact Hcs' | apply in_elt |].
      subst x. apply IH; [discriminate|].
      intros H. apply Hs, stuck_cons. right. eauto.
    + eapply located_child; [exact Hcs' | apply in_elt |].
      set (nd := mkFileNode x directory (Some [])
                   (Str.join Str.slash (pre ++ [x]))).
      change (x :: y :: r) with (name nd :: y :: r).
      apply IH; [discriminate|].
      destruct r; simpl; [tauto | now intros []].
Qed.

End Leaves.

Lemma buildFrom_name ks : forall root, name (buildFrom root ks) = name root.
Proof.
  unfold buildFrom. induction ks as [|p ks IH]; intros root; [reflexivity|].
  simpl. rewrite IH, addPath_insertAt. apply insertAt_name.
Qed.

Lemma buildFrom_leaves ks :
  prefixFree ks ->
  forall p, In p ks ->
    In ("Root" :: Str.split Str.slash p,
        newFile (last (Str.split Str.slash p) "") p)
       (located (buildFrom emptyRoot ks)).
Proof.
  induction ks as [|q ks IH] using rev_ind; intros Hp p Hin; [destruct Hin|].
  apply prefixFree_snoc in Hp. destruct Hp as (Hp & Ha & Hb).
  apply in_app_iff in Hin. destruct Hin as [Hin|[<-|[]]].
  - change (buildFrom emptyRoot (ks ++ [q]))
      with (fold_left addPath (ks ++ [q]) emptyRoot).
    rewrite fold_left_app. apply (located_buildFrom_leaf [q]); [reflexivity|].
    now apply IH.
  - rewrite buildFrom_app.
    destruct (buildFrom_children ks emptyRoot [] eq_refl) as (cs & Hcs & _).
    change "Root" with (name emptyRoot). rewrite <- (buildFrom_name ks).
    apply insertAt_pushes; [apply StrFacts.split_nonempty|].
    apply (fresh_not_stuck ks q Hb _ [] _ cs);
      auto using StrFacts.split_nonempty, buildFrom_sound.
Qed.

Lemma NoDup_map_same {A B} (f : A -> B) (l : list A) (x y : A) :
  NoDup (map f l) -> In x l -> In y l -> f x = f y -> x = y.
Proof.
  induction l as [|a l IH]; intros Hn Hx Hy E; [destruct Hx|].
  simpl in Hn. inversion Hn as [|? ? Hnot Hn']. subst.
  destruct Hx as [->|Hx], Hy as [->|Hy]; auto.
  - exfalso. apply Hnot. rewrite E. now apply in_map.
  - exfalso. apply Hnot. rewrite <- E. now apply in_map.
Qed.

(** ** X2: every path of the mapping has its File node *)

(** X2: for every flat mapping with unique paths of which none is a proper
    slash-prefix of another, every path has its File node under the
    synthetic root, at the place its segments name, with the last segment
    as its name and the path as its [path]; it is in the displayed tree
    when the path starts with the segment that names that tree. *)
Theorem every_path_has_its_leaf (files : FileMap) :
  NoDup (keys files) -> prefixFree (keys files) ->
  forall p, In p (keys files) ->
    In ("Root" :: Str.split Str.slash p,
        newFile (last (Str.split Str.slash p) "") p)
       (located (buildRoot files)) /\
    (forall t, buildTree files = Some t -> topSegment p = name t ->
       In (Str.split Str.slash p, newFile (last (Str.split Str.slash p) "") p)
          (located t)).
Proof.
  intros Hn Hp p Hin.
  pose proof (buildFrom_leaves (keys files) Hp p Hin) as H.
  split; [exact H|]. intros t Ht Htop.
  destruct (buildTree_in_root _ _ Ht) as (cs & Hcs).
  rewrite buildRoot_buildFrom in Hcs.
  apply in_located in H.
  destruct H as [[H _]|(cs' & c & ch' & Hcs' & Hc & Hin' & H)].
  - exfalso. injection H as H.
    now apply (StrFacts.split_nonempty Str.slash p).
  - rewrite Hcs in Hcs'. injection Hcs' as <-. injection H as _ <-.
    replace t with c; [exact Hin'|].
    pose proof (buildFrom_namesDistinct (keys files) Hn Hp) as HE.
    apply Every_node in HE. destruct HE as [Hd _]. specialize (Hd _ Hcs).
    apply (NoDup_map_same name (t :: cs)); auto; [now left|].
    rewrite <- Htop. unfold topSegment.
    apply located_head in Hin'. destruct Hin' as (tl & ->). reflexivity.
Qed.

Lemma every_path_has_its_leaf_witness :
  In (Str.split Str.slash "a/d/e", newFile "e" "a/d/e")
     (located
        (mkFileNode "a" directory
           (Some [newFile "b.txt" "a/b.txt";
                  mkFileNode "d" directory (Some [newFile "e" "a/d/e"]) "a/d"])
           "a")).
Proof.
  apply (proj2 (every_path_has_its_leaf (mapOf ["a/b.txt"; "a/d/e"])
           ltac:(repeat constructor; simpl; intuition discriminate)
           ltac:(intros p q Hp Hq (more & E); simpl in Hp, Hq;
                 decompose [or] Hp; decompose [or] Hq; subst;
                 try tauto; discriminate)
           "a/d/e" ltac:(simpl; tauto))).
  - reflexivity.
  - reflexivity.
Defined.

(** ** Children stand in first-seen order *)

Section FirstSeen.

Lemma existsb_eqb (x : string) (l : list string) :
  existsb (String.eqb x) l = true <-> In x l.
Proof.
  rewrite existsb_exists. split.
  - intros (y & Hy & E). apply String.eqb_eq in E. now subst.
  - intros H. exists x. split; [exact H | apply String.eqb_refl].
Qed.

Lemma firstSeen_snoc (l : list string) (x : string) :
  firstSeen (l ++ [x]) =
  if existsb (String.eqb x) (firstSeen l) then firstSeen l
  else firstSeen l ++ [x].
Proof. unfold firstSeen. now rewrite fold_left_app. Qed.

Lemma firstSeen_In (l : list string) (x : string) :
  In x (firstSeen l) <-> In x l.
Proof.
  induction l as [|y l IH] using rev_ind; [reflexivity|].
  rewrite firstSeen_snoc, in_app_iff.
  destruct (existsb (String.eqb y) (firstSeen l)) eqn:E.
  - apply existsb_eqb in E. rewrite IH in *. simpl.
    split; [tauto|]. intros [H|[<-|[]]]; tauto.
  - rewrite in_app_iff, IH. reflexivity.
Qed.

Lemma firstSeen_NoDup (l : list string) : NoDup (firstSeen l).
Proof.
  induction l as [|y l IH] using rev_ind; [constructor|].
  rewrite firstSeen_snoc.
  destruct (existsb (String.eqb y) (firstSeen l)) eqn:E; [exact IH|].
  apply NoDup_app; [exact IH | repeat constructor; intros [] |].
  intros a Ha [<-|[]]. apply existsb_eqb in Ha. congruence.
Qed.

Lemma firstSeen_old (l : list string) (x : string) :
  In x (firstSeen l) -> firstSeen (l ++ [x]) = firstSeen l.
Proof.
  intros H. rewrite firstSeen_snoc.
  now rewrite (proj2 (existsb_eqb x (firstSeen l)) H).
Qed.

Lemma firstSeen_new (l : list string) (x : string) :
  ~ In x (firstSeen l) -> firstSeen (l ++ [x]) = firstSeen l ++ [x].
Proof.
  intros H. rewrite firstSeen_snoc.
  destruct (existsb (String.eqb x) (firstSeen l)) eqn:E; [|reflexivity].
  apply existsb_eqb in E. tauto.
Qed.

Lemma after_app (pre : list string) (x : string) (rest : list string) :
  after pre (pre ++ x :: rest) = Some x.
Proof.
  induction pre as [|c pre IH]; simpl; [reflexivity|].
  now rewrite String.eqb_refl.
Qed.

Lemma after_diverge (pre t : list string) (c x : string) (rest : list string) :
  c <> x -> after (pre ++ c :: t) (pre ++ x :: rest) = None.
Proof.
  intros H. induction pre as [|d pre IH]; simpl.
  - apply String.eqb_neq in H. now rewrite H.
  - now rewrite String.eqb_refl.
Qed.

Lemma after_step (pre : list string) (x y : string) : forall parts,
  after (pre ++ [x]) parts = Some y -> after pre parts = Some x.
Proof.
  induction pre as [|c pre IH]; intros [|z parts]; simpl; try discriminate.
  - destruct (String.eqb x z) eqn:E; [|discriminate].
    apply String.eqb_eq in E. now subst.
  - destruct (String.eqb c z); [apply IH | discriminate].
Qed.

Lemma nextSegments_snoc ch ks p :
  nextSegments ch (ks ++ [p]) =
  nextSegments ch ks ++
  match after ch (Str.split Str.slash p) with
  | Some x => [x]
  | None => []
  end.
Proof.
  unfold nextSegments. rewrite flat_map_app. simpl. now rewrite app_nil_r.
Qed.

Lemma nextSegments_In ch ks x :
  In x (nextSegments ch ks) <->
  exists k, In k ks /\ after ch (Str.split Str.slash k) = Some x.
Proof.
  unfold nextSegments. rewrite in_flat_map. split.
  - intros (k & Hk & H). exists k. split; [exact Hk|].
    destruct (after ch (Str.split Str.slash k)); [|destruct H].
    destruct H as [->|[]]. reflexivity.
  - intros (k & Hk & H). exists k. split; [exact Hk|]. rewrite H. now left.
Qed.

Lemma nextSegments_nil ch ks :
  (forall k, In k ks -> after ch (Str.split Str.slash k) = None) ->
  nextSegments ch ks = [].
Proof.
  intros H. destruct (nextSegments ch ks) as [|x l] eqn:E; [reflexivity|].
  assert (Hx : In x (nextSegments ch ks)) by (rewrite E; now left).
  apply nextSegments_In in Hx. destruct Hx as (k & Hk & Hx).
  rewrite H in Hx by exact Hk. discriminate.
Qed.

Lemma nextSegments_top ks : nextSegments [] ks = map topSegment ks.
Proof.
  unfold nextSegments, topSegment.
  induction ks as [|k ks IH]; [reflexivity|].
  cbn [flat_map map]. rewrite IH.
  pose proof (StrFacts.split_nonempty Str.slash k) as Hne.
  destruct (Str.split Str.slash k); [congruence | reflexivity].
Qed.

End FirstSeen.

Section Order.

#[local] Opaque insertAt.

Variable ks : list string.
Variable p : string.
Hypothesis p_new : ~ In p ks.
Hypothesis p_not_above : forall k, In k ks -> ~ slashPrefix p k.
Hypothesis p_not_below : forall k, In k ks -> ~ slashPrefix k p.

(** The subtree of a child that the walk of [p] passes by. *)
Lemma ordered_aside pre x rest c :
  Str.split Str.slash p = pre ++ x :: rest -> name c <> x ->
  EveryAt (ordered ks) pre c -> EveryAt (ordered (ks ++ [p])) pre c.
Proof.
  intros Hp Hx HE ch m Hin cs Hcs.
  rewrite (HE ch m Hin cs Hcs), nextSegments_snoc, Hp.
  destruct (located_head _ _ _ Hin) as (t & ->).
  now rewrite after_diverge, app_nil_r.
Qed.

Lemma insertAt_ordered rest : forall pre current cs,
  rest <> [] -> Str.split Str.slash p = pre ++ rest ->
  children current = Some cs ->
  Below (sound ks) pre current ->
  ordered ks pre current -> Below (ordered ks) pre current ->
  ordered (ks ++ [p]) pre (insertAt p pre rest current) /\
  Below (ordered (ks ++ [p])) pre (insertAt p pre rest current).
Proof.
  induction rest as [|x rest IH]; intros pre current cs Hne Hp Hcs HS HO HB;
    [congruence|].
  pose proof (HO cs Hcs) as Hnames.
  pose proof (insertAt_children p (x :: rest) pre current cs Hcs) as Hcs'.
  assert (Hnext : nextSegments pre (ks ++ [p]) = nextSegments pre ks ++ [x])
    by now rewrite nextSegments_snoc, Hp, after_app.
  assert (Haside : forall c, In c cs -> name c <> x ->
                     EveryAt (ordered (ks ++ [p])) pre c).
  { intros c Hc Hx. eapply ordered_aside; [exact Hp | exact Hx |].
    exact (HB cs c Hcs Hc). }
  assert (Hleaf : forall n, children n = None ->
                    EveryAt (ordered (ks ++ [p])) pre n).
  { intros n Hn ch m Hin. rewrite located_leaf in Hin by exact Hn.
    destruct Hin as [[= <- <-]|[]]. intros ? ?. congruence. }
  unfold ordered at 1. unfold Below at 1. rewrite Hcs', Hnext.
  destruct rest as [|y r].
  - assert (Hfresh : ~ In x (map name cs))
      by (eapply (fresh_push ks p); eauto).
    split.
    + intros ? [= <-]. rewrite map_app. simpl.
      rewrite firstSeen_new by now rewrite <- Hnames. now rewrite Hnames.
    + intros ? c [= <-] Hc. apply in_app_iff in Hc.
      destruct Hc as [Hc|[<-|[]]]; [|now apply Hleaf].
      apply Haside; [exact Hc|]. intros E. apply Hfresh.
      rewrite <- E. now apply in_map.
  - assert (Hp' : Str.split Str.slash p = (pre ++ [x]) ++ y :: r)
      by now rewrite <- app_assoc.
    destruct (findChild x cs) as [d|] eqn:Hf.
    + destruct (fresh_descend ks p p_not_below _ _ _ _ _ _ _ Hp HS Hcs Hf)
        as (cs' & Hd).
      destruct (findChild_some _ _ _ Hf) as (Hx & l1 & l2 & -> & Hl1 & Hu).
      pose proof (HB _ d Hcs (in_elt _ _ _)) as HEd.
      apply EveryAt_node in HEd. rewrite Hx in HEd. destruct HEd as [HOd HBd].
      pose proof (HS _ d Hcs (in_elt _ _ _)) as HSd.
      apply EveryAt_node in HSd. rewrite Hx in HSd. destruct HSd as [_ HSd].
      destruct (IH (pre ++ [x]) d cs') as [HO' HB']; auto; [discriminate|].
      assert (Hnd : NoDup (map name (l1 ++ d :: l2)))
        by (rewrite Hnames; apply firstSeen_NoDup).
      rewrite map_app in Hnd. simpl in Hnd.
      apply NoDup_remove_2 in Hnd. rewrite Hx in Hnd.
      rewrite Hu. split.
      * intros ? [= <-]. rewrite map_app. simpl. rewrite insertAt_name.
        rewrite firstSeen_old; [now rewrite <- Hnames, map_app|].
        rewrite <- Hnames. apply in_map_iff. exists d.
        split; [exact Hx | apply in_elt].
      * intros ? c [= <-] Hc. apply in_app_iff in Hc.
        destruct Hc as [Hc|[<-|Hc]].
        -- apply Haside; [apply in_app_iff; now left|].
           intros E. apply Hnd, in_app_iff. left. rewrite <- E.
           now apply in_map.
        -- apply EveryAt_node. rewrite insertAt_name, Hx. now split.
        -- apply Haside; [apply in_app_iff; right; now right|].
           intros E. apply Hnd, in_app_iff. right. rewrite <- E.
           now apply in_map.
    + pose proof (findChild_none _ _ Hf) as Hfresh.
      set (nd := mkFileNode x directory (Some [])
                   (Str.join Str.slash (pre ++ [x]))) in *.
      destruct (IH (pre ++ [x]) nd []) as [HO' HB']; auto.
      * discriminate.
      * intros ? ? [= <-] [].
      * intros ? [= <-]. simpl. symmetry.
        rewrite nextSegments_nil; [reflexivity|].
        intros k Hk.
        destruct (after (pre ++ [x]) (Str.split Str.slash k)) as [z|] eqn:E;
          [|reflexivity].
        exfalso. apply Hfresh. rewrite Hnames. apply firstSeen_In.
        apply nextSegments_In. exists k. split; [exact Hk|].
        eapply after_step; eauto.
      * intros ? ? [= <-] [].
      * split.
        -- intros ? [= <-]. rewrite map_app. simpl. rewrite insertAt_name.
           simpl. rewrite firstSeen_new by now rewrite <- Hnames.
           now rewrite Hnames.
        -- intros ? c [= <-] Hc. apply in_app_iff in Hc.
           destruct Hc as [Hc|[<-|[]]].
           ++ apply Haside; [exact Hc|]. intros E. apply Hfresh.
              rewrite <- E. now apply in_map.
           ++ apply EveryAt_node. rewrite insertAt_name. now split.
Qed.

End Order.

Lemma buildFrom_ordered ks :
  NoDup ks -> prefixFree ks ->
  ordered ks [] (buildFrom emptyRoot ks) /\
  Below (ordered ks) [] (buildFrom emptyRoot ks).
Proof.
  induction ks as [|p ks IH] using rev_ind; intros Hn Hp.
  - split; [intros ? [= <-]; reflexivity | intros ? ? [= <-] []].
  - apply NoDup_snoc in Hn. destruct Hn as [Hn Hnew].
    apply prefixFree_snoc in Hp. destruct Hp as (Hp & Ha & Hb).
    destruct (IH Hn Hp) as [HO HB].
    destruct (buildFrom_children ks emptyRoot [] eq_refl) as (cs & Hcs & _).
    rewrite buildFrom_app.
    apply (insertAt_ordered ks p Hnew Ha Hb _ [] _ cs);
      auto using StrFacts.split_nonempty, buildFrom_sound.
Qed.

(** ** X3: the children of a node stand in first-seen order *)

(** X3: for every flat mapping with unique paths of which none is a proper
    slash-prefix of another: the children of the synthetic root are
    named by the top-level segments of the paths, each once, in the
    order in which the mapping first shows them; and the children of any
    node of the displayed tree are named by the segments that follow the
    node's own chain of names in the paths, each once, in the order in
    which the mapping first shows them. *)
Theorem children_in_first_seen_order (files : FileMap) :
  NoDup (keys files) -> prefixFree (keys files) ->
  (exists cs, children (buildRoot files) = Some cs /\
              map name cs = firstSeen (map topSegment (keys files))) /\
  (forall t ch n cs,
     buildTree files = Some t -> In (ch, n) (located t) ->
     children n = Some cs ->
     map name cs = firstSeen (nextSegments ch (keys files))).
Proof.
  intros Hn Hp. destruct (buildFrom_ordered (keys files) Hn Hp) as [HO HB].
  split.
  - destruct (buildFrom_children (keys files) emptyRoot [] eq_refl)
      as (cs & Hcs & _).
    exists cs. split; [exact Hcs|].
    rewrite <- nextSegments_top. now apply HO.
  - intros t ch n cs Ht Hin Hcs.
    destruct (buildTree_in_root _ _ Ht) as (cs0 & Hcs0).
    exact (HB _ t Hcs0 (or_introl eq_refl) ch n Hin cs Hcs).
Qed.

Lemma children_in_first_seen_order_witness :
  map name [newFile "z" "a/z"; mkFileNode "d" directory (Some [newFile "e" "a/d/e"]) "a/d";
            newFile "b" "a/b"] =
  firstSeen (nextSegments ["a"] (keys (mapOf ["a/z"; "a/d/e"; "x/y"; "a/b"]))).
Proof.
  apply (proj2 (children_in_first_seen_order (mapOf ["a/z"; "a/d/e"; "x/y"; "a/b"])
           ltac:(repeat constructor; simpl; intuition discriminate)
           ltac:(intros p q Hp Hq (more & E); simpl in Hp, Hq;
                 decompose [or] Hp; decompose [or] Hq; subst;
                 try tauto; discriminate))
           (mkFileNode "a" directory
              (Some [newFile "z" "a/z";
                     mkFileNode "d" directory (Some [newFile "e" "a/d/e"]) "a/d";
                     newFile "b" "a/b"]) "a")
           ["a"]
           (mkFileNode "a" directory
              (Some [newFile "z" "a/z";
                     mkFileNode "d" directory (Some [newFile "e" "a/d/e"]) "a/d";
                     newFile "b" "a/b"]) "a")).
  - reflexivity.
  - simpl. now left.
  - reflexivity.
Defined.

(** ** Clicking a row of the displayed tree *)

Section Clicks.

Lemma get_key (files : FileMap) (p : string) :
  In p (keys files) -> exists f, get files p = Some f /\ In (p, f) files.
Proof.
  induction files as [|[k f] files IH]; simpl; [tauto|].
  destruct (String.eqb_spec k p) as [->|Hne].
  - intros _. exists f. auto.
  - intros [H|H]; [congruence|].
    destruct (IH H) as (g & Hg & Hin). exists g. auto.
Qed.

Lemma get_some_key (files : FileMap) (p : string) (f : File) :
  get files p = Some f -> In p (keys files).
Proof.
  induction files as [|[k g] files IH]; simpl; [discriminate|].
  destruct (String.eqb_spec k p) as [->|Hne]; auto.
Qed.

End Clicks.

(** ** X4: a click on a File row *)

(** X4: for every flat mapping, the click on the row of a File node of the
    displayed tree, handled with the mapping the tree was built from,
    finds an entry under the path of that row.  When the value found is
    truthy (a [File] object, or a text that is not empty) it becomes the
    selected file and nothing else of the state changes; when it is falsy
    (the text of an empty file) the state stays as it was, the earlier
    selection included. *)
Theorem click_on_file_finds_its_entry
        (files : FileMap) (t : FileNode) (ch : list string) (n : FileNode)
        (s : PageState) :
  buildTree files = Some t -> In (ch, n) (located t) -> type n = file ->
  exists f,
    get files (path n) = Some f /\ In (path n, f) files /\
    handleFileSelect files (path n) s =
    (if truthy f then mkPageState (fileTree s) (Some f) (isLoading s) else s).
Proof.
  intros Ht Hin Hty.
  pose proof (buildTree_sound files t Ht ch n Hin) as [_ Hk].
  unfold fromKeys in Hk. rewrite Hty in Hk. destruct Hk as [Hkey _].
  destruct (get_key files (path n) Hkey) as (f & Hg & Hf).
  exists f. split; [exact Hg|]. split; [exact Hf|].
  unfold handleFileSelect. rewrite Hg. now destruct (truthy f).
Qed.

Lemma click_on_file_finds_its_entry_witness :
  exists f,
    get [("a/b.txt", text ""); ("a/d/e", someFile)] "a/b.txt" = Some f /\
    In ("a/b.txt", f) [("a/b.txt", text ""); ("a/d/e", someFile)] /\
    handleFileSelect [("a/b.txt", text ""); ("a/d/e", someFile)] "a/b.txt"
      (mkPageState None (Some someFile) false) =
    (if truthy f then mkPageState None (Some f) false
     else mkPageState None (Some someFile) false).
Proof.
  apply (click_on_file_finds_its_entry
           [("a/b.txt", text ""); ("a/d/e", someFile)]
           (mkFileNode "a" directory
              (Some [newFile "b.txt" "a/b.txt";
                     mkFileNode "d" directory (Some [newFile "e" "a/d/e"]) "a/d"])
              "a")
           ["a"; "b.txt"] (newFile "b.txt" "a/b.txt")
           (mkPageState None (Some someFile) false)).
  - reflexivity.
  - simpl. right. now left.
  - reflexivity.
Defined.

(** ** X5: a click on a Directory row *)

(** X5: for every flat mapping in which no path is a proper slash-prefix of
    another, the click on the row of a Directory node of the displayed
    tree finds no entry under the path of that row: the state, and with
    it the selected file, stays as it was. *)
Theorem click_on_directory_changes_nothing
        (files : FileMap) (t : FileNode) (ch : list string) (n : FileNode)
        (s : PageState) :
  prefixFree (keys files) ->
  buildTree files = Some t -> In (ch, n) (located t) -> type n = directory ->
  get files (path n) = None /\ handleFileSelect files (path n) s = s.
Proof.
  intros Hp Ht Hin Hty.
  assert (Hg : get files (path n) = None).
  { destruct (get files (path n)) as [f|] eqn:Hg; [exfalso|reflexivity].
    apply get_some_key in Hg.
    pose proof (buildTree_sound files t Ht ch n Hin) as [_ Hk].
    unfold fromKeys in Hk. rewrite Hty in Hk.
    destruct Hk as (Hpath & k & more & Hk & Hne & Hs).
    apply (Hp (path n) k Hg Hk).
    exists (Str.join Str.slash more).
    rewrite <- (StrFacts.join_split Str.slash k), Hs, Hpath.
    apply StrFacts.join_app; [|exact Hne].
    eapply located_nonempty; eauto. }
  split; [exact Hg|]. unfold handleFileSelect. now rewrite Hg.
Qed.

Lemma click_on_directory_changes_nothing_witness :
  handleFileSelect (mapOf ["a/b.txt"; "a/d/e"]) "a/d"
    (mkPageState None (Some someFile) false) =
  mkPageState None (Some someFile) false.
Proof.
  apply (click_on_directory_changes_nothing (mapOf ["a/b.txt"; "a/d/e"])
           (mkFileNode "a" directory
              (Some [newFile "b.txt" "a/b.txt";
                     mkFileNode "d" directory (Some [newFile "e" "a/d/e"]) "a/d"])
              "a")
           ["a"; "d"]
           (mkFileNode "d" directory (Some [newFile "e" "a/d/e"]) "a/d")).
  - intros p q Hp Hq (more & E). simpl in Hp, Hq.
    decompose [or] Hp; decompose [or] Hq; subst; try tauto; discriminate.
  - reflexivity.
  - simpl. right. right. now left.
  - reflexivity.
Defined.

(** ** The rows of the rendered tree *)

Section Rows.

Lemma flat_map_map {A B C} (f : A -> B) (g : B -> list C) (l : list A) :
  flat_map g (map f l) = flat_map (fun x => g (f x)) l.
Proof. induction l as [|x l IH]; simpl; [reflexivity | now rewrite IH]. Qed.

Lemma flat_map_ext_in {A B} (f g : A -> list B) (l : list A) :
  (forall x, In x l -> f x = g x) -> flat_map f l = flat_map g l.
Proof.
  induction l as [|x l IH]; intros H; simpl; [reflexivity|].
  rewrite H by now left. rewrite IH; [reflexivity|].
  intros y Hy. apply H. now right.
Qed.

Lemma map_flat_map {A B C} (f : B -> C) (g : A -> list B) (l : list A) :
  map f (flat_map g l) = flat_map (fun x => map f (g x)) l.
Proof.
  induction l as [|x l IH]; simpl; [reflexivity|].
  now rewrite map_app, IH.
Qed.

Lemma rows_renderFileTree (n : FileNode) :
  Every wellTyped n ->
  forall d, rows d (renderFileTree n) = map (shifted d) (located n).
Proof.
  induction n as [n IH] using FileNode_children_ind. intros Hw d.
  apply Every_node in Hw. destruct Hw as [Hn Hw].
  rewrite located_eq. destruct n as [nm ty ch pa]. simpl in *.
  unfold wellTyped in Hn. simpl in Hn.
  destruct ty, ch as [cs|]; try destruct Hn; simpl.
  - unfold shifted, rowOf. simpl. now rewrite Nat.add_1_r.
  - rewrite !app_nil_r. unfold shifted at 1, rowOf at 1. simpl.
    rewrite Nat.add_1_r. f_equal.
    rewrite flat_map_map, (map_map (under nm)), map_flat_map.
    apply flat_map_ext_in. intros c Hc.
    rewrite (IH cs c eq_refl Hc (Hw cs c eq_refl Hc)).
    apply map_ext. intros [ch m].
    unfold shifted, rowOf, under. simpl. f_equal. lia.
Qed.

End Rows.

Lemma buildTree_wellTyped files t :
  buildTree files = Some t -> Every wellTyped t.
Proof.
  intros Ht. destruct (buildTree_in_root _ _ Ht) as (cs & Hcs).
  eapply Every_child; [apply (buildFrom_wellTyped (keys files)) | exact Hcs |].
  now left.
Qed.

(** ** X6: one row per node *)

(** X6: the rendering of a tree produced by the builder has one button for
    every node of the tree, from top to bottom in the order parent, then
    children in their order; the button of a node shows the node's name,
    passes the node's path to the selection handler when clicked, carries
    the file icon for a File and a chevron and the folder icon for a
    Directory, and lies inside as many indenting boxes as there are names
    from the top of the tree down to the node. *)
Theorem one_row_per_node (files : FileMap) (t : FileNode) :
  buildTree files = Some t ->
  rows 0 (renderFileTree t) = map rowOf (located t).
Proof.
  intros Ht. rewrite rows_renderFileTree by (eapply buildTree_wellTyped; eauto).
  apply map_ext. intros e. unfold shifted. destruct (rowOf e). reflexivity.
Qed.

Lemma one_row_per_node_witness :
  rows 0 (renderFileTree
            (mkFileNode "a" directory
               (Some [newFile "b.txt" "a/b.txt";
                      mkFileNode "d" directory (Some [newFile "e" "a/d/e"]) "a/d"])
               "a")) =
  [mkRow 1 "a" [ChevronDown; FolderOpen] "a";
   mkRow 2 "a/b.txt" [FileIcon] "b.txt";
   mkRow 2 "a/d" [ChevronDown; FolderOpen] "d";
   mkRow 3 "a/d/e" [FileIcon] "e"].
Proof.
  apply (one_row_per_node (mapOf ["a/b.txt"; "a/d/e"])). reflexivity.
Defined.

(** ** The keys of the rendered arrays *)

Lemma children_names_unique_helper (files : FileMap) :
  NoDup (keys files) -> prefixFree (keys files) ->
  forall t ch n cs,
    buildTree files = Some t -> In (ch, n) (located t) ->
    children n = Some cs -> NoDup (map name cs).
Proof.
  intros Hn Hp t ch n cs Ht Hin Hcs.
  destruct (buildTree_in_root _ _ Ht) as (cs0 & Hcs0).
  pose proof (buildFrom_namesDistinct (keys files) Hn Hp) as HE.
  assert (Ht' : Every namesDistinct t)
    by (eapply Every_child; [exact HE | exact Hcs0 | now left]).
  exact (Ht' ch n Hin cs Hcs).
Qed.

Section Keys.

Lemma located_kid (c : FileNode) cs (m : FileNode) :
  children m = Some cs -> In c cs ->
  forall n ch, In (ch, m) (located n) -> In (ch ++ [name c], c) (located n).
Proof.
  intros Hcs Hc n. induction n as [n IH] using FileNode_children_ind.
  intros ch Hin. apply in_located in Hin.
  destruct Hin as [[-> ->]|(ds & d & ch' & Hds & Hd & Hin & ->)].
  - eapply located_child; eauto. apply located_self.
  - simpl. eapply located_child; eauto.
Qed.

Lemma arrays_renderFileTree (arr : list Element) (n : FileNode) :
  In arr (arrays (renderFileTree n)) ->
  exists ch m cs, In (ch, m) (located n) /\ children m = Some cs /\
                  arr = map renderFileTree cs.
Proof.
  induction n as [n IH] using FileNode_children_ind. intros Hin.
  destruct n as [nm ty ch pa]. simpl in *.
  destruct ty; [destruct Hin|]. simpl in Hin.
  destruct ch as [cs|]; [|destruct Hin]. simpl in Hin.
  rewrite !app_nil_r in Hin. destruct Hin as [<-|Hin].
  - exists [nm], (mkFileNode nm directory (Some cs) pa), cs.
    split; [now left | auto].
  - apply in_flat_map in Hin. destruct Hin as (e & He & Hin).
    apply in_map_iff in He. destruct He as (c & <- & Hc).
    destruct (IH cs c eq_refl Hc Hin) as (ch & m & ks & Hm & Hk & ->).
    exists (nm :: ch), m, ks. split; [|auto].
    right. apply in_map_iff. exists (ch, m). split; [reflexivity|].
    apply in_flat_map. eauto.
Qed.

Lemma keyOf_renderFileTree (c : FileNode) :
  keyOf (renderFileTree c) = Some (path c).
Proof. destruct c; reflexivity. Qed.

Lemma NoDup_map_finer {A B C} (f : A -> B) (g : A -> C) (l : list A) :
  NoDup (map g l) ->
  (forall x y, In x l -> In y l -> f x = f y -> g x = g y) ->
  NoDup (map f l).
Proof.
  induction l as [|a l IH]; intros Hn Hfg; simpl; [constructor|].
  simpl in Hn. inversion Hn as [|? ? Hnot Hn']. subst. constructor.
  - intros H. apply in_map_iff in H. destruct H as (b & E & Hb).
    apply Hnot. rewrite <- (Hfg b a); [now apply in_map | now right | now left | exact E].
  - apply IH; [exact Hn'|]. intros x y Hx Hy. apply Hfg; now right.
Qed.

End Keys.

(** ** X7: sibling rows have distinct keys *)

(** X7: for every flat mapping with unique paths of which none is a proper
    slash-prefix of another, every array of elements in the rendering of
    the displayed tree gives each of its elements a key, and no two
    elements of one array have the same key. *)
Theorem sibling_keys_distinct (files : FileMap) (t : FileNode)
        (arr : list Element) :
  NoDup (keys files) -> prefixFree (keys files) ->
  buildTree files = Some t -> In arr (arrays (renderFileTree t)) ->
  NoDup (map keyOf arr) /\ forall e, In e arr -> keyOf e <> None.
Proof.
  intros Hn Hp Ht Hin.
  destruct (arrays_renderFileTree arr t Hin) as (ch & m & cs & Hm & Hcs & ->).
  split.
  - apply (NoDup_map_finer _ (fun e => option_map Some (keyOf e))).
    + rewrite map_map.
      apply (NoDup_map_finer _ name).
      * exact (children_names_unique_helper files Hn Hp t ch m cs Ht Hm Hcs).
      * intros x y Hx Hy E. rewrite !keyOf_renderFileTree in E. simpl in E.
        injection E as E.
        pose proof (located_kid x cs m Hcs Hx t ch Hm) as Lx.
        pose proof (located_kid y cs m Hcs Hy t ch Hm) as Ly.
        destruct (sound_path (keys files) (ch ++ [name x]) x) as [_ Sx];
          [eapply located_nonempty; eauto
          | apply (buildTree_sound files t Ht _ x Lx) |].
        destruct (sound_path (keys files) (ch ++ [name y]) y) as [_ Sy];
          [eapply located_nonempty; eauto
          | apply (buildTree_sound files t Ht _ y Ly) |].
        rewrite E, Sy in Sx. apply app_inv_head in Sx. congruence.
    + intros x y _ _ E. now rewrite E.
  - intros e He. apply in_map_iff in He. destruct He as (c & <- & _).
    rewrite keyOf_renderFileTree. discriminate.
Qed.

Lemma sibling_keys_distinct_witness :
  NoDup (map keyOf
           (map renderFileTree
              [newFile "b.txt" "a/b.txt";
               mkFileNode "d" directory (Some [newFile "e" "a/d/e"]) "a/d"])) /\
  forall e,
    In e (map renderFileTree
            [newFile "b.txt" "a/b.txt";
             mkFileNode "d" directory (Some [newFile "e" "a/d/e"]) "a/d"]) ->
    keyOf e <> None.
Proof.
  apply (sibling_keys_distinct (mapOf ["a/b.txt"; "a/d/e"])
           (mkFileNode "a" directory
              (Some [newFile "b.txt" "a/b.txt";
                     mkFileNode "d" directory (Some [newFile "e" "a/d/e"]) "a/d"])
              "a")).
  - repeat constructor; simpl; intuition discriminate.
  - intros p q Hp Hq (more & E). simpl in Hp, Hq.
    decompose [or] Hp; decompose [or] Hq; subst; try tauto; discriminate.
  - reflexivity.
  - simpl. now left.
Defined.

(** ** The number that the formatter prints *)

Section Hundredths.

Lemma formatFileSize_KB (n : Z) :
  (1024 <= n < 1048576)%Z ->
  formatFileSize n = (twoDecimals (hundredths n 1024) ++ " KB")%string.
Proof.
  intros [H1 H2]. unfold formatFileSize, hundredths.
  destruct (Z.ltb_spec n 1024); [lia|].
  destruct (Z.ltb_spec n 1048576); [|lia].
  rewrite (FixedFacts.toFixed_two n 1024); [reflexivity | lia |].
  apply Z.div_le_lower_bound; lia.
Qed.

Lemma formatFileSize_MB (n : Z) :
  (1048576 <= n < 1073741824)%Z ->
  formatFileSize n = (twoDecimals (hundredths n 1048576) ++ " MB")%string.
Proof.
  intros [H1 H2]. unfold formatFileSize, hundredths.
  destruct (Z.ltb_spec n 1024); [lia|].
  destruct (Z.ltb_spec n 1048576); [lia|].
  destruct (Z.ltb_spec n 1073741824); [|lia].
  rewrite (FixedFacts.toFixed_two n 1048576); [reflexivity | lia |].
  apply Z.div_le_lower_bound; lia.
Qed.

Lemma formatFileSize_GB (n : Z) :
  (1073741824 <= n)%Z ->
  formatFileSize n = (twoDecimals (hundredths n 1073741824) ++ " GB")%string.
Proof.
  intros H1. unfold formatFileSize, hundredths.
  destruct (Z.ltb_spec n 1024); [lia|].
  destruct (Z.ltb_spec n 1048576); [lia|].
  destruct (Z.ltb_spec n 1073741824); [lia|].
  rewrite (FixedFacts.toFixed_two n 1073741824); [reflexivity | lia |].
  apply Z.div_le_lower_bound; lia.
Qed.

Lemma hundredths_bounds (n d : Z) :
  (0 < d)%Z -> (d <= n < 1024 * d)%Z ->
  (100 <= hundredths n d <= 102400)%N.
Proof.
  intros Hd [H1 H2]. unfold hundredths.
  assert (100 <= (200 * n + d) / (2 * d) <= 102400)%Z; [|lia].
  split.
  - apply Z.div_le_lower_bound; lia.
  - apply Z.lt_succ_r, Z.div_lt_upper_bound; lia.
Qed.

Lemma hundredths_mono (n n' d : Z) :
  (0 < d)%Z -> (0 <= n <= n')%Z -> (hundredths n d <= hundredths n' d)%N.
Proof.
  intros Hd [H0 H1]. unfold hundredths.
  apply Z2N.inj_le.
  - apply Z.div_pos; lia.
  - apply Z.div_pos; lia.
  - apply Z.div_le_mono; lia.
Qed.

End Hundredths.

(** ** X8: the formatter rounds a tie upwards *)

(** X8: for every byte count [n] that is a safe integer and at least 1024,
    the number printed before the unit is [h/100] for
    [h = floor (100 n / d + 1/2)], where [d] is 1024, 1048576 or
    1073741824 by the tier of [n]: the quotient rounded to the nearest
    hundredth, a tie rounded upwards. *)
Theorem formatFileSize_rounds_half_up (n : Z) :
  (1024 <= n <= Num.MAX_SAFE_INTEGER)%Z ->
  ((n < 1048576)%Z ->
     formatFileSize n = (twoDecimals (hundredths n 1024) ++ " KB")%string) /\
  ((1048576 <= n < 1073741824)%Z ->
     formatFileSize n = (twoDecimals (hundredths n 1048576) ++ " MB")%string) /\
  ((1073741824 <= n)%Z ->
     formatFileSize n = (twoDecimals (hundredths n 1073741824) ++ " GB")%string) /\
  forall d, (0 < d)%Z ->
    (Z.of_N (hundredths n d) * (2 * d) <= 200 * n + d
     < (Z.of_N (hundredths n d) + 1) * (2 * d))%Z.
Proof.
  intros [H1 _]. split; [|split; [|split]].
  - intros H. apply formatFileSize_KB. lia.
  - apply formatFileSize_MB.
  - apply formatFileSize_GB.
  - intros d Hd. unfold hundredths. rewrite Z2N.id by (apply Z.div_pos; lia).
    pose proof (Z.mul_div_le (200 * n + d) (2 * d)).
    pose proof (Z.mul_succ_div_gt (200 * n + d) (2 * d)).
    lia.
Qed.

Lemma formatFileSize_rounds_half_up_witness :
  formatFileSize 1152 = "1.13 KB".
Proof.
  apply (proj1 (formatFileSize_rounds_half_up 1152
                  ltac:(vm_compute; split; discriminate))).
  reflexivity.
Defined.

(** ** X9: the printed number stays within its tier *)

(** X9: for two byte counts [n <= n'] of the KB tier, or of the MB tier, the
    number printed for [n] is at least 1.00, the number printed for [n']
    is at most 1024.00 and not below the one printed for [n].  The upper
    end is reached: the last five byte counts below 1048576 are printed
    as ["1024.00 KB"], and the last 5242 below 1073741824 as
    ["1024.00 MB"], not with the next unit. *)
Theorem formatFileSize_within_tier (n n' : Z) :
  ((1024 <= n <= n')%Z -> (n' < 1048576)%Z ->
     formatFileSize n = (twoDecimals (hundredths n 1024) ++ " KB")%string /\
     formatFileSize n' = (twoDecimals (hundredths n' 1024) ++ " KB")%string /\
     (100 <= hundredths n 1024 <= hundredths n' 1024)%N /\
     (hundredths n' 1024 <= 102400)%N) /\
  ((1048576 <= n <= n')%Z -> (n' < 1073741824)%Z ->
     formatFileSize n = (twoDecimals (hundredths n 1048576) ++ " MB")%string /\
     formatFileSize n' =
       (twoDecimals (hundredths n' 1048576) ++ " MB")%string /\
     (100 <= hundredths n 1048576 <= hundredths n' 1048576)%N /\
     (hundredths n' 1048576 <= 102400)%N) /\
  ((1048571 <= n < 1048576)%Z -> formatFileSize n = "1024.00 KB") /\
  ((1073736582 <= n < 1073741824)%Z -> formatFileSize n = "1024.00 MB").
Proof.
  split; [|split; [|split]].
  - intros [H1 H2] H3. split; [|split; [|split; [split|]]].
    + apply formatFileSize_KB; lia.
    + apply formatFileSize_KB; lia.
    + apply (hundredths_bounds n 1024); lia.
    + apply hundredths_mono; lia.
    + apply (hundredths_bounds n' 1024); lia.
  - intros [H1 H2] H3. split; [|split; [|split; [split|]]].
    + apply formatFileSize_MB; lia.
    + apply formatFileSize_MB; lia.
    + apply (hundredths_bounds n 1048576); lia.
    + apply hundredths_mono; lia.
    + apply (hundredths_bounds n' 1048576); lia.
  - intros [H1 H2]. rewrite formatFileSize_KB by lia.
    replace (hundredths n 1024) with 102400%N; [reflexivity|].
    pose proof (hundredths_bounds n 1024) as Hb. unfold hundredths in *.
    assert (102400 <= (200 * n + 1024) / (2 * 1024))%Z
      by (apply Z.div_le_lower_bound; lia).
    lia.
  - intros [H1 H2]. rewrite formatFileSize_MB by lia.
    replace (hundredths n 1048576) with 102400%N; [reflexivity|].
    pose proof (hundredths_bounds n 1048576) as Hb. unfold hundredths in *.
    assert (102400 <= (200 * n + 1048576) / (2 * 1048576))%Z
      by (apply Z.div_le_lower_bound; lia).
    lia.
Qed.

Lemma formatFileSize_within_tier_witness :
  formatFileSize 1048575 = "1024.00 KB" /\
  formatFileSize 1073736582 = "1024.00 MB".
Proof.
  split.
  - apply (proj1 (proj2 (proj2 (formatFileSize_within_tier 1048575 1048575)))).
    lia.
  - apply (proj2 (proj2 (proj2
             (formatFileSize_within_tier 1073736582 1073736582)))).
    lia.
Defined.

(** ** The page over a run of events *)

(** ** X10: the loading flag is off between events *)

(** X10: from the first render on, after every sequence of map replacements,
    notifications and clicks, the loading flag is off: the skeleton is
    never what the page is left showing. *)
Theorem loading_flag_is_off (es : list Event) :
  isLoading (page (run initialWorld es)) = false.
Proof.
  assert (H : forall w, isLoading (page w) = false ->
                        isLoading (page (run w es)) = false).
  { unfold run. induction es as [|e es IH]; intros w Hw; [exact Hw|].
    simpl. apply IH. destruct e; simpl; auto.
    unfold handleFileSelect. destruct (get (files w) p) as [g|]; auto.
    destruct (truthy g); auto. }
  apply H. reflexivity.
Qed.

(** ** X11: the selected file comes from the mapping *)

(** X11: from the first render on, whenever a file is selected, it is a
    [File] object that the hook's mapping held, under the path that was
    clicked, at the moment of one of the clicks. *)
Theorem selected_file_was_in_the_mapping (es : list Event) (f : File) :
  selectedFile (page (run initialWorld es)) = Some f ->
  exists es1 p es2,
    es = es1 ++ Clicked p :: es2 /\
    get (files (run initialWorld es1)) p = Some f.
Proof.
  revert f. induction es as [|e es IH] using rev_ind; intros f H.
  - discriminate.
  - unfold run in H. rewrite fold_left_app in H. simpl in H.
    fold (run initialWorld es) in H.
    assert (Hold : selectedFile (page (run initialWorld es)) = Some f ->
                   exists es1 p es2,
                     es ++ [e] = es1 ++ Clicked p :: es2 /\
                     get (files (run initialWorld es1)) p = Some f).
    { intros H'. destruct (IH f H') as (es1 & p & es2 & -> & Hg).
      exists es1, p, (es2 ++ [e]). split; [|exact Hg].
      now rewrite <- app_assoc. }
    destruct e; simpl in H; auto.
    unfold handleFileSelect in H.
    destruct (get (files (run initialWorld es)) p) as [g|] eqn:Hg; auto.
    destruct (truthy g); auto.
    simpl in H. injection H as ->.
    exists es, p, []. auto.
Qed.

Lemma selected_file_was_in_the_mapping_witness :
  exists es1 p es2,
    [FilesReplaced (mapOf ["a/b.txt"]); Clicked "a/b.txt"; FilesReplaced []] =
    es1 ++ Clicked p :: es2 /\
    get (files (run initialWorld es1)) p = Some someFile.
Proof.
  apply (selected_file_was_in_the_mapping
           [FilesReplaced (mapOf ["a/b.txt"]); Clicked "a/b.txt";
            FilesReplaced []] someFile).
  reflexivity.
Defined.
